(** * copy-env-keys-to-env-example: the tokenizer and key-reconciliation engine

    A shallow embedding of [src/index.js] (the text-processing functions, all
    of them pure except for the clock read by [nowStamp]) and the properties
    of the specification that concern them.

    JavaScript strings are sequences of UTF-16 code units.  A code unit is
    modelled as an [N] and a string as a list of code units, so that the
    regular-expression class [\s] and [String.prototype.trim] keep their
    non-ASCII members. *)

From Stdlib Require Import List NArith Bool Arith Lia String Ascii.
Import ListNotations.

(** ** Strings *)

Definition char := N.
Definition str := list char.

(** A literal of the source, written as a Rocq string. *)
Definition lit (s : string) : str := map N_of_ascii (list_ascii_of_string s).

Definition LF : str := [10%N].
Definition CRLF : str := [13%N; 10%N].

Definition is_lf (c : char) : bool := N.eqb c 10.
Definition is_cr (c : char) : bool := N.eqb c 13.

(** [===] on two strings. *)
Fixpoint str_eqb (a b : str) : bool :=
  match a, b with
  | [], [] => true
  | x :: a', y :: b' => N.eqb x y && str_eqb a' b'
  | _, _ => false
  end.

(** [Set.prototype.has] on a set of strings: SameValueZero on strings is
    equality of the code-unit sequences.  The sets of the source are only
    ever built by [add] and queried by [has], so a set is modelled by the
    list of the strings added to it. *)
Definition has (s : list str) (k : str) : bool := existsb (str_eqb k) s.

(** The class [\s] of ECMAScript regular expressions, which is also the set
    of code units removed by [trim] (WhiteSpace and LineTerminator). *)
Definition is_space (c : char) : bool :=
  ((9 <=? c) && (c <=? 13) || (c =? 32) || (c =? 160) || (c =? 5760)
   || (8192 <=? c) && (c <=? 8202) || (c =? 8232) || (c =? 8233)
   || (c =? 8239) || (c =? 8287) || (c =? 12288) || (c =? 65279))%N.

(** Skip the longest run of [\s] at the start of a string. *)
Fixpoint drop_space (s : str) : str :=
  match s with
  | [] => []
  | c :: r => if is_space c then drop_space r else s
  end.

(** [s.replace(/\s*$/, "")]: the first position, from the left, at which
    [\s*$] matches is the first one whose whole remainder is white space; the
    remainder is replaced by the empty string. *)
Fixpoint rstrip (s : str) : str :=
  match s with
  | [] => []
  | c :: r => if forallb is_space s then [] else c :: rstrip r
  end.

(** [String.prototype.trim]. *)
Definition trim (s : str) : str := rstrip (drop_space s).

(** [s.replace(/\n*$/, "\n")]: the first position whose remainder consists of
    line feeds only; the remainder is replaced by one line feed. *)
Fixpoint replace_trailing_newlines (s : str) : str :=
  match s with
  | [] => LF
  | c :: r => if forallb is_lf s then LF else c :: replace_trailing_newlines r
  end.

(** [lines.join("\n")]. *)
Fixpoint join_lines (ls : list str) : str :=
  match ls with
  | [] => []
  | [l] => l
  | l :: rest => l ++ LF ++ join_lines rest
  end.

(** Put a code unit in front of the first piece of a split. *)
Definition push_front (c : char) (ls : list str) : list str :=
  match ls with
  | [] => [[c]]
  | h :: t => (c :: h) :: t
  end.

(** [content.split(/\r?\n/)]: at each position the separator [\r?\n] is tried;
    where it matches, the piece read so far is closed and the scan resumes
    after the separator. *)
Fixpoint split_lines (s : str) : list str :=
  match s with
  | [] => [[]]
  | c :: r =>
      if is_lf c then [] :: split_lines r
      else
        match r with
        | d :: r' =>
            if is_cr c && is_lf d then [] :: split_lines r'
            else push_front c (split_lines r)
        | [] => [[c]]
        end
  end.

(** [haystack.includes(needle)]. *)
Fixpoint starts_with (p s : str) : bool :=
  match p, s with
  | [], _ => true
  | x :: p', y :: s' => N.eqb x y && starts_with p' s'
  | _ :: _, [] => false
  end.

Fixpoint includes (s needle : str) : bool :=
  starts_with needle s ||
  match s with
  | [] => false
  | _ :: r => includes r needle
  end.

(** ** Line classifier *)

(** [/^\s*$/.test(line)] *)
Definition isBlankLine (line : str) : bool := forallb is_space line.

(** [/^\s*[#]/.test(line)] *)
Fixpoint isCommentLine (line : str) : bool :=
  match line with
  | [] => false
  | c :: r => if is_space c then isCommentLine r else N.eqb c 35
  end.

Fixpoint strip_literal (p s : str) : option str :=
  match p, s with
  | [], _ => Some s
  | x :: p', y :: s' => if N.eqb x y then strip_literal p' s' else None
  | _ :: _, [] => None
  end.

(** [line.replace(/^\s*export\s+/, "")] *)
Definition stripExportPrefix (line : str) : str :=
  match strip_literal (lit "export") (drop_space line) with
  | Some (c :: r) => if is_space c then drop_space r else line
  | _ => line
  end.

(** The loop of [findUnquotedEqualsIndex], entered at index [i] with the two
    quote flags; [None] stands for the result [-1]. *)
Fixpoint scanEquals (inSingle inDouble : bool) (i : nat) (line : str)
  : option nat :=
  match line with
  | [] => None
  | ch :: r =>
      if N.eqb ch 39 && negb inDouble then scanEquals (negb inSingle) inDouble (S i) r
      else if N.eqb ch 34 && negb inSingle then scanEquals inSingle (negb inDouble) (S i) r
      else if N.eqb ch 61 && negb inSingle && negb inDouble then Some i
      else scanEquals inSingle inDouble (S i) r
  end.

Definition findUnquotedEqualsIndex (line : str) : option nat :=
  scanEquals false false 0 line.

(** The object returned by [parseAssignment]; its [value] field is the same
    string as [rawValue]. *)
Record assignment := mkAssignment {
  key : str;
  rawKey : str;
  rawValue : str
}.

Definition value (a : assignment) : str := rawValue a.

Definition parseAssignment (line : str) : option assignment :=
  let withoutExport := stripExportPrefix line in
  match findUnquotedEqualsIndex withoutExport with
  | None => None
  | Some idx =>
      let rk := firstn idx withoutExport in
      let rv := skipn (idx + 1) withoutExport in
      Some (mkAssignment (trim rk) rk rv)
  end.

(** The test [assignment && assignment.key]: an object, with a key that is
    not the empty string. *)
Definition parsedWithKey (line : str) : option assignment :=
  match parseAssignment line with
  | Some a => match key a with [] => None | _ :: _ => Some a end
  | None => None
  end.

(** ** Tokenizer *)

Inductive token :=
  | Blank (raw : str)
  | Comment (raw : str)
  | Assignment (raw : str) (a : assignment).

Definition raw (t : token) : str :=
  match t with
  | Blank r | Comment r | Assignment r _ => r
  end.

Definition classifyLine (line : str) : token :=
  if isBlankLine line then Blank line
  else if isCommentLine line then Comment line
  else
    match parsedWithKey line with
    | Some a => Assignment line a
    | None => Comment line
    end.

Definition tokenizeEnvFile (content : str) : list token :=
  map classifyLine (split_lines content).

(** [content ? tokenizeEnvFile(content) : []]: the empty string is falsy. *)
Definition tokensOfSource (content : str) : list token :=
  match content with
  | [] => []
  | _ :: _ => tokenizeEnvFile content
  end.

(** ** Key indexer *)

Record entry := mkEntry {
  entryKey : str;
  commentsBefore : list str
}.

(** The three variables of the loop of [buildKeyIndexWithLeadingComments]. *)
Record indexState := mkIndexState {
  seen : list str;
  entries : list entry;
  pending : list str
}.

Definition initialIndexState : indexState := mkIndexState [] [] [].

(** One iteration of the loop. *)
Definition indexStep (st : indexState) (t : token) : indexState :=
  match t with
  | Blank r | Comment r =>
      mkIndexState (seen st) (entries st) (pending st ++ [r])
  | Assignment _ a =>
      if negb (has (seen st) (key a))
      then mkIndexState (key a :: seen st)
                        (entries st ++ [mkEntry (key a) (pending st)])
                        []
      else mkIndexState (seen st) (entries st) []
  end.

Record keyIndex := mkKeyIndex {
  indexEntries : list entry;
  trailing : list str
}.

Definition buildKeyIndexWithLeadingComments (tokens : list token) : keyIndex :=
  let st := fold_left indexStep tokens initialIndexState in
  mkKeyIndex (entries st) (pending st).

(** ** Multi-source merger *)

Record mergedKeys := mkMergedKeys {
  orderedEntries : list entry;
  trailingPrimary : list str;
  trailingSecondary : list str
}.

(** One iteration of the loop over the secondary entries: the state is the
    set [seen] and the array [merged]. *)
Definition mergeStep (st : list str * list entry) (e : entry)
  : list str * list entry :=
  let (seenKeys, merged) := st in
  if negb (has seenKeys (entryKey e))
  then (entryKey e :: seenKeys, merged ++ [e])
  else st.

Definition uniqueKeyOrderFromTokens (primaryTokens secondaryTokens : list token)
  : mergedKeys :=
  let p := buildKeyIndexWithLeadingComments primaryTokens in
  let seenKeys := map entryKey (indexEntries p) in
  let s := buildKeyIndexWithLeadingComments secondaryTokens in
  let merged := snd (fold_left mergeStep (indexEntries s) (seenKeys, indexEntries p)) in
  mkMergedKeys merged (trailing p) (trailing s).

Definition isAssignment (t : token) : bool :=
  match t with
  | Assignment _ _ => true
  | _ => false
  end.

(** The keys of the assignment tokens, in order: what
    [tokens.filter(t => t.type === "assignment").map(t => t.key)] and the
    loops [if (t.type === "assignment") presentKeys.add(t.key)] collect. *)
Fixpoint assignmentKeys (tokens : list token) : list str :=
  match tokens with
  | [] => []
  | Assignment _ a :: r => key a :: assignmentKeys r
  | _ :: r => assignmentKeys r
  end.

(** ** The clock *)

(** The fields of [new Date()] that [nowStamp] reads (local time). *)
Record Date := mkDate {
  getFullYear : N;
  getMonth : N;
  getDate : N;
  getHours : N;
  getMinutes : N;
  getSeconds : N
}.

Fixpoint decimalDigits (fuel : nat) (n : N) (acc : str) : str :=
  match fuel with
  | O => acc
  | S f =>
      let acc' := (48 + n mod 10)%N :: acc in
      if (n / 10 =? 0)%N then acc' else decimalDigits f (n / 10)%N acc'
  end.

(** [String(n)] for a natural number. *)
Definition stringOfNumber (n : N) : str :=
  decimalDigits (S (N.to_nat (N.log2 n))) n [].

(** [String(n).padStart(2, "0")] *)
Definition pad (n : N) : str :=
  let s := stringOfNumber n in
  match s with
  | [_] => 48%N :: s
  | [] => [48%N; 48%N]
  | _ => s
  end.

Definition nowStamp (d : Date) : str :=
  stringOfNumber (getFullYear d) ++ lit "-" ++ pad (getMonth d + 1) ++ lit "-"
  ++ pad (getDate d) ++ lit " " ++ pad (getHours d) ++ lit ":"
  ++ pad (getMinutes d) ++ lit ":" ++ pad (getSeconds d).

(** ** Template builder *)

(** The loop that collects [leading]: comment and blank tokens up to the
    first token of another type. *)
Fixpoint leadingBlock (tokens : list token) : list str :=
  match tokens with
  | Blank r :: rest | Comment r :: rest => r :: leadingBlock rest
  | _ => []
  end.

(** [a.length === b.length && a.every((v, i) => v === b[i])] *)
Fixpoint sameLines (a b : list str) : bool :=
  match a, b with
  | [], [] => true
  | x :: a', y :: b' => str_eqb x y && sameLines a' b'
  | _, _ => false
  end.

Definition nonEmpty {A} (l : list A) : bool :=
  match l with [] => false | _ :: _ => true end.

(** One iteration of the loop over [orderedEntries]: the state is the array
    [lines] and the flag [firstEntryProcessed]. *)
Definition emitEntry (leading : list str) (st : list str * bool) (e : entry)
  : list str * bool :=
  let (lines, firstEntryProcessed) := st in
  let lines1 :=
    if nonEmpty (commentsBefore e) then
      if negb firstEntryProcessed && nonEmpty leading then
        if sameLines leading (commentsBefore e) then lines
        else lines ++ commentsBefore e
      else lines ++ commentsBefore e
    else lines in
  (lines1 ++ [entryKey e ++ lit "="], true).

(** The array [lines] of [buildExampleFromScratch] when it is joined. *)
Definition buildExampleLines (envContent envLocalContent : str) : list str :=
  let envTokens := tokensOfSource envContent in
  let envLocalTokens := tokensOfSource envLocalContent in
  let m := uniqueKeyOrderFromTokens envTokens envLocalTokens in
  let leading := leadingBlock envTokens in
  let lines0 := if nonEmpty leading then leading else [] in
  let lines1 := fst (fold_left (emitEntry leading) (orderedEntries m) (lines0, false)) in
  let trailingBlock :=
    if nonEmpty (trailingPrimary m) then trailingPrimary m else trailingSecondary m in
  if nonEmpty trailingBlock then lines1 ++ trailingBlock else lines1.

Definition buildExampleFromScratch (envContent envLocalContent : str) : str :=
  join_lines (buildExampleLines envContent envLocalContent) ++ LF.

(** ** Template patcher *)

Definition sectionHeader (now : Date) : str :=
  lit "# --- Added by copy-env-keys-to-env-example on " ++ nowStamp now ++ lit " ---".

(** [orderedEntries.filter(e => !exampleKeys.has(e.key))] *)
Definition missingEntries (exampleContent envContent envLocalContent : str)
  : list entry :=
  let exampleKeys := assignmentKeys (tokenizeEnvFile exampleContent) in
  let m := uniqueKeyOrderFromTokens (tokensOfSource envContent)
                                    (tokensOfSource envLocalContent) in
  filter (fun e => negb (has exampleKeys (entryKey e))) (orderedEntries m).

(** One iteration of the loop over [missingEntries]. *)
Definition appendEntry (lines : list str) (e : entry) : list str :=
  let lines1 := if nonEmpty (commentsBefore e) then lines ++ commentsBefore e else lines in
  lines1 ++ [entryKey e ++ lit "="].

(** The array [lines] of [appendMissingKeysToExample] when it is joined, on
    the path that appends. *)
Definition appendMissingLines
  (now : Date) (exampleContent envContent envLocalContent : str) : list str :=
  let missing := missingEntries exampleContent envContent envLocalContent in
  let lines := split_lines (rstrip exampleContent) in
  let lines := lines ++ [sectionHeader now] in
  fold_left appendEntry missing lines.

(** [now] is the value of [new Date()] read by [nowStamp]; it is read only
    when there is something to append. *)
Definition appendMissingKeysToExample
  (now : Date) (exampleContent envContent envLocalContent : str) : str :=
  match missingEntries exampleContent envContent envLocalContent with
  | [] => exampleContent
  | _ :: _ =>
      join_lines (appendMissingLines now exampleContent envContent envLocalContent)
      ++ LF
  end.

(** ** Unknown-key annotator *)

Definition WARNING_MISSING_IN_SOURCES : str :=
  lit "# NOTE: Key not found in .env or .env.local".

(** The backward scan [while (j >= 0 && /^\s*$/.test(output[j])) j -= 1],
    on the array read from its last element. *)
Fixpoint skipBlankLines (reversed : list str) : list str :=
  match reversed with
  | [] => []
  | l :: r => if isBlankLine l then skipBlankLines r else reversed
  end.

Definition prevIsWarning (output : list str) : bool :=
  match skipBlankLines (rev output) with
  | [] => false
  | l :: _ => str_eqb l WARNING_MISSING_IN_SOURCES
  end.

(** One iteration of the loop over the lines of the template. *)
Definition markStep (presentKeys : list str) (output : list str) (line : str)
  : list str :=
  let output1 :=
    match parsedWithKey line with
    | Some a =>
        if negb (has presentKeys (key a))
        then if negb (prevIsWarning output)
             then output ++ [WARNING_MISSING_IN_SOURCES]
             else output
        else output
    | None => output
    end in
  output1 ++ [line].

Definition presentKeysOf (envContent envLocalContent : str) : list str :=
  assignmentKeys (tokensOfSource envContent)
  ++ assignmentKeys (tokensOfSource envLocalContent).

(** The array [output] of [markUnknownKeysInExample] when it is joined. *)
Definition markUnknownLines (exampleContent envContent envLocalContent : str)
  : list str :=
  fold_left (markStep (presentKeysOf envContent envLocalContent))
            (split_lines exampleContent) [].

Definition markUnknownKeysInExample (exampleContent envContent envLocalContent : str)
  : str :=
  replace_trailing_newlines
    (join_lines (markUnknownLines exampleContent envContent envLocalContent)).

(** ** The existing-template path of [main] *)

Definition updateExisting
  (now : Date) (exampleContent envContent envLocalContent : str) : str :=
  let marked := markUnknownKeysInExample exampleContent envContent envLocalContent in
  appendMissingKeysToExample now marked envContent envLocalContent.

(** * Notions used to state the properties *)

(** The content with every [\r\n] replaced by [\n], read with the scan of
    [split_lines]. *)
Fixpoint crlf_to_lf (s : str) : str :=
  match s with
  | [] => []
  | c :: r =>
      if is_lf c then c :: crlf_to_lf r
      else
        match r with
        | d :: r' =>
            if is_cr c && is_lf d then d :: crlf_to_lf r' else c :: crlf_to_lf r
        | [] => [c]
        end
  end.

(** Does the content hold the sequence [\r\n]? *)
Fixpoint has_crlf (s : str) : bool :=
  match s with
  | [] => false
  | c :: r =>
      match r with
      | d :: _ => is_cr c && is_lf d || has_crlf r
      | [] => false
      end
  end.

(** The key list [ks] with every key kept at its first occurrence only. *)
Fixpoint firstOccurrences (ks : list str) : list str :=
  match ks with
  | [] => []
  | k :: r => k :: filter (fun x => negb (str_eqb x k)) (firstOccurrences r)
  end.

Definition notAssignment (t : token) : bool := negb (isAssignment t).

(** The raw lines of the longest run of blank and comment tokens that ends
    the token list [pre]: the lines immediately above whatever follows. *)
Fixpoint attachedRun (pre : list token) : list str :=
  match pre with
  | [] => []
  | _ :: r => if forallb notAssignment pre then map raw pre else attachedRun r
  end.

(** The loop of the key indexer as a recursion on the tokens left to read,
    from a set of seen keys and a pending accumulator: the entries that are
    still to be pushed, and the final accumulator. *)
Fixpoint indexFrom (seenKeys pend : list str) (tokens : list token)
  : list entry * list str :=
  match tokens with
  | [] => ([], pend)
  | Blank r :: ts | Comment r :: ts => indexFrom seenKeys (pend ++ [r]) ts
  | Assignment _ a :: ts =>
      if has seenKeys (key a) then indexFrom seenKeys [] ts
      else
        let (es, tr) := indexFrom (key a :: seenKeys) [] ts in
        (mkEntry (key a) pend :: es, tr)
  end.

(** A token with the value of its assignment blanked out, and with it the raw
    line that holds the value: what is left of a source line when its value
    is ignored. *)
Definition withoutValue (t : token) : token :=
  match t with
  | Assignment _ a => Assignment [] (mkAssignment (key a) (rawKey a) [])
  | _ => t
  end.

(** The lines pushed for a list of entries by the loop of the patcher. *)
Definition appendedBlock (es : list entry) : list str :=
  flat_map (fun e => commentsBefore e ++ [entryKey e ++ lit "="]) es.

(** The pieces of a joined array that lie before and after one of its
    elements. *)
Definition joinedBefore (ls : list str) : str := flat_map (fun l => l ++ LF) ls.
Definition joinedAfter (ls : list str) : str := flat_map (fun l => LF ++ l) ls.

(** A list of lines without the blank lines that end it. *)
Fixpoint stripBlankTail (ls : list str) : list str :=
  match ls with
  | [] => []
  | l :: r => if forallb isBlankLine ls then [] else l :: stripBlankTail r
  end.

(** The lines that [split_lines (rstrip s)] gives, from the lines kept by
    [stripBlankTail]: all but the last as they are, and the last without the
    white space that ends it. *)
Definition frameOf (kept : list str) : list str :=
  removelast kept ++ [rstrip (last kept [])].

(** * The rest of the program: keys of a content, command line, [main] *)

Definition parseKeysFromContent (content : str) : list str :=
  assignmentKeys (tokenizeEnvFile content).

(** What [printUsageAndExit] prints. *)
Definition usageMessage : str :=
  join_lines
    [lit "Usage: copy-env-keys-to-env-example [--dry-run] [--output <path>]";
     [];
     lit "Options:";
     lit "  --dry-run            Print the resulting .env.example to stdout instead of writing";
     lit "  -o, --output <path>  Output file path (default: ./.env.example)"].

(** [parseCliArgs] either returns its object or ends the process through
    [printUsageAndExit]: the exit code and the texts given to
    [console.error], in order. *)
Inductive cliResult :=
  | CliExit (code : N) (errors : list str)
  | CliParsed (dryRun : bool) (outputPath : str).

(** An error thrown by [fs]: its [code] and its [message]. *)
Record fsError := mkFsError {
  errCode : str;
  errMessage : str
}.

(** The result of a call that returns or throws. *)
Inductive result (A : Type) :=
  | Return (a : A)
  | Throw (e : fsError).
Arguments Return {A} a.
Arguments Throw {A} e.

(** What a run of the program does: the exit code of the process, the texts
    given to [console.error], what is written on the standard output, and
    the calls to [fs.writeFileSync] (path and content), in order. *)
Record run := mkRun {
  exitCode : N;
  errors : list str;
  stdout : str;
  writes : list (str * str)
}.

(** [!content]: [null] and the empty string are falsy. *)
Definition falsy (content : option str) : bool :=
  match content with
  | None | Some [] => true
  | Some (_ :: _) => false
  end.

(** [content || ""] *)
Definition orEmpty (content : option str) : str :=
  match content with
  | Some (c :: s) => c :: s
  | _ => []
  end.

Section Environment.

(** [path.join], [path.isAbsolute] and [path.relative] of Node.js. *)
Variable pathJoin : str -> str -> str.
Variable pathIsAbsolute : str -> bool.
Variable pathRelative : str -> str -> str.

(** The file system: what [fs.readFileSync(path, "utf8")] returns or throws,
    and whether [fs.writeFileSync(path, content)] throws. *)
Variable readFileSync : str -> result str.
Variable writeFileSync : str -> str -> option fsError.

(** How [console.error] prints an error object. *)
Variable inspectError : fsError -> str.

(** The loop of [parseCliArgs] from the argument at index [i] on: [argv] is
    what is left of the arguments from that index. *)
Fixpoint parseCliLoop (cwd : str) (argv : list str) (dryRun : bool) (outputPath : str)
  : cliResult :=
  match argv with
  | [] => CliParsed dryRun outputPath
  | arg :: rest =>
      if str_eqb arg (lit "--dry-run") then parseCliLoop cwd rest true outputPath
      else if str_eqb arg (lit "--output") || str_eqb arg (lit "-o") then
        match rest with
        | next :: rest' =>
            if negb (nonEmpty next) || starts_with (lit "-") next
            then CliExit 1 [lit "Missing <path> after " ++ arg; usageMessage]
            else parseCliLoop cwd rest' dryRun
                   (if pathIsAbsolute next then next else pathJoin cwd next)
        | [] => CliExit 1 [lit "Missing <path> after " ++ arg; usageMessage]
        end
      else if str_eqb arg (lit "--help") || str_eqb arg (lit "-h")
      then CliExit 0 [usageMessage]
      else CliExit 1 [lit "Unknown argument: " ++ arg; usageMessage]
  end.

Definition parseCliArgs (argv : list str) (cwd : str) : cliResult :=
  parseCliLoop cwd argv false (pathJoin cwd (lit ".env.example")).

Definition readFileIfExists (filePath : str) : result (option str) :=
  match readFileSync filePath with
  | Return content => Return (Some content)
  | Throw err =>
      if str_eqb (errCode err) (lit "ENOENT") || str_eqb (errCode err) (lit "ENOTDIR")
      then Return None
      else Throw err
  end.

(** The handler around [main]: [console.error("Error:", ...)] and
    [process.exit(1)], after the calls to [fs.writeFileSync] made so far. *)
Definition crashed (err : fsError) (written : list (str * str)) : run :=
  let text := if nonEmpty (errMessage err) then errMessage err else inspectError err in
  mkRun 1 [lit "Error: " ++ text] [] written.

(** [main], with [argv] for [process.argv.slice(2)], [cwd] for
    [process.cwd()] and [now] for the clock. *)
Definition main (argv : list str) (cwd : str) (now : Date) : run :=
  match parseCliArgs argv cwd with
  | CliExit code errs => mkRun code errs [] []
  | CliParsed dryRun outputPath =>
  match readFileIfExists (pathJoin cwd (lit ".env")) with
  | Throw err => crashed err []
  | Return envContent =>
  match readFileIfExists (pathJoin cwd (lit ".env.local")) with
  | Throw err => crashed err []
  | Return envLocalContent =>
  if falsy envContent && falsy envLocalContent
  then mkRun 1 [lit "No .env or .env.local found. Nothing to do."] [] []
  else
  match readFileIfExists outputPath with
  | Throw err => crashed err []
  | Return None =>
      let built := buildExampleFromScratch (orEmpty envContent) (orEmpty envLocalContent) in
      if dryRun then mkRun 0 [] built []
      else
        match writeFileSync outputPath built with
        | Some err => crashed err [(outputPath, built)]
        | None =>
            mkRun 0 []
              (lit "Created " ++ pathRelative cwd outputPath
               ++ lit " with keys from .env and .env.local" ++ LF)
              [(outputPath, built)]
        end
  | Return (Some exampleContent) =>
      let marked :=
        markUnknownKeysInExample exampleContent (orEmpty envContent) (orEmpty envLocalContent) in
      let updated :=
        appendMissingKeysToExample now marked (orEmpty envContent) (orEmpty envLocalContent) in
      if dryRun then mkRun 0 [] updated []
      else if str_eqb updated exampleContent
      then mkRun 0 [] (lit "Output already contains all keys. Nothing to update." ++ LF) []
      else
        match writeFileSync outputPath updated with
        | Some err => crashed err [(outputPath, updated)]
        | None => mkRun 0 [] (lit "Updated output file" ++ LF) [(outputPath, updated)]
        end
  end end end end.

End Environment.

(** * Notions used to state the further properties *)

(** The line written for a token by the builder: [KEY=] for an assignment,
    the raw line otherwise. *)
Definition renderToken (t : token) : str :=
  match t with
  | Assignment _ a => key a ++ lit "="
  | _ => raw t
  end.

(** A line of the template that the annotator reads as an assignment of a
    key that is in neither source. *)
Definition unknownLine (presentKeys : list str) (line : str) : bool :=
  match parsedWithKey line with
  | Some a => negb (has presentKeys (key a))
  | None => false
  end.

Definition isWarning (line : str) : bool := str_eqb line WARNING_MISSING_IN_SOURCES.

(** Does the line end with a carriage return? *)
Definition endsWithCR (line : str) : bool :=
  match rev line with
  | c :: _ => is_cr c
  | [] => false
  end.

(** The decimal digit of a number below ten. *)
Definition digit (n : N) : char := (48 + n)%N.

(** The index of the first equals sign of a line, quoted or not. *)
Fixpoint firstEquals (i : nat) (line : str) : option nat :=
  match line with
  | [] => None
  | c :: r => if N.eqb c 61 then Some i else firstEquals (S i) r
  end.

Definition isQuote (c : char) : bool := N.eqb c 39 || N.eqb c 34.

(** The number of line feeds of a content. *)
Fixpoint countLF (s : str) : nat :=
  match s with
  | [] => 0
  | c :: r => if is_lf c then S (countLF r) else countLF r
  end.

(** [withWarnings original output]: [output] is [original] with warning
    lines inserted, and nothing else changed. *)
Inductive withWarnings : list str -> list str -> Prop :=
  | ww_nil : withWarnings [] []
  | ww_keep l original output :
      withWarnings original output -> withWarnings (l :: original) (l :: output)
  | ww_insert original output :
      withWarnings original output ->
      withWarnings original (WARNING_MISSING_IN_SOURCES :: output).

(** Every line that the annotator takes for an unknown key has the warning
    as the nearest line above it that is not blank. *)
Definition allMarked (presentKeys output : list str) : Prop :=
  forall n l, nth_error output n = Some l -> unknownLine presentKeys l = true ->
              prevIsWarning (firstn n output) = true.

(** A line without a line feed. *)
Definition noLF (line : str) : bool := forallb (fun c => negb (is_lf c)) line.

(** A line that [split_lines] gives back when it is joined with others: no
    line feed in it and no carriage return at its end. *)
Definition cleanLine (line : str) : bool := noLF line && negb (endsWithCR line).

(** A file system for examples: [/app/.env] holds [A=1] and a line feed after
    it, every other path is absent, and writing succeeds. *)
Definition exampleReadFileSync (path : str) : result str :=
  if str_eqb path (lit "/app/.env") then Return (lit "A=1" ++ LF)
  else Throw (mkFsError (lit "ENOENT") (lit "ENOENT: no such file or directory")).

Definition examplePathJoin (a b : str) : str := a ++ lit "/" ++ b.

(** A file system in which [/app/.env] exists and is empty. *)
Definition emptyEnvReadFileSync (path : str) : result str :=
  if str_eqb path (lit "/app/.env") then Return []
  else Throw (mkFsError (lit "ENOENT") (lit "ENOENT: no such file or directory")).

(** The arguments that [parseCliArgs] knows. *)
Definition knownFlag (arg : str) : bool :=
  str_eqb arg (lit "--dry-run")
  || (str_eqb arg (lit "--output") || str_eqb arg (lit "-o"))
  || (str_eqb arg (lit "--help") || str_eqb arg (lit "-h")).

(** * Properties *)

(** ** Strings and lines *)

Lemma str_eqb_eq (a b : str) : str_eqb a b = true <-> a = b.
Proof.
  revert b; induction a as [|x a IH]; intros [|y b]; simpl; split;
    try congruence; try reflexivity.
  - rewrite andb_true_iff, N.eqb_eq, IH; intros [-> ->]; reflexivity.
  - intros E; injection E as -> ->.
    rewrite andb_true_iff, N.eqb_eq, IH; split; reflexivity.
Qed.

Lemma str_eqb_refl (a : str) : str_eqb a a = true.
Proof. apply str_eqb_eq; reflexivity. Qed.

Lemma has_In (s : list str) (k : str) : has s k = true <-> In k s.
Proof.
  unfold has; rewrite existsb_exists; split.
  - intros [x [Hin E]]; apply str_eqb_eq in E; subst; assumption.
  - intros Hin; exists k; split; [assumption | apply str_eqb_refl].
Qed.

Lemma has_false_In (s : list str) (k : str) : has s k = false <-> ~ In k s.
Proof.
  rewrite <- has_In; destruct (has s k); split; intros; congruence.
Qed.

Lemma drop_space_decompose (s : str) :
  exists l, s = l ++ drop_space s /\ forallb is_space l = true.
Proof.
  induction s as [|c s [l [E Hl]]]; simpl.
  - exists []; split; reflexivity.
  - destruct (is_space c) eqn:Hc.
    + exists (c :: l); simpl. rewrite Hc, Hl. split; [f_equal; exact E | reflexivity].
    + exists []; split; reflexivity.
Qed.

Lemma rstrip_decompose (s : str) :
  exists r, s = rstrip s ++ r /\ forallb is_space r = true.
Proof.
  induction s as [|c s [r [E Hr]]].
  - exists []; split; reflexivity.
  - unfold rstrip; fold rstrip.
    destruct (forallb is_space (c :: s)) eqn:Hall.
    + exists (c :: s); split; [reflexivity | exact Hall].
    + exists r; split; [simpl; f_equal; exact E | exact Hr].
Qed.

Lemma trim_decompose (s : str) :
  exists l r, s = l ++ trim s ++ r /\
              forallb is_space l = true /\ forallb is_space r = true.
Proof.
  destruct (drop_space_decompose s) as [l [El Hl]].
  destruct (rstrip_decompose (drop_space s)) as [r [Er Hr]].
  exists l, r. unfold trim. rewrite <- Er. auto.
Qed.

(** Induction two code units at a time, as [split_lines] recurses. *)
Lemma str_ind2 (P : str -> Prop) :
  P [] -> (forall c, P [c]) ->
  (forall c d r, P r -> P (d :: r) -> P (c :: d :: r)) ->
  forall s, P s.
Proof.
  intros H0 H1 H2 s.
  assert (H : P s /\ forall c, P (c :: s)).
  { induction s as [|d r [IHa IHb]]; split; auto. }
  apply H.
Qed.

Lemma split_lines_nonempty (s : str) : split_lines s <> [].
Proof.
  induction s as [| c | c d r IHr IHdr] using str_ind2; simpl; try discriminate.
  - destruct (is_lf c); discriminate.
  - destruct (is_lf c); [discriminate|].
    destruct (is_cr c && is_lf d); [discriminate|].
    simpl in IHdr. destruct (is_lf d); [discriminate|].
    destruct r as [|e r']; [discriminate|].
    destruct (is_cr d && is_lf e); [discriminate|].
    destruct (split_lines (e :: r')); [congruence | discriminate].
Qed.

Lemma join_lines_cons (l : str) (ls : list str) :
  ls <> [] -> join_lines (l :: ls) = l ++ LF ++ join_lines ls.
Proof. destruct ls; [congruence | reflexivity]. Qed.

Lemma join_lines_push_front (c : char) (ls : list str) :
  ls <> [] -> join_lines (push_front c ls) = c :: join_lines ls.
Proof.
  destruct ls as [|h [|h' t]]; [congruence | reflexivity | reflexivity].
Qed.

Lemma is_lf_eq (c : char) : is_lf c = true -> c = 10%N.
Proof. apply N.eqb_eq. Qed.

Lemma join_split_lines (s : str) : join_lines (split_lines s) = crlf_to_lf s.
Proof.
  induction s as [| c | c d r IHr IHdr] using str_ind2.
  - reflexivity.
  - simpl. destruct (is_lf c) eqn:E; [apply is_lf_eq in E; subst|]; reflexivity.
  - change (split_lines (c :: d :: r)) with
      (if is_lf c then [] :: split_lines (d :: r)
       else if is_cr c && is_lf d then [] :: split_lines r
       else push_front c (split_lines (d :: r))).
    change (crlf_to_lf (c :: d :: r)) with
      (if is_lf c then c :: crlf_to_lf (d :: r)
       else if is_cr c && is_lf d then d :: crlf_to_lf r
       else c :: crlf_to_lf (d :: r)).
    destruct (is_lf c) eqn:Ec.
    + rewrite join_lines_cons by apply split_lines_nonempty.
      rewrite IHdr. apply is_lf_eq in Ec; subst; reflexivity.
    + destruct (is_cr c && is_lf d) eqn:Ecd.
      * rewrite join_lines_cons by apply split_lines_nonempty.
        rewrite IHr. apply andb_true_iff in Ecd as [_ Ed].
        apply is_lf_eq in Ed; subst; reflexivity.
      * rewrite join_lines_push_front by apply split_lines_nonempty.
        rewrite IHdr; reflexivity.
Qed.

Lemma crlf_to_lf_id (s : str) : has_crlf s = false -> crlf_to_lf s = s.
Proof.
  induction s as [| c | c d r IHr IHdr] using str_ind2; intros H.
  - reflexivity.
  - simpl. destruct (is_lf c); reflexivity.
  - change (has_crlf (c :: d :: r)) with
      (is_cr c && is_lf d || has_crlf (d :: r)) in H.
    apply orb_false_iff in H as [Hcd Hr].
    change (crlf_to_lf (c :: d :: r)) with
      (if is_lf c then c :: crlf_to_lf (d :: r)
       else if is_cr c && is_lf d then d :: crlf_to_lf r
       else c :: crlf_to_lf (d :: r)).
    rewrite Hcd, (IHdr Hr). destruct (is_lf c); reflexivity.
Qed.

Lemma raw_classifyLine (line : str) : raw (classifyLine line) = line.
Proof.
  unfold classifyLine.
  destruct (isBlankLine line); [reflexivity|].
  destruct (isCommentLine line); [reflexivity|].
  destruct (parsedWithKey line); reflexivity.
Qed.

Lemma raw_tokenizeEnvFile (content : str) :
  map raw (tokenizeEnvFile content) = split_lines content.
Proof.
  unfold tokenizeEnvFile. rewrite map_map.
  rewrite (map_ext _ (fun l => l) raw_classifyLine). apply map_id.
Qed.

(** ** Tokenizer round trip *)

(** C3, as the code has it: the raw lines of the tokens of a content, joined
    by a line feed, are the content with every carriage-return line-feed
    pair turned into a line feed; for a content that holds no such pair
    (bare line-feed endings) they are the content itself, with no
    normalization of the final newline needed. *)
Theorem tokenize_join_roundtrip (content : str) :
  join_lines (map raw (tokenizeEnvFile content)) = crlf_to_lf content /\
  (has_crlf content = false ->
   join_lines (map raw (tokenizeEnvFile content)) = content).
Proof.
  rewrite raw_tokenizeEnvFile, join_split_lines. split; [reflexivity|].
  apply crlf_to_lf_id.
Qed.

Lemma tokenize_join_roundtrip_witness :
  has_crlf (lit "A=1" ++ LF ++ lit "# c" ++ LF) = false /\
  join_lines (map raw (tokenizeEnvFile (lit "A=1" ++ LF ++ lit "# c" ++ LF)))
  = lit "A=1" ++ LF ++ lit "# c" ++ LF.
Proof.
  split; [reflexivity|].
  apply (tokenize_join_roundtrip (lit "A=1" ++ LF ++ lit "# c" ++ LF)).
  reflexivity.
Defined.

(** C3 as stated fails on a content with carriage-return line-feed endings:
    the rejoined raw lines differ from the content, and they still differ
    once the final newlines of both are normalized to one. *)
Lemma tokenize_crlf_not_reproduced :
  let content := lit "A=1" ++ CRLF ++ lit "B=2" ++ CRLF in
  let rejoined := join_lines (map raw (tokenizeEnvFile content)) in
  rejoined = lit "A=1" ++ LF ++ lit "B=2" ++ LF /\
  rejoined <> content /\
  replace_trailing_newlines rejoined <> replace_trailing_newlines content.
Proof.
  cbv zeta. split; [reflexivity|]. split; vm_compute; discriminate.
Qed.

(** ** Key indexer *)

Lemma fold_indexStep (tokens : list token) (st : indexState) :
  let st' := fold_left indexStep tokens st in
  entries st' = entries st ++ fst (indexFrom (seen st) (pending st) tokens) /\
  pending st' = snd (indexFrom (seen st) (pending st) tokens).
Proof.
  revert st; induction tokens as [|t ts IH]; intros st; simpl.
  - rewrite app_nil_r; split; reflexivity.
  - destruct t as [r | r | r a]; simpl.
    + apply (IH (mkIndexState (seen st) (entries st) (pending st ++ [r]))).
    + apply (IH (mkIndexState (seen st) (entries st) (pending st ++ [r]))).
    + destruct (has (seen st) (key a)) eqn:Hs; simpl.
      * apply (IH (mkIndexState (seen st) (entries st) [])).
      * destruct (IH (mkIndexState (key a :: seen st)
                        (entries st ++ [mkEntry (key a) (pending st)]) []))
          as [He Hp].
        simpl in He, Hp. rewrite He, Hp.
        destruct (indexFrom (key a :: seen st) [] ts) as [es tr]; simpl.
        rewrite <- app_assoc; split; reflexivity.
Qed.

Lemma buildKeyIndex_indexFrom (tokens : list token) :
  indexEntries (buildKeyIndexWithLeadingComments tokens)
  = fst (indexFrom [] [] tokens) /\
  trailing (buildKeyIndexWithLeadingComments tokens)
  = snd (indexFrom [] [] tokens).
Proof.
  unfold buildKeyIndexWithLeadingComments; simpl.
  apply (fold_indexStep tokens initialIndexState).
Qed.

Lemma filter_filter_implied {A} (f g : A -> bool) (l : list A) :
  (forall x, f x = true -> g x = true) ->
  filter f (filter g l) = filter f l.
Proof.
  intros Hfg; induction l as [|x l IH]; simpl; [reflexivity|].
  destruct (g x) eqn:Eg; simpl.
  - destruct (f x); rewrite IH; reflexivity.
  - destruct (f x) eqn:Ef; [|assumption].
    rewrite (Hfg x Ef) in Eg; discriminate.
Qed.

Lemma filter_filter_and {A} (f g : A -> bool) (l : list A) :
  filter f (filter g l) = filter (fun x => f x && g x) l.
Proof.
  induction l as [|x l IH]; simpl; [reflexivity|].
  destruct (g x); simpl; rewrite ?andb_true_r, ?andb_false_r.
  - destruct (f x); rewrite IH; reflexivity.
  - assumption.
Qed.

#[local] Arguments has s k : simpl never.

Lemma has_cons (s : list str) (k x : str) :
  has (k :: s) x = str_eqb x k || has s x.
Proof. reflexivity. Qed.

Lemma indexFrom_keys (tokens : list token) (seenKeys pend : list str) :
  map entryKey (fst (indexFrom seenKeys pend tokens))
  = filter (fun k => negb (has seenKeys k)) (firstOccurrences (assignmentKeys tokens)).
Proof.
  revert seenKeys pend; induction tokens as [|t ts IH]; intros seenKeys pend.
  - reflexivity.
  - destruct t as [r | r | r a]; simpl; try apply IH.
    destruct (has seenKeys (key a)) eqn:Hs; simpl.
    + rewrite IH. symmetry; apply filter_filter_implied.
      intros x Hx. destruct (str_eqb x (key a)) eqn:E; [|reflexivity].
      apply str_eqb_eq in E; subst. rewrite Hs in Hx; discriminate.
    + specialize (IH (key a :: seenKeys) []).
      destruct (indexFrom (key a :: seenKeys) [] ts) as [es tr]; simpl in *.
      rewrite IH. f_equal. rewrite filter_filter_and.
      apply filter_ext; intros x. rewrite has_cons, negb_orb.
      apply andb_comm.
Qed.

Lemma firstOccurrences_In (ks : list str) (k : str) :
  In k (firstOccurrences ks) <-> In k ks.
Proof.
  induction ks as [|x ks IH]; simpl; [reflexivity|].
  rewrite filter_In, IH. split.
  - intros [H | [H _]]; auto.
  - intros [H | H]; [left; assumption|].
    destruct (str_eqb k x) eqn:E.
    + left; apply str_eqb_eq in E; congruence.
    + right; split; [assumption | reflexivity].
Qed.

Lemma firstOccurrences_NoDup (ks : list str) : NoDup (firstOccurrences ks).
Proof.
  induction ks as [|x ks IH]; simpl; constructor.
  - rewrite filter_In. intros [_ H]. rewrite str_eqb_refl in H; discriminate.
  - apply NoDup_filter; assumption.
Qed.

Lemma attachedRun_all (pre : list token) :
  forallb notAssignment pre = true -> attachedRun pre = map raw pre.
Proof.
  destruct pre as [|t r]; [reflexivity|].
  intros H. unfold attachedRun; fold attachedRun. rewrite H; reflexivity.
Qed.

Lemma indexFrom_attached (pre post : list token) (r : str) (a : assignment) :
  forall seenKeys pend,
  ~ In (key a) (assignmentKeys pre) ->
  has seenKeys (key a) = false ->
  In (mkEntry (key a)
        (if forallb notAssignment pre then pend ++ map raw pre else attachedRun pre))
     (fst (indexFrom seenKeys pend (pre ++ Assignment r a :: post))).
Proof.
  induction pre as [|t pre IH]; intros seenKeys pend Hk Hs.
  - simpl. rewrite Hs, app_nil_r.
    destruct (indexFrom (key a :: seenKeys) [] post); left; reflexivity.
  - destruct t as [r0 | r0 | r0 a0].
    + specialize (IH seenKeys (pend ++ [r0]) Hk Hs).
      rewrite <- app_assoc in IH.
      change (forallb notAssignment (Blank r0 :: pre)) with (forallb notAssignment pre).
      change (attachedRun (Blank r0 :: pre)) with
        (if forallb notAssignment pre then map raw (Blank r0 :: pre) else attachedRun pre).
      destruct (forallb notAssignment pre); exact IH.
    + specialize (IH seenKeys (pend ++ [r0]) Hk Hs).
      rewrite <- app_assoc in IH.
      change (forallb notAssignment (Comment r0 :: pre)) with (forallb notAssignment pre).
      change (attachedRun (Comment r0 :: pre)) with
        (if forallb notAssignment pre then map raw (Comment r0 :: pre) else attachedRun pre).
      destruct (forallb notAssignment pre); exact IH.
    + simpl in Hk.
      assert (Hne : str_eqb (key a) (key a0) = false).
      { destruct (str_eqb (key a) (key a0)) eqn:E; [|reflexivity].
        apply str_eqb_eq in E. exfalso; apply Hk; left; congruence. }
      assert (Hk' : ~ In (key a) (assignmentKeys pre)) by tauto.
      change (forallb notAssignment (Assignment r0 a0 :: pre)) with false.
      change (attachedRun (Assignment r0 a0 :: pre)) with (attachedRun pre).
      assert (Hgoal : forall sk, has sk (key a) = false ->
                In (mkEntry (key a) (attachedRun pre))
                   (fst (indexFrom sk [] (pre ++ Assignment r a :: post)))).
      { intros sk Hsk. specialize (IH sk [] Hk' Hsk). simpl in IH.
        destruct (forallb notAssignment pre) eqn:Ef; [|exact IH].
        rewrite attachedRun_all by assumption. exact IH. }
      simpl. destruct (has seenKeys (key a0)) eqn:Hs0.
      * apply Hgoal; assumption.
      * assert (Hsk : has (key a0 :: seenKeys) (key a) = false)
          by (rewrite has_cons, Hne, Hs; reflexivity).
        specialize (Hgoal _ Hsk).
        destruct (indexFrom (key a0 :: seenKeys) [] (pre ++ Assignment r a :: post)).
        right; exact Hgoal.
Qed.

(** One step of the indexer on an assignment token whose key is already in
    the set of seen keys: no entry is pushed, the set is left as it is and
    the pending accumulator is emptied. *)
Lemma indexStep_seen_key (st : indexState) (r : str) (a : assignment) :
  has (seen st) (key a) = true ->
  indexStep st (Assignment r a) = mkIndexState (seen st) (entries st) [].
Proof. intros H; simpl; rewrite H; reflexivity. Qed.

(** C8 as stated fails: in the tokens of [A=1], [# c], [A=2], [B=3] the
    duplicate [A=2] is met with [# c] pending; the accumulator is empty after
    it, and [B] is indexed with no comment instead of [# c]. *)
Lemma duplicate_does_not_keep_pending :
  let tokens := tokenizeEnvFile
    (lit "A=1" ++ LF ++ lit "# c" ++ LF ++ lit "A=2" ++ LF ++ lit "B=3") in
  let before := fold_left indexStep (firstn 2 tokens) initialIndexState in
  let dup := nth 2 tokens (Blank []) in
  isAssignment dup = true /\
  has (seen before) (lit "A") = true /\
  pending before = [lit "# c"] /\
  pending (indexStep before dup) = [] /\
  pending (indexStep before dup) <> pending before /\
  indexEntries (buildKeyIndexWithLeadingComments tokens)
  = [mkEntry (lit "A") []; mkEntry (lit "B") []].
Proof.
  cbv zeta. repeat split; try reflexivity. vm_compute; discriminate.
Qed.

(** ** Multi-source merger *)

Lemma fold_mergeStep (es : list entry) (seenKeys : list str) (merged : list entry) :
  NoDup (map entryKey es) ->
  snd (fold_left mergeStep es (seenKeys, merged))
  = merged ++ filter (fun e => negb (has seenKeys (entryKey e))) es.
Proof.
  revert seenKeys merged; induction es as [|e es IH]; intros seenKeys merged Hnd.
  - simpl; rewrite app_nil_r; reflexivity.
  - inversion Hnd as [|x l Hnotin Hnd']; subst.
    simpl. destruct (has seenKeys (entryKey e)) eqn:Hs; simpl.
    + apply IH; assumption.
    + rewrite IH by assumption. rewrite <- app_assoc. simpl. do 2 f_equal.
      apply filter_ext_in. intros e' Hin. rewrite has_cons.
      destruct (str_eqb (entryKey e') (entryKey e)) eqn:E; [|reflexivity].
      apply str_eqb_eq in E. exfalso; apply Hnotin.
      rewrite <- E. apply in_map; assumption.
Qed.

Lemma map_filter_key (f : str -> bool) (es : list entry) :
  map entryKey (filter (fun e => f (entryKey e)) es) = filter f (map entryKey es).
Proof.
  induction es as [|e es IH]; simpl; [reflexivity|].
  destruct (f (entryKey e)); simpl; rewrite IH; reflexivity.
Qed.

Lemma filter_all_true {A} (f : A -> bool) (l : list A) :
  (forall x, f x = true) -> filter f l = l.
Proof.
  intros H; induction l as [|x l IH]; simpl; [reflexivity|].
  rewrite H, IH; reflexivity.
Qed.

Lemma buildKeyIndex_keys (tokens : list token) :
  map entryKey (indexEntries (buildKeyIndexWithLeadingComments tokens))
  = firstOccurrences (assignmentKeys tokens).
Proof.
  destruct (buildKeyIndex_indexFrom tokens) as [-> _].
  rewrite indexFrom_keys. apply filter_all_true; reflexivity.
Qed.

Lemma has_ext (s1 s2 : list str) (k : str) :
  (In k s1 <-> In k s2) -> has s1 k = has s2 k.
Proof.
  intros H. destruct (has s2 k) eqn:E.
  - apply has_In, H, has_In; assumption.
  - apply has_false_In. intros Hin. apply H, has_In in Hin. congruence.
Qed.

Lemma orderedEntries_eq (primaryTokens secondaryTokens : list token) :
  orderedEntries (uniqueKeyOrderFromTokens primaryTokens secondaryTokens)
  = indexEntries (buildKeyIndexWithLeadingComments primaryTokens)
    ++ filter (fun e => negb (has (assignmentKeys primaryTokens) (entryKey e)))
         (indexEntries (buildKeyIndexWithLeadingComments secondaryTokens)).
Proof.
  unfold uniqueKeyOrderFromTokens; cbn [orderedEntries].
  rewrite fold_mergeStep.
  - f_equal. apply filter_ext; intros e. f_equal.
    apply has_ext. rewrite buildKeyIndex_keys. apply firstOccurrences_In.
  - rewrite buildKeyIndex_keys. apply firstOccurrences_NoDup.
Qed.

Lemma orderedEntries_keys (primaryTokens secondaryTokens : list token) :
  map entryKey (orderedEntries (uniqueKeyOrderFromTokens primaryTokens secondaryTokens))
  = firstOccurrences (assignmentKeys primaryTokens)
    ++ filter (fun k => negb (has (assignmentKeys primaryTokens) k))
         (firstOccurrences (assignmentKeys secondaryTokens)).
Proof.
  rewrite orderedEntries_eq, map_app, !buildKeyIndex_keys.
  f_equal.
  rewrite (map_filter_key (fun k => negb (has (assignmentKeys primaryTokens) k))).
  rewrite buildKeyIndex_keys; reflexivity.
Qed.

Lemma orderedEntries_NoDup (primaryTokens secondaryTokens : list token) :
  NoDup (map entryKey (orderedEntries (uniqueKeyOrderFromTokens primaryTokens secondaryTokens))).
Proof.
  rewrite orderedEntries_keys.
  apply NoDup_app.
  - apply firstOccurrences_NoDup.
  - apply NoDup_filter, firstOccurrences_NoDup.
  - intros k Hp Hs. apply filter_In in Hs as [_ Hs].
    apply (proj1 (firstOccurrences_In _ _)) in Hp.
    apply (proj2 (has_In _ _)) in Hp. rewrite Hp in Hs; discriminate.
Qed.

Lemma buildKeyIndex_attached (pre post : list token) (r : str) (a : assignment) :
  ~ In (key a) (assignmentKeys pre) ->
  In (mkEntry (key a) (attachedRun pre))
     (indexEntries (buildKeyIndexWithLeadingComments (pre ++ Assignment r a :: post))).
Proof.
  intros Hk.
  destruct (buildKeyIndex_indexFrom (pre ++ Assignment r a :: post)) as [-> _].
  pose proof (@indexFrom_attached pre post r a [] [] Hk eq_refl) as H.
  simpl in H. destruct (forallb notAssignment pre) eqn:Ef; [|exact H].
  rewrite attachedRun_all by assumption. exact H.
Qed.

(** C4: the merged list holds each key once; its keys are the keys of the
    primary tokens in the order of their first occurrences, followed by the
    keys of the secondary tokens that the primary does not have, in the order
    of their first occurrences; a key is in it exactly when one of the two
    sources assigns it; and the entry of a key carries the comment and blank
    lines immediately above its first occurrence, in the primary if the
    primary assigns it and in the secondary otherwise. *)
Theorem uniqueKeyOrder_merged_list (primaryTokens secondaryTokens : list token) :
  let merged := orderedEntries (uniqueKeyOrderFromTokens primaryTokens secondaryTokens) in
  NoDup (map entryKey merged) /\
  map entryKey merged
  = firstOccurrences (assignmentKeys primaryTokens)
    ++ filter (fun k => negb (has (assignmentKeys primaryTokens) k))
         (firstOccurrences (assignmentKeys secondaryTokens)) /\
  (forall k, In k (map entryKey merged) <->
             In k (assignmentKeys primaryTokens) \/ In k (assignmentKeys secondaryTokens)) /\
  (forall pre r a post,
     primaryTokens = pre ++ Assignment r a :: post ->
     ~ In (key a) (assignmentKeys pre) ->
     In (mkEntry (key a) (attachedRun pre)) merged) /\
  (forall pre r a post,
     secondaryTokens = pre ++ Assignment r a :: post ->
     ~ In (key a) (assignmentKeys pre) ->
     ~ In (key a) (assignmentKeys primaryTokens) ->
     In (mkEntry (key a) (attachedRun pre)) merged).
Proof.
  cbv zeta. split; [apply orderedEntries_NoDup|].
  split; [apply orderedEntries_keys|].
  split; [|split].
  - intros k. rewrite orderedEntries_keys, in_app_iff, filter_In.
    rewrite !firstOccurrences_In. split.
    + intros [H | [H _]]; auto.
    + intros [H | H]; [left; assumption|].
      destruct (has (assignmentKeys primaryTokens) k) eqn:E.
      * left; apply has_In; assumption.
      * right; split; [assumption | reflexivity].
  - intros pre r a post -> Hk. rewrite orderedEntries_eq.
    apply in_or_app; left. apply buildKeyIndex_attached; assumption.
  - intros pre r a post -> Hk Hp. rewrite orderedEntries_eq.
    apply in_or_app; right. apply filter_In. split.
    + apply buildKeyIndex_attached; assumption.
    + simpl. apply has_false_In in Hp. rewrite Hp; reflexivity.
Qed.

(** The scenario of C4: primary keys [a, b, c] (with a comment above [b]
    and a second [a]) merged with secondary keys [b, d, a, e] (each [b] and
    [d] under a comment) give [a, b, c, d, e]; [b] keeps the comment of the
    primary and [d] the comment above it in the secondary. *)
Lemma uniqueKeyOrder_merged_list_witness :
  let primaryTokens := tokenizeEnvFile
    (lit "a=1" ++ LF ++ lit "# about b" ++ LF ++ lit "b=2" ++ LF ++ lit "a=9"
     ++ LF ++ lit "c=3") in
  let secondaryTokens := tokenizeEnvFile
    (lit "# other b" ++ LF ++ lit "b=5" ++ LF ++ lit "# about d" ++ LF
     ++ lit "d=6" ++ LF ++ lit "a=7" ++ LF ++ lit "e=8") in
  let merged := orderedEntries (uniqueKeyOrderFromTokens primaryTokens secondaryTokens) in
  map entryKey merged = [lit "a"; lit "b"; lit "c"; lit "d"; lit "e"] /\
  In (mkEntry (lit "b") [lit "# about b"]) merged /\
  In (mkEntry (lit "d") [lit "# about d"]) merged.
Proof.
  cbv zeta.
  set (primaryTokens := tokenizeEnvFile _).
  set (secondaryTokens := tokenizeEnvFile _).
  destruct (uniqueKeyOrder_merged_list primaryTokens secondaryTokens)
    as (_ & Hkeys & _ & Hp & Hs).
  split; [rewrite Hkeys; reflexivity|]. split.
  - apply (Hp (firstn 2 primaryTokens) (lit "b=2")
              (mkAssignment (lit "b") (lit "b") (lit "2"))
              (skipn 3 primaryTokens)).
    + reflexivity.
    + vm_compute. intros [H | H]; [discriminate H | exact H].
  - apply (Hs (firstn 3 secondaryTokens) (lit "d=6")
              (mkAssignment (lit "d") (lit "d") (lit "6"))
              (skipn 4 secondaryTokens)).
    + reflexivity.
    + vm_compute. intros [H | H]; [discriminate H | exact H].
    + vm_compute. intros H.
      repeat (destruct H as [H | H]; [discriminate H|]). exact H.
Defined.

(** ** The value of an assignment does not reach the output *)

Lemma indexStep_withoutValue (st : indexState) (t : token) :
  indexStep st (withoutValue t) = indexStep st t.
Proof. destruct t; reflexivity. Qed.

Lemma fold_left_map_in {A B C} (f : A -> B -> A) (g : C -> B) (l : list C) (a : A) :
  fold_left f (map g l) a = fold_left (fun x c => f x (g c)) l a.
Proof. revert a; induction l as [|c l IH]; intros a; simpl; auto. Qed.

Lemma fold_left_ext_fun {A B} (f g : A -> B -> A) (l : list B) (a : A) :
  (forall x y, f x y = g x y) -> fold_left f l a = fold_left g l a.
Proof.
  intros H; revert a; induction l as [|b l IH]; intros a; simpl; [reflexivity|].
  rewrite H; apply IH.
Qed.

Lemma buildKeyIndex_withoutValue (tokens : list token) :
  buildKeyIndexWithLeadingComments (map withoutValue tokens)
  = buildKeyIndexWithLeadingComments tokens.
Proof.
  unfold buildKeyIndexWithLeadingComments.
  rewrite fold_left_map_in.
  rewrite (fold_left_ext_fun _ indexStep tokens initialIndexState indexStep_withoutValue).
  reflexivity.
Qed.

Lemma uniqueKeyOrder_withoutValue (primaryTokens secondaryTokens : list token) :
  uniqueKeyOrderFromTokens (map withoutValue primaryTokens)
                           (map withoutValue secondaryTokens)
  = uniqueKeyOrderFromTokens primaryTokens secondaryTokens.
Proof.
  unfold uniqueKeyOrderFromTokens. rewrite !buildKeyIndex_withoutValue. reflexivity.
Qed.

Lemma leadingBlock_withoutValue (tokens : list token) :
  leadingBlock (map withoutValue tokens) = leadingBlock tokens.
Proof.
  induction tokens as [|t ts IH]; [reflexivity|].
  destruct t; simpl; rewrite ?IH; reflexivity.
Qed.

Lemma uniqueKeyOrder_same_keys (p p' s s' : list token) :
  map withoutValue p = map withoutValue p' ->
  map withoutValue s = map withoutValue s' ->
  uniqueKeyOrderFromTokens p s = uniqueKeyOrderFromTokens p' s'.
Proof.
  intros Hp Hs.
  rewrite <- (uniqueKeyOrder_withoutValue p s), Hp, Hs.
  apply uniqueKeyOrder_withoutValue.
Qed.

Lemma emitEntry_keeps (leading : list str) (es : list entry) (st : list str * bool) (x : str) :
  In x (fst st) -> In x (fst (fold_left (emitEntry leading) es st)).
Proof.
  revert st; induction es as [|e es IH]; intros [lines b] Hin; [exact Hin|].
  simpl fold_left. apply IH. unfold emitEntry. simpl fst in *.
  apply in_or_app; left.
  destruct (nonEmpty (commentsBefore e)); [|exact Hin].
  destruct (negb b && nonEmpty leading);
    [destruct (sameLines leading (commentsBefore e)); [exact Hin|]|];
    apply in_or_app; left; exact Hin.
Qed.

Lemma emitEntry_emits (leading : list str) (es : list entry) (st : list str * bool) (e : entry) :
  In e es -> In (entryKey e ++ lit "=") (fst (fold_left (emitEntry leading) es st)).
Proof.
  revert st; induction es as [|e0 es IH]; intros st Hin; [contradiction|].
  simpl fold_left. destruct Hin as [-> | Hin]; [|apply IH; exact Hin].
  apply emitEntry_keeps. destruct st as [lines b]. unfold emitEntry. simpl fst.
  apply in_or_app; right; left; reflexivity.
Qed.

Lemma fold_appendEntry (es : list entry) (lines : list str) :
  fold_left appendEntry es lines = lines ++ appendedBlock es.
Proof.
  revert lines; induction es as [|e es IH]; intros lines; simpl.
  - rewrite app_nil_r; reflexivity.
  - rewrite IH. unfold appendEntry.
    destruct (commentsBefore e) as [|c cs]; simpl; rewrite <- !app_assoc; reflexivity.
Qed.

(** ** Changing the value of an assignment line *)

(** Rewrite with a fact once the names [str] and [char] are unfolded on
    both sides. *)
Ltac rewrite_plain H :=
  let h := fresh "h" in
  pose proof H as h; unfold str, char in h |- *; rewrite h; clear h.

Lemma drop_space_app_space (ws x : str) :
  forallb is_space ws = true -> drop_space (ws ++ x) = drop_space x.
Proof.
  induction ws as [|c ws IH]; [reflexivity|]. simpl.
  intros H. apply andb_true_iff in H as [Hc Hws]. rewrite Hc. apply IH; exact Hws.
Qed.

Lemma drop_space_fixed (c : char) (t : str) :
  is_space c = false -> drop_space (c :: t) = c :: t.
Proof. intros H. simpl. rewrite H. reflexivity. Qed.

Lemma drop_space_export (x : str) :
  drop_space (lit "export" ++ x) = lit "export" ++ x.
Proof. reflexivity. Qed.

Lemma drop_space_head (s : str) (c : char) (t : str) :
  drop_space s = c :: t -> is_space c = false.
Proof.
  induction s as [|x s IH]; [discriminate|]. simpl.
  destruct (is_space x) eqn:Hx; [exact IH|].
  intros E; injection E as <- _. exact Hx.
Qed.

Lemma drop_space_before_equals (rk v : str) :
  drop_space (rk ++ 61%N :: v) = drop_space rk ++ 61%N :: v.
Proof.
  induction rk as [|c rk IH]; [reflexivity|]. simpl.
  destruct (is_space c); [exact IH | reflexivity].
Qed.

Lemma strip_literal_sound (p s r : str) :
  strip_literal p s = Some r -> s = p ++ r.
Proof.
  revert s; induction p as [|x p IH]; intros s.
  - simpl. intros E; injection E as ->; reflexivity.
  - destruct s as [|y s]; [discriminate|]. simpl.
    destruct (N.eqb x y) eqn:E; [|discriminate].
    apply N.eqb_eq in E; subst. intros H. rewrite (IH s H). reflexivity.
Qed.

Lemma strip_literal_app (p r : str) : strip_literal p (p ++ r) = Some r.
Proof.
  induction p as [|x p IH]; [reflexivity|]. simpl. rewrite N.eqb_refl. exact IH.
Qed.

(** Whether [/^\s*export\s+/] matches is decided before the first equals
    sign, which is neither white space nor a letter of [export]. *)
Lemma strip_literal_before_equals (p : str) :
  forallb (fun x => negb (N.eqb x 61)) p = true ->
  forall b v v',
    match strip_literal p (b ++ 61%N :: v) with
    | Some (c :: _) => is_space c
    | _ => false
    end
    = match strip_literal p (b ++ 61%N :: v') with
      | Some (c :: _) => is_space c
      | _ => false
      end.
Proof.
  induction p as [|x p IH]; intros Hp b v v'.
  - destruct b; reflexivity.
  - simpl in Hp. apply andb_true_iff in Hp as [Hx Hp].
    destruct b as [|y b]; simpl.
    + apply negb_true_iff in Hx. rewrite Hx. reflexivity.
    + destruct (N.eqb x y); [apply IH; exact Hp | reflexivity].
Qed.

Lemma stripExportPrefix_value (line rk v : str) :
  stripExportPrefix line = rk ++ 61%N :: v ->
  exists p, line = p ++ rk ++ 61%N :: v /\
    forall v', stripExportPrefix (p ++ rk ++ 61%N :: v') = rk ++ 61%N :: v'.
Proof.
  unfold stripExportPrefix.
  destruct (strip_literal (lit "export") (drop_space line)) as [[|c r]|] eqn:Es.
  - intros ->. exists []. split; [reflexivity|]. intros v'. simpl app.
    pose proof (strip_literal_before_equals (lit "export") eq_refl
                  (drop_space rk) v v') as H.
    rewrite <- !drop_space_before_equals, Es in H.
    destruct (strip_literal (lit "export") (drop_space (rk ++ 61%N :: v')))
      as [[|c r]|]; try reflexivity.
    rewrite <- H. reflexivity.
  - destruct (is_space c) eqn:Hc.
    + intros Hr.
      destruct (drop_space_decompose line) as [ws [El Hws]].
      apply strip_literal_sound in Es.
      destruct (drop_space_decompose r) as [ws2 [Er Hws2]].
      rewrite Hr in Er.
      exists (ws ++ lit "export" ++ c :: ws2). split.
      * rewrite El at 1. rewrite Es, Er. rewrite <- !app_assoc. reflexivity.
      * intros v'. rewrite <- !app_assoc.
        rewrite (drop_space_app_space ws _ Hws).
        change ((c :: ws2) ++ rk ++ 61%N :: v') with (c :: ws2 ++ rk ++ 61%N :: v').
        rewrite drop_space_export, strip_literal_app, Hc.
        rewrite (drop_space_app_space ws2 _ Hws2).
        destruct rk as [|k rk].
        -- reflexivity.
        -- apply drop_space_fixed. apply (drop_space_head r k (rk ++ 61%N :: v)).
           exact Hr.
    + intros ->. exists []. split; [reflexivity|]. intros v'. simpl app.
      pose proof (strip_literal_before_equals (lit "export") eq_refl
                    (drop_space rk) v v') as H.
      rewrite <- !drop_space_before_equals, Es, Hc in H.
      destruct (strip_literal (lit "export") (drop_space (rk ++ 61%N :: v')))
        as [[|c' r']|]; try reflexivity.
      rewrite <- H. reflexivity.
  - intros ->. exists []. split; [reflexivity|]. intros v'. simpl app.
    pose proof (strip_literal_before_equals (lit "export") eq_refl
                  (drop_space rk) v v') as H.
    rewrite <- !drop_space_before_equals, Es in H.
    destruct (strip_literal (lit "export") (drop_space (rk ++ 61%N :: v')))
      as [[|c r]|]; try reflexivity.
    rewrite <- H. reflexivity.
Qed.

(** The scan for the first unquoted equals sign reads nothing after it. *)
Lemma scanEquals_value (w : str) :
  forall inSingle inDouble i idx,
  scanEquals inSingle inDouble i w = Some idx ->
  exists rk rv, w = rk ++ 61%N :: rv /\ idx = i + List.length rk /\
    forall v, scanEquals inSingle inDouble i (rk ++ 61%N :: v) = Some idx.
Proof.
  induction w as [|ch w IH]; intros inSingle inDouble i idx; [discriminate|].
  simpl.
  destruct (N.eqb ch 39 && negb inDouble) eqn:E1.
  - intros H. destruct (IH _ _ _ _ H) as (rk & rv & -> & -> & Hv).
    exists (ch :: rk), rv. split; [reflexivity|]. split; [simpl; lia|].
    intros v. simpl. rewrite E1. apply Hv.
  - destruct (N.eqb ch 34 && negb inSingle) eqn:E2.
    + intros H. destruct (IH _ _ _ _ H) as (rk & rv & -> & -> & Hv).
      exists (ch :: rk), rv. split; [reflexivity|]. split; [simpl; lia|].
      intros v. simpl. rewrite E1, E2. apply Hv.
    + destruct (N.eqb ch 61 && negb inSingle && negb inDouble) eqn:E3.
      * intros H; injection H as <-.
        apply andb_true_iff in E3 as [E3 Hd]. apply andb_true_iff in E3 as [E3 Hs].
        apply N.eqb_eq in E3; subst ch.
        exists [], w. split; [reflexivity|]. split; [simpl; lia|].
        intros v. simpl. rewrite Hs, Hd. reflexivity.
      * intros H. destruct (IH _ _ _ _ H) as (rk & rv & -> & -> & Hv).
        exists (ch :: rk), rv. split; [reflexivity|]. split; [simpl; lia|].
        intros v. simpl. rewrite E1, E2, E3. apply Hv.
Qed.

Lemma firstn_skipn_at_equals (rk v : str) :
  firstn (0 + List.length rk) (rk ++ 61%N :: v) = rk /\
  skipn (0 + List.length rk + 1) (rk ++ 61%N :: v) = v.
Proof.
  simpl. split.
  - rewrite firstn_app, firstn_all, Nat.sub_diag. simpl. apply app_nil_r.
  - induction rk as [|c rk IH]; [reflexivity | exact IH].
Qed.

Lemma isCommentLine_before_equals (pre v v' : str) :
  isCommentLine (pre ++ 61%N :: v) = isCommentLine (pre ++ 61%N :: v').
Proof.
  induction pre as [|c pre IH]; [reflexivity|]. simpl.
  destruct (is_space c); [exact IH | reflexivity].
Qed.

Lemma isBlankLine_with_equals (pre v : str) : isBlankLine (pre ++ 61%N :: v) = false.
Proof.
  unfold isBlankLine. rewrite forallb_app. simpl. apply andb_false_r.
Qed.

(** A line that the tokenizer reads as an assignment is some text, an equals
    sign and the raw value; with any other text in place of the raw value
    the line is still read as an assignment, of the same key. *)
Lemma classifyLine_value_change (line : str) (a : assignment) :
  classifyLine line = Assignment line a ->
  exists pre, line = pre ++ 61%N :: rawValue a /\
    forall v, classifyLine (pre ++ 61%N :: v)
              = Assignment (pre ++ 61%N :: v) (mkAssignment (key a) (rawKey a) v).
Proof.
  unfold classifyLine.
  destruct (isBlankLine line) eqn:Hb; [discriminate|].
  destruct (isCommentLine line) eqn:Hc; [discriminate|].
  destruct (parsedWithKey line) as [a'|] eqn:Hp; [|discriminate].
  intros E; injection E as ->.
  unfold parsedWithKey in Hp.
  destruct (parseAssignment line) as [a'|] eqn:Hpa; [|discriminate].
  destruct (key a') as [|k0 ks] eqn:Hk; [discriminate|]. injection Hp as ->.
  unfold parseAssignment, findUnquotedEqualsIndex in Hpa.
  destruct (scanEquals false false 0 (stripExportPrefix line)) as [idx|] eqn:Hs;
    [|discriminate].
  destruct (scanEquals_value _ _ _ _ _ Hs) as (rk & rv & Ew & -> & Hv).
  destruct (stripExportPrefix_value line rk rv Ew) as (p & El & Hstrip).
  rewrite Ew in Hpa.
  destruct (firstn_skipn_at_equals rk rv) as [Hf Hsk].
  unfold str, char in *.
  rewrite Hf, Hsk in Hpa. injection Hpa as <-. cbn [key rawKey rawValue] in Hk |- *.
  exists (p ++ rk). split; [rewrite <- app_assoc; exact El|].
  intros v.
  rewrite_plain (isBlankLine_with_equals (p ++ rk) v).
  rewrite_plain (isCommentLine_before_equals (p ++ rk) v rv).
  replace ((p ++ rk) ++ 61%N :: rv) with line
    by (rewrite <- app_assoc; exact El).
  rewrite Hc.
  unfold parsedWithKey, parseAssignment, findUnquotedEqualsIndex.
  rewrite <- app_assoc.
  rewrite_plain (Hstrip v). rewrite_plain (Hv v).
  destruct (firstn_skipn_at_equals rk v) as [Hf' Hsk'].
  unfold str, char in *.
  rewrite Hf', Hsk'. cbn [key rawKey rawValue]. rewrite Hk. reflexivity.
Qed.

Lemma tokensOfSource_lines (content : str) (before after : list str) (pre v : str) :
  split_lines content = before ++ (pre ++ 61%N :: v) :: after ->
  tokensOfSource content = map classifyLine (split_lines content).
Proof.
  destruct content as [|c content]; [|reflexivity].
  destruct before as [|b before]; simpl; intros E.
  - injection E as E _. destruct pre; discriminate.
  - injection E as _ E. destruct before; discriminate.
Qed.

(** Two sources of which the second is the first with another text in place
    of the raw value of one assignment line have the same tokens once the
    values are blanked out. *)
Lemma tokens_value_change
  (content content' : str) (before after : list str) (pre v' : str) (a : assignment) :
  split_lines content = before ++ (pre ++ 61%N :: rawValue a) :: after ->
  classifyLine (pre ++ 61%N :: rawValue a)
  = Assignment (pre ++ 61%N :: rawValue a) a ->
  split_lines content' = before ++ (pre ++ 61%N :: v') :: after ->
  map withoutValue (tokensOfSource content)
  = map withoutValue (tokensOfSource content').
Proof.
  intros Hl Hc Hl'.
  rewrite (tokensOfSource_lines content before after pre (rawValue a) Hl).
  rewrite (tokensOfSource_lines content' before after pre v' Hl').
  rewrite Hl, Hl', !map_app. cbn [map]. rewrite Hc.
  destruct (classifyLine_value_change _ a Hc) as (pre0 & E & Hv).
  apply app_inv_tail in E. subst pre0. rewrite_plain (Hv v'). reflexivity.
Qed.

(** C1, as the code has it.  Two pairs of sources whose token lists agree
    once the value of every assignment is blanked out (the sources differ in
    raw values only) give the same output, from the builder and, for any
    existing template and clock, from the patcher; and each key of the merged
    list is emitted by the builder as the line [KEY=], each missing key by
    the patcher as the line [KEY=], with nothing after the equals sign. *)
Theorem output_independent_of_values
  (envContent envLocalContent envContent' envLocalContent' : str) :
  map withoutValue (tokensOfSource envContent)
  = map withoutValue (tokensOfSource envContent') ->
  map withoutValue (tokensOfSource envLocalContent)
  = map withoutValue (tokensOfSource envLocalContent') ->
  buildExampleFromScratch envContent envLocalContent
  = buildExampleFromScratch envContent' envLocalContent' /\
  (forall now exampleContent,
     appendMissingKeysToExample now exampleContent envContent envLocalContent
     = appendMissingKeysToExample now exampleContent envContent' envLocalContent') /\
  (forall e,
     In e (orderedEntries (uniqueKeyOrderFromTokens (tokensOfSource envContent)
                                                    (tokensOfSource envLocalContent))) ->
     In (entryKey e ++ lit "=") (buildExampleLines envContent envLocalContent)) /\
  (forall now exampleContent e,
     In e (missingEntries exampleContent envContent envLocalContent) ->
     In (entryKey e ++ lit "=")
        (appendMissingLines now exampleContent envContent envLocalContent)).
Proof.
  intros Henv Hlocal.
  pose proof (uniqueKeyOrder_same_keys _ _ _ _ Henv Hlocal) as Hm.
  assert (Hlead : leadingBlock (tokensOfSource envContent)
                  = leadingBlock (tokensOfSource envContent')).
  { rewrite <- (leadingBlock_withoutValue (tokensOfSource envContent)), Henv.
    apply leadingBlock_withoutValue. }
  assert (Hmiss : forall ex, missingEntries ex envContent envLocalContent
                             = missingEntries ex envContent' envLocalContent').
  { intros ex; unfold missingEntries; rewrite Hm; reflexivity. }
  split; [|split; [|split]].
  - unfold buildExampleFromScratch, buildExampleLines.
    rewrite Hm, Hlead. reflexivity.
  - intros now ex. unfold appendMissingKeysToExample, appendMissingLines.
    rewrite Hmiss. reflexivity.
  - intros e Hin. unfold buildExampleLines.
    set (m := uniqueKeyOrderFromTokens _ _) in *.
    set (lines1 := fst (fold_left _ _ _)).
    assert (H1 : In (entryKey e ++ lit "=") lines1)
      by (apply emitEntry_emits; exact Hin).
    destruct (nonEmpty (if nonEmpty (trailingPrimary m) then trailingPrimary m
                        else trailingSecondary m));
      [apply in_or_app; left|]; exact H1.
  - intros now ex e Hin. unfold appendMissingLines.
    rewrite fold_appendEntry. apply in_or_app; right.
    unfold appendedBlock. apply in_flat_map. exists e; split; [exact Hin|].
    apply in_or_app; right; left; reflexivity.
Qed.

Lemma output_independent_of_values_witness :
  buildExampleFromScratch
    (lit "# keys" ++ LF ++ lit "export TOKEN='a=b'" ++ LF ++ lit "PORT=80")
    (lit "DEBUG=1")
  = buildExampleFromScratch
      (lit "# keys" ++ LF ++ lit "export TOKEN=other" ++ LF ++ lit "PORT=")
      (lit "DEBUG=").
Proof.
  refine (proj1 (output_independent_of_values
                   (lit "# keys" ++ LF ++ lit "export TOKEN='a=b'" ++ LF ++ lit "PORT=80")
                   (lit "DEBUG=1")
                   (lit "# keys" ++ LF ++ lit "export TOKEN=other" ++ LF ++ lit "PORT=")
                   (lit "DEBUG=") _ _)); vm_compute; reflexivity.
Defined.

(** C1 as stated fails: the value of an assignment of the source can be in
    the output of the builder and of the patcher, because the comment lines
    of the source are copied as they are. *)
Lemma source_value_in_output :
  let env := lit "# default: hunter2" ++ LF ++ lit "PASSWORD=hunter2" in
  let now := mkDate 2024 0 5 9 3 7 in
  In (Assignment (lit "PASSWORD=hunter2")
        (mkAssignment (lit "PASSWORD") (lit "PASSWORD") (lit "hunter2")))
     (tokenizeEnvFile env) /\
  buildExampleFromScratch env []
  = lit "# default: hunter2" ++ LF ++ lit "PASSWORD=" ++ LF /\
  includes (buildExampleFromScratch env []) (lit "hunter2") = true /\
  includes (appendMissingKeysToExample now (lit "A=" ++ LF) env []) (lit "hunter2") = true.
Proof.
  cbv zeta. split; [right; left; reflexivity|].
  split; [reflexivity|]. split; vm_compute; reflexivity.
Qed.

(** ** Scenarios on which the code departs from the specification *)

(** C6: on the fresh-build scenario ([.env] is [A=1], [# db config], [B=2],
    each line ended by a line feed; no [.env.local]) the builder returns
    [A=], [# db config], [B=] followed by an empty line: the empty last piece
    of the split source is indexed as a trailing blank token and pushed
    before the final line feed is added, so the result ends with two line
    feeds and is not the expected text. *)
Theorem fresh_build_scenario_two_newlines :
  let env := lit "A=1" ++ LF ++ lit "# db config" ++ LF ++ lit "B=2" ++ LF in
  let expected := lit "A=" ++ LF ++ lit "# db config" ++ LF ++ lit "B=" ++ LF in
  trailingPrimary (uniqueKeyOrderFromTokens (tokensOfSource env) []) = [[]] /\
  buildExampleFromScratch env [] = expected ++ LF /\
  buildExampleFromScratch env [] <> expected.
Proof.
  cbv zeta. split; [reflexivity|]. split; [reflexivity|].
  vm_compute; discriminate.
Qed.

(** C7: a comment line of the template that holds an equals sign receives
    the warning.  The annotator calls [parseAssignment] on every line without
    the blank and comment tests that the tokenizer makes first, so the line
    [# FOO=bar], a comment token for the tokenizer, is read as an assignment
    of the key [# FOO]. *)
Theorem comment_line_receives_warning :
  let example := lit "# FOO=bar" ++ LF in
  tokenizeEnvFile (lit "# FOO=bar") = [Comment (lit "# FOO=bar")] /\
  markUnknownKeysInExample example (lit "A=1") []
  = WARNING_MISSING_IN_SOURCES ++ LF ++ lit "# FOO=bar" ++ LF.
Proof. cbv zeta. split; reflexivity. Qed.

(** C2: the existing-template pipeline run a second time on its own output
    changes it.  With the template [A=] and the source [A=1], [# B=2],
    [C=3], the first run appends the section with [# B=2] and [C=]; the
    second run takes the appended comment line [# B=2] for an assignment of
    an unknown key and puts a warning above it. *)
Theorem second_run_changes_output :
  let env := lit "A=1" ++ LF ++ lit "# B=2" ++ LF ++ lit "C=3" ++ LF in
  let now := mkDate 2024 0 5 9 3 7 in
  let header := lit "# --- Added by copy-env-keys-to-env-example on 2024-01-05 09:03:07 ---" in
  let first := updateExisting now (lit "A=" ++ LF) env [] in
  let second := updateExisting now first env [] in
  first = lit "A=" ++ LF ++ header ++ LF ++ lit "# B=2" ++ LF ++ lit "C=" ++ LF /\
  second = lit "A=" ++ LF ++ header ++ LF ++ WARNING_MISSING_IN_SOURCES ++ LF
           ++ lit "# B=2" ++ LF ++ lit "C=" ++ LF /\
  second <> first.
Proof.
  cbv zeta. split; [reflexivity|]. split; [reflexivity|].
  vm_compute; discriminate.
Qed.

(** ** The clock *)

Lemma join_lines_head (l : str) (post : list str) :
  join_lines (l :: post) = l ++ joinedAfter post.
Proof.
  revert l; induction post as [|q post IH]; intros l.
  - simpl; rewrite app_nil_r; reflexivity.
  - change (join_lines (l :: q :: post)) with (l ++ LF ++ join_lines (q :: post)).
    rewrite IH. reflexivity.
Qed.

Lemma join_lines_around (pre post : list str) (l : str) :
  join_lines (pre ++ l :: post) = joinedBefore pre ++ l ++ joinedAfter post.
Proof.
  induction pre as [|p pre IH].
  - apply join_lines_head.
  - change ((p :: pre) ++ l :: post) with (p :: (pre ++ l :: post)).
    rewrite join_lines_cons by (destruct pre; discriminate).
    rewrite IH. simpl. rewrite <- !app_assoc. reflexivity.
Qed.

Lemma appendMissingKeys_appending
  (now : Date) (exampleContent envContent envLocalContent : str) :
  missingEntries exampleContent envContent envLocalContent <> [] ->
  appendMissingKeysToExample now exampleContent envContent envLocalContent
  = join_lines (split_lines (rstrip exampleContent) ++ sectionHeader now
                :: appendedBlock (missingEntries exampleContent envContent envLocalContent))
    ++ LF.
Proof.
  intros H. unfold appendMissingKeysToExample, appendMissingLines.
  destruct (missingEntries exampleContent envContent envLocalContent) eqn:E;
    [congruence|].
  rewrite fold_appendEntry, <- app_assoc. reflexivity.
Qed.

(** C9, as the code has it.  The builder and the annotator take nothing but
    the input strings.  The patcher, and with it the existing-template
    pipeline, also reads the clock for the header of the appended section:
    two runs on the same inputs give the same output when no key is missing
    from the annotated template or when the two clock readings print the
    same stamp, and different outputs when a key is missing and the stamps
    differ. *)
Theorem pipeline_output_and_clock
  (now1 now2 : Date) (exampleContent envContent envLocalContent : str) :
  let marked := markUnknownKeysInExample exampleContent envContent envLocalContent in
  let missing := missingEntries marked envContent envLocalContent in
  (missing = [] ->
   updateExisting now1 exampleContent envContent envLocalContent = marked /\
   updateExisting now2 exampleContent envContent envLocalContent = marked) /\
  (nowStamp now1 = nowStamp now2 ->
   updateExisting now1 exampleContent envContent envLocalContent
   = updateExisting now2 exampleContent envContent envLocalContent) /\
  (missing <> [] -> nowStamp now1 <> nowStamp now2 ->
   updateExisting now1 exampleContent envContent envLocalContent
   <> updateExisting now2 exampleContent envContent envLocalContent).
Proof.
  cbv zeta. unfold updateExisting.
  set (marked := markUnknownKeysInExample _ _ _).
  split; [|split].
  - intros H. unfold appendMissingKeysToExample. rewrite H. split; reflexivity.
  - intros H. unfold appendMissingKeysToExample, appendMissingLines, sectionHeader.
    rewrite H. reflexivity.
  - intros Hm Hs Heq.
    rewrite !appendMissingKeys_appending in Heq by assumption.
    rewrite !join_lines_around in Heq.
    rewrite <- !app_assoc in Heq.
    apply app_inv_head in Heq. unfold sectionHeader in Heq.
    rewrite <- !app_assoc in Heq.
    apply app_inv_head in Heq.
    rewrite !app_assoc in Heq. apply app_inv_tail in Heq.
    apply app_inv_tail in Heq. apply app_inv_tail in Heq.
    apply Hs; exact Heq.
Qed.

Lemma pipeline_output_and_clock_witness :
  let now1 := mkDate 2024 0 5 9 3 7 in
  let now2 := mkDate 2031 11 24 23 59 59 in
  updateExisting now1 (lit "A=" ++ LF) (lit "A=1") []
  = updateExisting now2 (lit "A=" ++ LF) (lit "A=1") [] /\
  updateExisting now1 (lit "A=" ++ LF) (lit "A=1" ++ LF ++ lit "B=2") []
  <> updateExisting now2 (lit "A=" ++ LF) (lit "A=1" ++ LF ++ lit "B=2") [].
Proof.
  cbv zeta. split.
  - destruct (pipeline_output_and_clock (mkDate 2024 0 5 9 3 7)
                (mkDate 2031 11 24 23 59 59) (lit "A=" ++ LF) (lit "A=1") [])
      as [H _].
    destruct (H eq_refl) as [-> ->]. reflexivity.
  - apply (pipeline_output_and_clock (mkDate 2024 0 5 9 3 7)
             (mkDate 2031 11 24 23 59 59) (lit "A=" ++ LF)
             (lit "A=1" ++ LF ++ lit "B=2") []).
    + vm_compute; discriminate.
    + vm_compute; discriminate.
Defined.

(** C9 as stated fails: the same template and sources, patched at two
    different seconds, give two different outputs. *)
Lemma same_inputs_different_outputs :
  let example := lit "A=" ++ LF in
  let env := lit "A=1" ++ LF ++ lit "B=2" in
  updateExisting (mkDate 2024 0 5 9 3 7) example env []
  = lit "A=" ++ LF
    ++ lit "# --- Added by copy-env-keys-to-env-example on 2024-01-05 09:03:07 ---"
    ++ LF ++ lit "B=" ++ LF /\
  updateExisting (mkDate 2024 0 5 9 3 8) example env []
  = lit "A=" ++ LF
    ++ lit "# --- Added by copy-env-keys-to-env-example on 2024-01-05 09:03:08 ---"
    ++ LF ++ lit "B=" ++ LF /\
  updateExisting (mkDate 2024 0 5 9 3 7) example env []
  <> updateExisting (mkDate 2024 0 5 9 3 8) example env [].
Proof.
  cbv zeta. split; [reflexivity|]. split; [reflexivity|].
  vm_compute; discriminate.
Qed.

(** ** The frame of the patcher *)

Lemma is_lf_space (c : char) : is_lf c = true -> is_space c = true.
Proof. intros H; apply is_lf_eq in H; subst; reflexivity. Qed.

Lemma is_cr_space (c : char) : is_cr c = true -> is_space c = true.
Proof. intros H; apply N.eqb_eq in H; subst; reflexivity. Qed.

Lemma split_lines_cons_other (c : char) (rest : str) :
  is_lf c = false ->
  (forall d r', rest = d :: r' -> is_cr c && is_lf d = false) ->
  split_lines (c :: rest) = push_front c (split_lines rest).
Proof.
  intros Hc Hd. simpl. rewrite Hc.
  destruct rest as [|d r']; [reflexivity|].
  rewrite (Hd d r' eq_refl). reflexivity.
Qed.

Lemma all_blank_push_front (c : char) (ls : list str) :
  ls <> [] ->
  forallb isBlankLine (push_front c ls) = is_space c && forallb isBlankLine ls.
Proof.
  destruct ls as [|h t]; [congruence|]. intros _. simpl.
  rewrite andb_assoc. reflexivity.
Qed.

(** The lines of a content are all blank exactly when the content is white
    space. *)
Lemma all_blank_split_lines (s : str) :
  forallb isBlankLine (split_lines s) = forallb is_space s.
Proof.
  induction s as [| c | c d r IHr IHdr] using str_ind2.
  - reflexivity.
  - simpl. destruct (is_lf c) eqn:E; simpl.
    + rewrite (is_lf_space c E); reflexivity.
    + rewrite !andb_true_r; reflexivity.
  - change (split_lines (c :: d :: r)) with
      (if is_lf c then [] :: split_lines (d :: r)
       else if is_cr c && is_lf d then [] :: split_lines r
       else push_front c (split_lines (d :: r))).
    destruct (is_lf c) eqn:Ec.
    + change (forallb isBlankLine ([] :: split_lines (d :: r)))
        with (forallb isBlankLine (split_lines (d :: r))).
      rewrite IHdr. change (forallb is_space (c :: d :: r))
        with (is_space c && forallb is_space (d :: r)).
      rewrite (is_lf_space c Ec); reflexivity.
    + destruct (is_cr c && is_lf d) eqn:Ecd.
      * apply andb_true_iff in Ecd as [Hcr Hlf].
        change (forallb isBlankLine ([] :: split_lines r))
          with (forallb isBlankLine (split_lines r)).
        rewrite IHr. simpl.
        rewrite (is_cr_space c Hcr), (is_lf_space d Hlf); reflexivity.
      * rewrite all_blank_push_front by apply split_lines_nonempty.
        rewrite IHdr. reflexivity.
Qed.

Lemma rstrip_all_space (s : str) : forallb is_space s = true -> rstrip s = [].
Proof. destruct s; [reflexivity|]. intros H. unfold rstrip. rewrite H. reflexivity. Qed.

Lemma rstrip_cons (c : char) (s : str) :
  forallb is_space (c :: s) = false -> rstrip (c :: s) = c :: rstrip s.
Proof. intros H. unfold rstrip; fold rstrip. rewrite H. reflexivity. Qed.

Lemma rstrip_not_all_space (s : str) :
  forallb is_space s = false -> forallb is_space (rstrip s) = false.
Proof.
  induction s as [|c s IH]; [discriminate|]. intros H.
  rewrite rstrip_cons by assumption. simpl in H |- *.
  destruct (is_space c); [|reflexivity]. apply IH; exact H.
Qed.

Lemma rstrip_idempotent (s : str) : rstrip (rstrip s) = rstrip s.
Proof.
  induction s as [|c s IH]; [reflexivity|].
  destruct (forallb is_space (c :: s)) eqn:H.
  - rewrite (rstrip_all_space (c :: s) H). reflexivity.
  - rewrite (rstrip_cons c s H). rewrite rstrip_cons; [rewrite IH; reflexivity|].
    simpl in H |- *. destruct (is_space c); [|reflexivity].
    apply rstrip_not_all_space; exact H.
Qed.

Lemma rstrip_head (s : str) (d : char) (t : str) :
  rstrip s = d :: t -> exists r', s = d :: r'.
Proof.
  destruct s as [|c s]; [discriminate|].
  unfold rstrip; fold rstrip. destruct (forallb is_space (c :: s)); [discriminate|].
  intros E; injection E as -> _. eexists; reflexivity.
Qed.

Lemma stripBlankTail_all_blank (ls : list str) :
  forallb isBlankLine ls = true -> stripBlankTail ls = [].
Proof.
  destruct ls; [reflexivity|]. intros H. unfold stripBlankTail. rewrite H. reflexivity.
Qed.

Lemma stripBlankTail_cons (l : str) (ls : list str) :
  forallb isBlankLine (l :: ls) = false ->
  stripBlankTail (l :: ls) = l :: stripBlankTail ls.
Proof. intros H. unfold stripBlankTail; fold stripBlankTail. rewrite H. reflexivity. Qed.

Lemma stripBlankTail_nil_iff (ls : list str) :
  stripBlankTail ls = [] -> forallb isBlankLine ls = true.
Proof.
  destruct ls as [|l ls]; [reflexivity|].
  unfold stripBlankTail; fold stripBlankTail.
  destruct (forallb isBlankLine (l :: ls)); [reflexivity | discriminate].
Qed.

(** The last of the kept lines is not blank. *)
Lemma stripBlankTail_last (ls : list str) :
  stripBlankTail ls <> [] -> isBlankLine (last (stripBlankTail ls) []) = false.
Proof.
  induction ls as [|l ls IH]; [intros H; exfalso; apply H; reflexivity|].
  destruct (forallb isBlankLine (l :: ls)) eqn:Hall.
  - rewrite stripBlankTail_all_blank by assumption.
    intros H; exfalso; apply H; reflexivity.
  - rewrite stripBlankTail_cons by assumption. intros _.
    destruct (stripBlankTail ls) as [|x xs] eqn:E.
    + apply stripBlankTail_nil_iff in E. simpl in Hall. rewrite E, andb_true_r in Hall.
      exact Hall.
    + change (last (l :: x :: xs) []) with (last (x :: xs) []).
      apply IH. discriminate.
Qed.

Lemma frameOf_cons (l : str) (kept : list str) :
  kept <> [] -> frameOf (l :: kept) = l :: frameOf kept.
Proof. destruct kept; [congruence|]. reflexivity. Qed.

Lemma frameOf_push_front (c : char) (kept : list str) :
  kept <> [] -> isBlankLine (last kept []) = false ->
  frameOf (push_front c kept) = push_front c (frameOf kept).
Proof.
  destruct kept as [|h [|h' t]]; [congruence| |reflexivity].
  intros _ Hh. unfold frameOf. simpl removelast. simpl last. simpl app.
  unfold push_front. f_equal. apply rstrip_cons.
  simpl in Hh |- *. unfold isBlankLine in Hh. rewrite Hh. apply andb_false_r.
Qed.

Lemma stripBlankTail_push_front (c : char) (ls : list str) :
  ls <> [] -> forallb isBlankLine ls = false ->
  stripBlankTail (push_front c ls) = push_front c (stripBlankTail ls).
Proof.
  destruct ls as [|h t]; [congruence|]. intros _ H.
  rewrite (stripBlankTail_cons h t H). simpl push_front.
  apply stripBlankTail_cons.
  simpl in H |- *. apply andb_false_iff in H as [H | H].
  - unfold isBlankLine in H |- *. simpl. rewrite H, andb_false_r. reflexivity.
  - rewrite H. apply andb_false_r.
Qed.

(** The lines of a content without the white space that ends it are the
    lines of the content without the blank lines that end them, the last of
    them without the white space that ends it. *)
Lemma split_lines_rstrip (s : str) :
  split_lines (rstrip s) = frameOf (stripBlankTail (split_lines s)).
Proof.
  assert (Hspace : forall s, forallb is_space s = true ->
            split_lines (rstrip s) = frameOf (stripBlankTail (split_lines s))).
  { intros s0 H. rewrite rstrip_all_space by assumption.
    rewrite stripBlankTail_all_blank by (rewrite all_blank_split_lines; assumption).
    reflexivity. }
  assert (Hkept : forall s, forallb is_space s = false ->
            stripBlankTail (split_lines s) <> []).
  { intros s0 H E. apply stripBlankTail_nil_iff in E.
    rewrite all_blank_split_lines in E. congruence. }
  assert (Hsep : forall c rest, forallb is_space (c :: rest) = false ->
            is_space c = true ->
            split_lines (rstrip rest) = frameOf (stripBlankTail (split_lines rest)) ->
            frameOf (stripBlankTail ([] :: split_lines rest))
            = [] :: split_lines (rstrip rest)).
  { intros c rest Hall Hc IH.
    assert (Hrest : forallb is_space rest = false)
      by (simpl in Hall; rewrite Hc in Hall; exact Hall).
    rewrite stripBlankTail_cons
      by (change (forallb isBlankLine ([] :: split_lines rest))
            with (forallb isBlankLine (split_lines rest));
          rewrite all_blank_split_lines; exact Hrest).
    rewrite frameOf_cons by (apply Hkept; exact Hrest).
    rewrite IH. reflexivity. }
  assert (Hother : forall c rest, forallb is_space (c :: rest) = false ->
            is_lf c = false ->
            (forall d r', rest = d :: r' -> is_cr c && is_lf d = false) ->
            split_lines (rstrip rest) = frameOf (stripBlankTail (split_lines rest)) ->
            split_lines (rstrip (c :: rest))
            = frameOf (stripBlankTail (split_lines (c :: rest)))).
  { intros c rest Hall Hc Hd IH.
    rewrite rstrip_cons by assumption.
    rewrite (split_lines_cons_other c rest Hc Hd).
    rewrite split_lines_cons_other; [|assumption|].
    2:{ intros d t E. destruct (rstrip_head rest d t E) as [r' ->].
        apply (Hd d r' eq_refl). }
    destruct (forallb is_space rest) eqn:Hrest.
    - assert (Hcs : is_space c = false)
        by (simpl in Hall; rewrite Hrest, andb_true_r in Hall; exact Hall).
      rewrite rstrip_all_space by assumption.
      pose proof (all_blank_split_lines rest) as Hb. rewrite Hrest in Hb.
      destruct (split_lines rest) as [|h t] eqn:Es;
        [exfalso; exact (split_lines_nonempty rest Es)|].
      simpl push_front.
      rewrite stripBlankTail_cons
        by (simpl; rewrite Hcs; reflexivity).
      simpl in Hb. apply andb_true_iff in Hb as [Hh Ht].
      rewrite (stripBlankTail_all_blank t Ht).
      unfold frameOf. simpl. rewrite Hcs. simpl.
      unfold isBlankLine in Hh. rewrite (rstrip_all_space h Hh). reflexivity.
    - rewrite IH.
      assert (Hb : forallb isBlankLine (split_lines rest) = false)
        by (rewrite all_blank_split_lines; exact Hrest).
      rewrite stripBlankTail_push_front; [|apply split_lines_nonempty|exact Hb].
      symmetry. apply frameOf_push_front.
      + apply Hkept; exact Hrest.
      + apply stripBlankTail_last. apply Hkept; exact Hrest. }
  induction s as [| c | c d r IHr IHdr] using str_ind2.
  - reflexivity.
  - destruct (forallb is_space [c]) eqn:Hall; [apply Hspace; exact Hall|].
    apply Hother; try assumption; try reflexivity.
    + destruct (is_lf c) eqn:E; [|reflexivity].
      simpl in Hall. rewrite (is_lf_space c E) in Hall. discriminate.
    + intros d r' E; discriminate.
  - destruct (forallb is_space (c :: d :: r)) eqn:Hall; [apply Hspace; exact Hall|].
    destruct (is_lf c) eqn:Ec.
    + rewrite rstrip_cons by assumption.
      change (split_lines (c :: rstrip (d :: r)))
        with (if is_lf c then [] :: split_lines (rstrip (d :: r))
              else match rstrip (d :: r) with
                   | d0 :: r' => if is_cr c && is_lf d0 then [] :: split_lines r'
                                 else push_front c (split_lines (rstrip (d :: r)))
                   | [] => [[c]]
                   end).
      rewrite Ec.
      change (split_lines (c :: d :: r))
        with (if is_lf c then [] :: split_lines (d :: r)
              else if is_cr c && is_lf d then [] :: split_lines r
              else push_front c (split_lines (d :: r))).
      rewrite Ec. symmetry.
      apply (Hsep c (d :: r) Hall (is_lf_space c Ec) IHdr).
    + destruct (is_cr c && is_lf d) eqn:Ecd.
      * apply andb_true_iff in Ecd as [Hcr Hlf].
        assert (Hdr : forallb is_space (d :: r) = false).
        { simpl in Hall |- *. rewrite (is_cr_space c Hcr) in Hall. exact Hall. }
        rewrite rstrip_cons by assumption.
        rewrite (rstrip_cons d r Hdr).
        change (split_lines (c :: d :: rstrip r))
          with (if is_lf c then [] :: split_lines (d :: rstrip r)
                else if is_cr c && is_lf d then [] :: split_lines (rstrip r)
                else push_front c (split_lines (d :: rstrip r))).
        change (split_lines (c :: d :: r))
          with (if is_lf c then [] :: split_lines (d :: r)
                else if is_cr c && is_lf d then [] :: split_lines r
                else push_front c (split_lines (d :: r))).
        rewrite Ec, Hcr, Hlf. simpl andb. cbv iota. symmetry.
        apply (Hsep d r Hdr (is_lf_space d Hlf) IHr).
      * apply Hother; try assumption.
        intros d0 r' E; injection E as <- <-. exact Ecd.
Qed.

(** C5, as the code has it.  With no missing key the patcher returns the
    template as it is.  Otherwise the lines of the template (split at line
    feeds and at carriage-return line-feed pairs), without the blank lines
    that end them, are the first lines of the output, in their order and
    unaltered but for the white space that ends the last of them, on which
    nothing is stated; the section header and the appended block follow, and
    all lines are joined by a single line feed, whatever the line endings of
    the template were. *)
Theorem patcher_frame
  (now : Date) (exampleContent envContent envLocalContent : str) :
  let missing := missingEntries exampleContent envContent envLocalContent in
  let kept := stripBlankTail (split_lines exampleContent) in
  (missing = [] ->
   appendMissingKeysToExample now exampleContent envContent envLocalContent
   = exampleContent) /\
  (missing <> [] ->
   exists lastLine,
     rstrip lastLine = rstrip (last kept []) /\
     appendMissingKeysToExample now exampleContent envContent envLocalContent
     = join_lines (removelast kept ++ lastLine :: sectionHeader now
                   :: appendedBlock missing) ++ LF).
Proof.
  cbv zeta. split.
  - intros H. unfold appendMissingKeysToExample. rewrite H. reflexivity.
  - intros H. exists (rstrip (last (stripBlankTail (split_lines exampleContent)) [])).
    split.
    + apply rstrip_idempotent.
    + rewrite appendMissingKeys_appending by assumption.
      rewrite split_lines_rstrip. unfold frameOf. rewrite <- app_assoc. reflexivity.
Qed.

Lemma patcher_frame_witness :
  let now := mkDate 2024 0 5 9 3 7 in
  let example := lit "# my template  " ++ CRLF ++ lit "A=  " ++ CRLF ++ lit "  " ++ CRLF in
  exists lastLine,
    rstrip lastLine = lit "A=" /\
    appendMissingKeysToExample now example (lit "A=1" ++ LF ++ lit "B=2") []
    = join_lines [lit "# my template  "; lastLine; sectionHeader now; lit "B="] ++ LF.
Proof.
  cbv zeta.
  destruct (patcher_frame (mkDate 2024 0 5 9 3 7)
              (lit "# my template  " ++ CRLF ++ lit "A=  " ++ CRLF ++ lit "  " ++ CRLF)
              (lit "A=1" ++ LF ++ lit "B=2") []) as [_ H].
  destruct H as [lastLine [Hl Ho]]; [vm_compute; discriminate|].
  exists lastLine. split; [exact Hl | exact Ho].
Defined.

(** C5 as stated fails: a template with carriage-return line-feed endings
    and white space at the end of its last content line comes back with line
    feeds only and without that white space. *)
Lemma patcher_rewrites_line_endings :
  let now := mkDate 2024 0 5 9 3 7 in
  let example := lit "A=1" ++ CRLF ++ lit "B=2  " ++ CRLF in
  let output := appendMissingKeysToExample now example (lit "C=3") [] in
  missingEntries example (lit "C=3") [] <> [] /\
  split_lines example = [lit "A=1"; lit "B=2  "; []] /\
  output = lit "A=1" ++ LF ++ lit "B=2" ++ LF ++ sectionHeader now ++ LF
           ++ lit "C=" ++ LF /\
  includes output CRLF = false /\
  includes output (lit "B=2  ") = false.
Proof.
  cbv zeta. split; [vm_compute; discriminate|].
  repeat split; vm_compute; reflexivity.
Qed.

(** ** Key comparison *)

Lemma parseAssignment_key (line : str) (a : assignment) :
  parseAssignment line = Some a -> key a = trim (rawKey a).
Proof.
  unfold parseAssignment.
  destruct (findUnquotedEqualsIndex (stripExportPrefix line)); [|discriminate].
  intros E; injection E as <-; reflexivity.
Qed.

Lemma rstrip_nil_all_space (s : str) : rstrip s = [] -> forallb is_space s = true.
Proof.
  destruct s as [|c s]; [reflexivity|]. unfold rstrip; fold rstrip.
  destruct (forallb is_space (c :: s)); [reflexivity | discriminate].
Qed.

Lemma rstrip_last_not_space (s t : str) (c : char) :
  rstrip s = t ++ [c] -> is_space c = false.
Proof.
  revert t; induction s as [|x s IH]; intros t.
  - destruct t; discriminate.
  - destruct (forallb is_space (x :: s)) eqn:Hall.
    + rewrite (rstrip_all_space _ Hall). destruct t; discriminate.
    + rewrite (rstrip_cons x s Hall). destruct t as [|y t]; simpl.
      * intros E; injection E as -> E. apply rstrip_nil_all_space in E.
        simpl in Hall. rewrite E, andb_true_r in Hall. exact Hall.
      * intros E; injection E as _ E. apply (IH t E).
Qed.

(** A trimmed string neither starts nor ends with white space. *)
Lemma trim_ends (s : str) :
  (forall c t, trim s = c :: t -> is_space c = false) /\
  (forall t c, trim s = t ++ [c] -> is_space c = false).
Proof.
  unfold trim. split.
  - intros c t E. destruct (rstrip_head _ _ _ E) as [r' E'].
    apply (drop_space_head s c r' E').
  - intros t c E. apply (rstrip_last_not_space _ _ _ E).
Qed.

Lemma assignmentKeys_app (l1 l2 : list token) :
  assignmentKeys (l1 ++ l2) = assignmentKeys l1 ++ assignmentKeys l2.
Proof.
  induction l1 as [|t l1 IH]; [reflexivity|].
  destruct t; simpl; rewrite ?IH; reflexivity.
Qed.

(** C10: keys are compared as code-unit sequences, by equality.  The key of
    a parsed line is its raw key trimmed: the raw key is the key between two
    runs of white space, the key neither starts nor ends with white space,
    and nothing else is changed in it.  The merger drops an entry of the
    secondary exactly when its key is equal to a key assigned in the primary;
    the patcher holds an entry of the merged list for missing exactly when
    its key is equal to no key assigned in the template; the annotator puts
    the warning above a line with a key exactly when that key is equal to no
    key assigned in either source and the line above is not the warning. *)
Theorem key_comparison_exact
  (exampleContent envContent envLocalContent : str) :
  let primaryTokens := tokensOfSource envContent in
  let secondaryTokens := tokensOfSource envLocalContent in
  let merged := orderedEntries (uniqueKeyOrderFromTokens primaryTokens secondaryTokens) in
  let presentKeys := presentKeysOf envContent envLocalContent in
  (forall line a, parseAssignment line = Some a ->
     key a = trim (rawKey a) /\
     (exists l r, rawKey a = l ++ key a ++ r /\
                  forallb is_space l = true /\ forallb is_space r = true) /\
     (forall c t, key a = c :: t -> is_space c = false) /\
     (forall t c, key a = t ++ [c] -> is_space c = false)) /\
  (exists kept,
     merged = indexEntries (buildKeyIndexWithLeadingComments primaryTokens) ++ kept /\
     forall e, In e kept <->
       In e (indexEntries (buildKeyIndexWithLeadingComments secondaryTokens)) /\
       ~ In (entryKey e) (assignmentKeys primaryTokens)) /\
  (forall e, In e (missingEntries exampleContent envContent envLocalContent) <->
     In e merged /\
     ~ In (entryKey e) (assignmentKeys (tokenizeEnvFile exampleContent))) /\
  (forall k, In k presentKeys <->
     In k (assignmentKeys primaryTokens) \/ In k (assignmentKeys secondaryTokens)) /\
  (forall output line a, parsedWithKey line = Some a ->
     (In (key a) presentKeys -> markStep presentKeys output line = output ++ [line]) /\
     (~ In (key a) presentKeys -> prevIsWarning output = true ->
      markStep presentKeys output line = output ++ [line]) /\
     (~ In (key a) presentKeys -> prevIsWarning output = false ->
      markStep presentKeys output line
      = output ++ [WARNING_MISSING_IN_SOURCES; line])).
Proof.
  cbv zeta. split; [|split; [|split; [|split]]].
  - intros line a H. rewrite (parseAssignment_key line a H).
    split; [reflexivity|]. split; [apply trim_decompose | apply trim_ends].
  - eexists; split; [apply orderedEntries_eq|].
    intros e. rewrite filter_In, negb_true_iff, has_false_In. reflexivity.
  - intros e. unfold missingEntries.
    rewrite filter_In, negb_true_iff, has_false_In. reflexivity.
  - intros k. unfold presentKeysOf. apply in_app_iff.
  - intros output line a Hp. unfold markStep. rewrite Hp.
    split; [|split].
    + intros Hin. apply has_In in Hin. rewrite Hin. reflexivity.
    + intros Hin Hw. apply has_false_In in Hin. rewrite Hin, Hw. reflexivity.
    + intros Hin Hw. apply has_false_In in Hin. rewrite Hin, Hw. simpl.
      rewrite <- app_assoc. reflexivity.
Qed.

(** Keys that differ in letter case are two keys for the merger, the
    patcher and the annotator; white space around a key does not count. *)
Lemma key_comparison_exact_witness :
  let env := lit "api_key=1" ++ LF ++ lit "  PORT  =80" in
  let example := lit "API_KEY=" ++ LF ++ lit "PORT=" in
  map entryKey (missingEntries example env []) = [lit "api_key"] /\
  markStep (presentKeysOf env []) [] (lit "API_KEY=")
  = [WARNING_MISSING_IN_SOURCES; lit "API_KEY="] /\
  markStep (presentKeysOf env []) [] (lit "PORT=") = [lit "PORT="].
Proof.
  cbv zeta.
  destruct (key_comparison_exact
              (lit "API_KEY=" ++ LF ++ lit "PORT=")
              (lit "api_key=1" ++ LF ++ lit "  PORT  =80") [])
    as (_ & _ & _ & _ & Hmark).
  split; [vm_compute; reflexivity|]. split.
  - refine (proj2 (proj2 (Hmark [] (lit "API_KEY=")
                     (mkAssignment (lit "API_KEY") (lit "API_KEY") []) _)) _ _).
    + vm_compute; reflexivity.
    + vm_compute. intros H.
      repeat (destruct H as [H | H]; [discriminate H|]). exact H.
    + vm_compute; reflexivity.
  - refine (proj1 (Hmark [] (lit "PORT=")
                     (mkAssignment (lit "PORT") (lit "PORT") []) _) _).
    + vm_compute; reflexivity.
    + vm_compute. right; left; reflexivity.
Defined.

(** * Further properties *)

(** ** Line classifier *)

Lemma scanEquals_ge (w : str) :
  forall inSingle inDouble i idx,
  scanEquals inSingle inDouble i w = Some idx -> i <= idx.
Proof.
  intros s d i idx H.
  destruct (scanEquals_value w s d i idx H) as (rk & rv & _ & -> & _). lia.
Qed.

Lemma scanEquals_prefix_none (rk : str) :
  forall inSingle inDouble i v,
  scanEquals inSingle inDouble i (rk ++ 61%N :: v) = Some (i + List.length rk) ->
  scanEquals inSingle inDouble i rk = None.
Proof.
  induction rk as [|ch rk IH]; intros s d i v H; [reflexivity|].
  simpl in H |- *.
  replace (i + S (List.length rk)) with (S i + List.length rk) in H by lia.
  destruct (N.eqb ch 39 && negb d); [apply (IH _ _ _ _ H)|].
  destruct (N.eqb ch 34 && negb s); [apply (IH _ _ _ _ H)|].
  destruct (N.eqb ch 61 && negb s && negb d); [injection H as H; lia|].
  apply (IH _ _ _ _ H).
Qed.

Lemma scanEquals_no_quote (line : str) (i : nat) :
  forallb (fun c => negb (isQuote c)) line = true ->
  scanEquals false false i line = firstEquals i line.
Proof.
  revert i; induction line as [|c line IH]; intros i H; [reflexivity|].
  simpl in H. apply andb_true_iff in H as [Hc Hl].
  unfold isQuote in Hc. apply negb_true_iff, orb_false_iff in Hc as [H39 H34].
  simpl. rewrite H39, H34. simpl. rewrite andb_true_r.
  destruct (N.eqb c 61); [reflexivity | apply IH; exact Hl].
Qed.

Lemma nth_error_at_equals (rk v : str) :
  nth_error (rk ++ 61%N :: v) (List.length rk) = Some 61%N.
Proof. induction rk as [|c rk IH]; [reflexivity | exact IH]. Qed.

(** X1: when [findUnquotedEqualsIndex] returns an index there is an equals
    sign at that index and the scan finds none in the text before it; on a
    line without quote characters it returns the index of the first equals
    sign, or nothing when the line has none. *)
Theorem findUnquotedEqualsIndex_first_unquoted (line : str) :
  (forall idx, findUnquotedEqualsIndex line = Some idx ->
     nth_error line idx = Some 61%N /\
     findUnquotedEqualsIndex (firstn idx line) = None) /\
  (forallb (fun c => negb (isQuote c)) line = true ->
   findUnquotedEqualsIndex line = firstEquals 0 line).
Proof.
  unfold findUnquotedEqualsIndex. split.
  - intros idx H.
    destruct (scanEquals_value line _ _ _ _ H) as (rk & rv & -> & -> & Hv).
    simpl. split; [apply nth_error_at_equals|].
    rewrite firstn_app, firstn_all, Nat.sub_diag. simpl. rewrite app_nil_r.
    apply (scanEquals_prefix_none rk false false 0 rv). exact H.
  - apply scanEquals_no_quote.
Qed.

Lemma findUnquotedEqualsIndex_first_unquoted_witness :
  findUnquotedEqualsIndex (lit "'a=b'=c") = Some 5 /\
  nth_error (lit "'a=b'=c") 5 = Some 61%N /\
  findUnquotedEqualsIndex (lit "PORT = 80=x") = Some 5.
Proof.
  split; [vm_compute; reflexivity|]. split.
  - refine (proj1 (proj1 (findUnquotedEqualsIndex_first_unquoted (lit "'a=b'=c")) 5 _)).
    vm_compute; reflexivity.
  - rewrite (proj2 (findUnquotedEqualsIndex_first_unquoted (lit "PORT = 80=x")));
      vm_compute; reflexivity.
Defined.

(** X2: the object returned by [parseAssignment] holds the whole line
    without its export prefix: the raw key, an equals sign and the raw value,
    in this order; the raw key holds no unquoted equals sign, the key is the
    raw key trimmed, and the line is some prefix followed by these parts. *)
Theorem parseAssignment_reassembles (line : str) (a : assignment) :
  parseAssignment line = Some a ->
  stripExportPrefix line = rawKey a ++ 61%N :: rawValue a /\
  findUnquotedEqualsIndex (rawKey a) = None /\
  key a = trim (rawKey a) /\
  value a = rawValue a /\
  exists prefix, line = prefix ++ rawKey a ++ 61%N :: rawValue a.
Proof.
  intros H. pose proof H as Hpa.
  unfold parseAssignment, findUnquotedEqualsIndex in H.
  destruct (scanEquals false false 0 (stripExportPrefix line)) as [idx|] eqn:Hs;
    [|discriminate].
  destruct (scanEquals_value _ _ _ _ _ Hs) as (rk & rv & Ew & -> & Hv).
  rewrite Ew in H. destruct (firstn_skipn_at_equals rk rv) as [Hf Hsk].
  unfold str, char in *. rewrite Hf, Hsk in H. injection H as <-.
  cbn [key rawKey rawValue value].
  split; [exact Ew|]. split.
  - apply (scanEquals_prefix_none rk false false 0 rv).
    pose proof Hs as Hs'. rewrite Ew in Hs'. exact Hs'.
  - split; [reflexivity|]. split; [reflexivity|].
    destruct (stripExportPrefix_value line rk rv Ew) as (p & El & _).
    exists p; exact El.
Qed.

Lemma parseAssignment_reassembles_witness :
  exists a, parseAssignment (lit "  export  DB_URL = 'x=y' # main") = Some a /\
    key a = lit "DB_URL" /\
    rawKey a ++ 61%N :: rawValue a = lit "DB_URL = 'x=y' # main".
Proof.
  exists (mkAssignment (lit "DB_URL") (lit "DB_URL ") (lit " 'x=y' # main")).
  split; [vm_compute; reflexivity|]. split; [reflexivity|].
  rewrite <- (proj1 (parseAssignment_reassembles
                       (lit "  export  DB_URL = 'x=y' # main")
                       (mkAssignment (lit "DB_URL") (lit "DB_URL ") (lit " 'x=y' # main"))
                       eq_refl)).
  vm_compute; reflexivity.
Defined.

Lemma drop_space_idempotent_head (s : str) :
  match drop_space s with
  | [] => True
  | c :: _ => is_space c = false
  end.
Proof.
  destruct (drop_space s) as [|c t] eqn:E; [exact I|].
  apply (drop_space_head s c t E).
Qed.

(** X3: [stripExportPrefix] removes white space, the word [export] and all
    the white space after it, when there is some, and nothing else.  A line
    made of white space, [export], a non-empty run of white space and a rest
    becomes the rest without the white space that starts it; any line is
    either returned as it is or is of that form, and then the result does
    not start with white space. *)
Theorem stripExportPrefix_shape (line : str) :
  (forall ws ws' rest,
     forallb is_space ws = true -> forallb is_space ws' = true -> ws' <> [] ->
     line = ws ++ lit "export" ++ ws' ++ rest ->
     stripExportPrefix line = drop_space rest) /\
  (stripExportPrefix line = line \/
   exists ws ws',
     forallb is_space ws = true /\ forallb is_space ws' = true /\ ws' <> [] /\
     line = ws ++ lit "export" ++ ws' ++ stripExportPrefix line /\
     match stripExportPrefix line with
     | [] => True
     | c :: _ => is_space c = false
     end).
Proof.
  split.
  - intros ws ws' rest Hws Hws' Hne ->. unfold stripExportPrefix.
    rewrite (drop_space_app_space ws _ Hws), drop_space_export, strip_literal_app.
    destruct ws' as [|c ws']; [congruence|]. simpl in Hws' |- *.
    apply andb_true_iff in Hws' as [Hc Hr]. rewrite Hc.
    apply drop_space_app_space; exact Hr.
  - unfold stripExportPrefix.
    destruct (strip_literal (lit "export") (drop_space line)) as [[|c r]|] eqn:Es;
      try (left; reflexivity).
    destruct (is_space c) eqn:Hc; [|left; reflexivity].
    right. destruct (drop_space_decompose line) as [ws [El Hws]].
    apply strip_literal_sound in Es.
    destruct (drop_space_decompose r) as [ws2 [Er Hws2]].
    exists ws, (c :: ws2). split; [exact Hws|]. split.
    + simpl. rewrite Hc, Hws2. reflexivity.
    + split; [discriminate|]. split.
      * rewrite El at 1. rewrite Es. rewrite Er at 1.
        simpl. reflexivity.
      * apply drop_space_idempotent_head.
Qed.

Lemma stripExportPrefix_shape_witness :
  stripExportPrefix (lit "  export   A=1") = lit "A=1" /\
  stripExportPrefix (lit "exportA=1") = lit "exportA=1".
Proof.
  split; [|vm_compute; reflexivity].
  refine (proj1 (stripExportPrefix_shape (lit "  export   A=1"))
            (lit "  ") (lit "   ") (lit "A=1") _ _ _ _);
    try (vm_compute; reflexivity).
  discriminate.
Defined.

(** ** Tokenizer *)

Lemma length_push_front (c : char) (ls : list str) :
  ls <> [] -> List.length (push_front c ls) = List.length ls.
Proof. destruct ls; [congruence | reflexivity]. Qed.

Lemma length_split_lines (s : str) : List.length (split_lines s) = S (countLF s).
Proof.
  induction s as [| c | c d r IHr IHdr] using str_ind2.
  - reflexivity.
  - simpl. destruct (is_lf c); reflexivity.
  - change (split_lines (c :: d :: r)) with
      (if is_lf c then [] :: split_lines (d :: r)
       else if is_cr c && is_lf d then [] :: split_lines r
       else push_front c (split_lines (d :: r))).
    change (countLF (c :: d :: r)) with
      (if is_lf c then S (countLF (d :: r)) else countLF (d :: r)).
    destruct (is_lf c) eqn:Ec.
    + cbn [List.length]. rewrite IHdr. reflexivity.
    + destruct (is_cr c && is_lf d) eqn:Ecd.
      * apply andb_true_iff in Ecd as [_ Ed]. cbn [List.length]. rewrite IHr.
        cbn [countLF]. rewrite Ed. reflexivity.
      * rewrite length_push_front by apply split_lines_nonempty. exact IHdr.
Qed.

(** X4: the tokenizer gives one token per line, one more than the content
    has line feeds (so at least one, also for the empty content).  A blank
    token holds a line of white space; a comment token holds a line that is
    not blank and that starts with [#] or yields no key; an assignment token
    holds a line that is neither blank nor a comment, with the object that
    [parseAssignment] returns for it, and its key is not empty and neither
    starts nor ends with white space. *)
Theorem tokenize_classification (content : str) :
  List.length (tokenizeEnvFile content) = S (countLF content) /\
  Forall (fun t =>
    match t with
    | Blank r => isBlankLine r = true
    | Comment r =>
        isBlankLine r = false /\ (isCommentLine r = true \/ parsedWithKey r = None)
    | Assignment r a =>
        isBlankLine r = false /\ isCommentLine r = false /\
        parseAssignment r = Some a /\ key a <> [] /\
        (forall c t, key a = c :: t -> is_space c = false) /\
        (forall t c, key a = t ++ [c] -> is_space c = false)
    end) (tokenizeEnvFile content).
Proof.
  unfold tokenizeEnvFile. split.
  - rewrite length_map. apply length_split_lines.
  - apply Forall_map, Forall_forall. intros line _. unfold classifyLine.
    destruct (isBlankLine line) eqn:Hb; [exact Hb|].
    destruct (isCommentLine line) eqn:Hc; [split; [exact Hb | left; exact Hc]|].
    destruct (parsedWithKey line) as [a|] eqn:Hp;
      [|split; [exact Hb | right; exact Hp]].
    unfold parsedWithKey in Hp.
    destruct (parseAssignment line) as [a'|] eqn:Hpa; [|discriminate].
    destruct (key a') as [|k ks] eqn:Hk; [discriminate|]. injection Hp as <-.
    split; [exact Hb|]. split; [exact Hc|]. split; [reflexivity|].
    split; [rewrite Hk; discriminate|].
    rewrite (parseAssignment_key line a' Hpa). apply trim_ends.
Qed.

Lemma tokenize_classification_witness :
  List.length (tokenizeEnvFile (lit "A=1" ++ LF ++ lit "# c" ++ CRLF)) = 3.
Proof.
  exact (proj1 (tokenize_classification (lit "A=1" ++ LF ++ lit "# c" ++ CRLF))).
Defined.

(** ** Key indexer *)

Lemma indexFrom_trailing (tokens : list token) :
  forall seenKeys pend,
  snd (indexFrom seenKeys pend tokens)
  = if forallb notAssignment tokens then pend ++ map raw tokens
    else attachedRun tokens.
Proof.
  induction tokens as [|t ts IH]; intros seenKeys pend.
  - simpl. rewrite app_nil_r. reflexivity.
  - destruct t as [r | r | r a].
    + change (indexFrom seenKeys pend (Blank r :: ts))
        with (indexFrom seenKeys (pend ++ [r]) ts).
      rewrite IH.
      change (forallb notAssignment (Blank r :: ts)) with (forallb notAssignment ts).
      change (attachedRun (Blank r :: ts)) with
        (if forallb notAssignment ts then map raw (Blank r :: ts) else attachedRun ts).
      destruct (forallb notAssignment ts); [|reflexivity].
      rewrite <- app_assoc. reflexivity.
    + change (indexFrom seenKeys pend (Comment r :: ts))
        with (indexFrom seenKeys (pend ++ [r]) ts).
      rewrite IH.
      change (forallb notAssignment (Comment r :: ts)) with (forallb notAssignment ts).
      change (attachedRun (Comment r :: ts)) with
        (if forallb notAssignment ts then map raw (Comment r :: ts) else attachedRun ts).
      destruct (forallb notAssignment ts); [|reflexivity].
      rewrite <- app_assoc. reflexivity.
    + change (forallb notAssignment (Assignment r a :: ts)) with false.
      change (attachedRun (Assignment r a :: ts)) with (attachedRun ts).
      assert (H : forall sk, snd (indexFrom sk [] ts) = attachedRun ts).
      { intros sk. rewrite IH. destruct (forallb notAssignment ts) eqn:E; [|reflexivity].
        rewrite attachedRun_all by assumption. reflexivity. }
      simpl. destruct (has seenKeys (key a)); [apply H|].
      specialize (H (key a :: seenKeys)).
      destruct (indexFrom (key a :: seenKeys) [] ts). exact H.
Qed.

Lemma buildKeyIndex_attachedRun (tokens : list token) :
  trailing (buildKeyIndexWithLeadingComments tokens) = attachedRun tokens.
Proof.
  destruct (buildKeyIndex_indexFrom tokens) as [_ Ht].
  rewrite Ht, indexFrom_trailing.
  destruct (forallb notAssignment tokens) eqn:E; [|reflexivity].
  rewrite attachedRun_all by assumption. reflexivity.
Qed.

Lemma buildKeyIndex_no_assignment (tokens : list token) :
  forallb notAssignment tokens = true ->
  trailing (buildKeyIndexWithLeadingComments tokens) = map raw tokens /\
  indexEntries (buildKeyIndexWithLeadingComments tokens) = [].
Proof.
  intros Hall. split.
  - rewrite buildKeyIndex_attachedRun. apply attachedRun_all; exact Hall.
  - destruct (buildKeyIndex_indexFrom tokens) as [He _]. rewrite He.
    clear - Hall. generalize (@nil str) at 2 as pend.
    induction tokens as [|t ts IH]; intros pend; [reflexivity|].
    destruct t as [r | r | r a]; simpl in Hall |- *; try discriminate;
      apply IH; exact Hall.
Qed.

(** X5: the trailing block returned by the key indexer is made of the raw
    lines of the blank and comment tokens that follow the last assignment
    token, in order; when the tokens hold no assignment it is made of the raw
    lines of all of them. *)
Theorem buildKeyIndex_trailing (tokens : list token) :
  trailing (buildKeyIndexWithLeadingComments tokens) = attachedRun tokens /\
  (forall pre r a post,
     tokens = pre ++ Assignment r a :: post ->
     forallb notAssignment post = true ->
     trailing (buildKeyIndexWithLeadingComments tokens) = map raw post) /\
  (forallb notAssignment tokens = true ->
   trailing (buildKeyIndexWithLeadingComments tokens) = map raw tokens /\
   indexEntries (buildKeyIndexWithLeadingComments tokens) = []).
Proof.
  pose proof (buildKeyIndex_attachedRun tokens) as Htr.
  split; [exact Htr|]. split.
  - intros pre r a post -> Hpost. rewrite Htr. clear - Hpost.
    induction pre as [|t pre IH].
    + simpl. rewrite (attachedRun_all post Hpost). reflexivity.
    + change (attachedRun ((t :: pre) ++ Assignment r a :: post)) with
        (if forallb notAssignment (t :: pre ++ Assignment r a :: post)
         then map raw (t :: pre ++ Assignment r a :: post)
         else attachedRun (pre ++ Assignment r a :: post)).
      replace (forallb notAssignment (t :: pre ++ Assignment r a :: post)) with false.
      * exact IH.
      * simpl. rewrite forallb_app. simpl. rewrite !andb_false_r. reflexivity.
  - apply buildKeyIndex_no_assignment.
Qed.

Lemma buildKeyIndex_trailing_witness :
  trailing (buildKeyIndexWithLeadingComments
              (tokenizeEnvFile (lit "# top" ++ LF ++ lit "A=1" ++ LF ++ lit "# end" ++ LF)))
  = [lit "# end"; []].
Proof.
  refine (eq_trans
    (proj1 (proj2 (buildKeyIndex_trailing
       (tokenizeEnvFile (lit "# top" ++ LF ++ lit "A=1" ++ LF ++ lit "# end" ++ LF))))
       [Comment (lit "# top")] (lit "A=1")
       (mkAssignment (lit "A") (lit "A") (lit "1"))
       [Comment (lit "# end"); Blank []] _ _) _);
    vm_compute; reflexivity.
Defined.

Lemma appendedBlock_cons (e : entry) (es : list entry) :
  appendedBlock (e :: es)
  = commentsBefore e ++ (entryKey e ++ lit "=") :: appendedBlock es.
Proof. unfold appendedBlock. simpl. rewrite <- app_assoc. reflexivity. Qed.

Lemma indexFrom_render (tokens : list token) :
  forall seenKeys pend,
  NoDup (assignmentKeys tokens) ->
  (forall k, In k (assignmentKeys tokens) -> has seenKeys k = false) ->
  appendedBlock (fst (indexFrom seenKeys pend tokens))
  ++ snd (indexFrom seenKeys pend tokens)
  = pend ++ map renderToken tokens.
Proof.
  induction tokens as [|t ts IH]; intros seenKeys pend Hnd Hs.
  - simpl. rewrite app_nil_r. reflexivity.
  - destruct t as [r | r | r a].
    + change (indexFrom seenKeys pend (Blank r :: ts))
        with (indexFrom seenKeys (pend ++ [r]) ts).
      rewrite (IH _ _ Hnd Hs), <- app_assoc. reflexivity.
    + change (indexFrom seenKeys pend (Comment r :: ts))
        with (indexFrom seenKeys (pend ++ [r]) ts).
      rewrite (IH _ _ Hnd Hs), <- app_assoc. reflexivity.
    + simpl in Hnd, Hs. inversion Hnd as [|x l Hnotin Hnd']; subst.
      simpl. rewrite (Hs (key a) (or_introl eq_refl)).
      assert (Hs' : forall k, In k (assignmentKeys ts) -> has (key a :: seenKeys) k = false).
      { intros k Hk. rewrite has_cons, (Hs k (or_intror Hk)), orb_false_r.
        destruct (str_eqb k (key a)) eqn:E; [|reflexivity].
        apply str_eqb_eq in E; subst. contradiction. }
      specialize (IH (key a :: seenKeys) [] Hnd' Hs').
      destruct (indexFrom (key a :: seenKeys) [] ts) as [es tr].
      cbn [fst snd] in IH |- *. rewrite appendedBlock_cons.
      cbn [entryKey commentsBefore]. rewrite <- app_assoc. simpl.
      rewrite IH. reflexivity.
Qed.

(** X6: when no key is assigned twice, the key indexer loses no line and
    keeps the order: the entries in order, each written as its comment and
    blank lines followed by [KEY=], and then the trailing block, are the
    tokens in order, each assignment written as [KEY=] and each other token
    as its raw line. *)
Theorem buildKeyIndex_keeps_all_lines (tokens : list token) :
  NoDup (assignmentKeys tokens) ->
  appendedBlock (indexEntries (buildKeyIndexWithLeadingComments tokens))
  ++ trailing (buildKeyIndexWithLeadingComments tokens)
  = map renderToken tokens.
Proof.
  intros Hnd. destruct (buildKeyIndex_indexFrom tokens) as [-> ->].
  apply (indexFrom_render tokens [] [] Hnd). reflexivity.
Qed.

Lemma buildKeyIndex_keeps_all_lines_witness :
  let tokens := tokenizeEnvFile
    (lit "# a" ++ LF ++ lit "A=1" ++ LF ++ LF ++ lit "# b" ++ LF ++ lit "B=2" ++ LF
     ++ lit "# end") in
  appendedBlock (indexEntries (buildKeyIndexWithLeadingComments tokens))
  ++ trailing (buildKeyIndexWithLeadingComments tokens)
  = [lit "# a"; lit "A="; []; lit "# b"; lit "B="; lit "# end"].
Proof.
  cbv zeta.
  refine (eq_trans (buildKeyIndex_keeps_all_lines _ _) _).
  - vm_compute. repeat constructor; simpl; intuition discriminate.
  - vm_compute; reflexivity.
Defined.

(** ** Template builder *)

Lemma sameLines_refl (a : list str) : sameLines a a = true.
Proof.
  induction a as [|x a IH]; [reflexivity|]. simpl. rewrite str_eqb_refl. exact IH.
Qed.

Lemma emitEntry_shift (leading l0 x : list str) (b : bool) (e : entry) :
  emitEntry leading (l0 ++ x, b) e
  = (l0 ++ fst (emitEntry leading (x, b) e), snd (emitEntry leading (x, b) e)).
Proof.
  unfold emitEntry. cbn [fst snd]. f_equal.
  destruct (nonEmpty (commentsBefore e));
    [destruct (negb b && nonEmpty leading);
       [destruct (sameLines leading (commentsBefore e))|]|];
    rewrite <- ?app_assoc; reflexivity.
Qed.

Lemma fold_emitEntry_shift (leading : list str) (es : list entry) :
  forall l0 x b,
  fst (fold_left (emitEntry leading) es (l0 ++ x, b))
  = l0 ++ fst (fold_left (emitEntry leading) es (x, b)).
Proof.
  induction es as [|e es IH]; intros l0 x b; [reflexivity|].
  cbn [fold_left]. rewrite emitEntry_shift.
  destruct (emitEntry leading (x, b) e) as [x' b']. cbn [fst snd]. apply IH.
Qed.

Lemma fold_emitEntry_processed (leading : list str) (es : list entry) :
  forall lines,
  fst (fold_left (emitEntry leading) es (lines, true)) = lines ++ appendedBlock es.
Proof.
  induction es as [|e es IH]; intros lines.
  - simpl. rewrite app_nil_r. reflexivity.
  - cbn [fold_left]. unfold emitEntry at 2. cbn [negb andb].
    rewrite appendedBlock_cons.
    destruct (commentsBefore e) as [|c cs] eqn:Ec; cbn [nonEmpty];
      rewrite IH, <- ?app_assoc; reflexivity.
Qed.

Lemma indexFrom_leading (lead rest : list token) :
  forallb notAssignment lead = true ->
  forall seenKeys pend,
  indexFrom seenKeys pend (lead ++ rest)
  = indexFrom seenKeys (pend ++ map raw lead) rest.
Proof.
  induction lead as [|t lead IH]; intros Hl seenKeys pend.
  - simpl. rewrite app_nil_r. reflexivity.
  - destruct t as [r | r | r a]; simpl in Hl; try discriminate.
    + change (indexFrom seenKeys pend ((Blank r :: lead) ++ rest))
        with (indexFrom seenKeys (pend ++ [r]) (lead ++ rest)).
      rewrite (IH Hl), <- app_assoc. reflexivity.
    + change (indexFrom seenKeys pend ((Comment r :: lead) ++ rest))
        with (indexFrom seenKeys (pend ++ [r]) (lead ++ rest)).
      rewrite (IH Hl), <- app_assoc. reflexivity.
Qed.

Lemma leadingBlock_leading (lead rest : list token) (r : str) (a : assignment) :
  forallb notAssignment lead = true ->
  leadingBlock (lead ++ Assignment r a :: rest) = map raw lead.
Proof.
  induction lead as [|t lead IH]; intros Hl; [reflexivity|].
  destruct t; simpl in Hl; try discriminate; simpl; rewrite (IH Hl); reflexivity.
Qed.

Lemma leadingBlock_all (tokens : list token) :
  forallb notAssignment tokens = true -> leadingBlock tokens = map raw tokens.
Proof.
  induction tokens as [|t ts IH]; intros Hl; [reflexivity|].
  destruct t; simpl in Hl; try discriminate; simpl; rewrite (IH Hl); reflexivity.
Qed.

Lemma first_assignment (tokens : list token) :
  forallb notAssignment tokens = false ->
  exists lead r a rest,
    tokens = lead ++ Assignment r a :: rest /\ forallb notAssignment lead = true.
Proof.
  induction tokens as [|t ts IH]; [discriminate|]. intros H.
  destruct t as [r | r | r a].
  - destruct (IH H) as (lead & r' & a & rest & -> & Hl).
    exists (Blank r :: lead), r', a, rest. split; [reflexivity | exact Hl].
  - destruct (IH H) as (lead & r' & a & rest & -> & Hl).
    exists (Comment r :: lead), r', a, rest. split; [reflexivity | exact Hl].
  - exists [], r, a, ts. split; reflexivity.
Qed.

Lemma map_render_leading (lead : list token) :
  forallb notAssignment lead = true -> map renderToken lead = map raw lead.
Proof.
  induction lead as [|t lead IH]; intros Hl; [reflexivity|].
  destruct t; simpl in Hl; try discriminate; simpl; rewrite (IH Hl); reflexivity.
Qed.

Lemma nonEmpty_id {A} (l : list A) : (if nonEmpty l then l else []) = l.
Proof. destruct l; reflexivity. Qed.

Lemma app_if_nonEmpty {A} (l t : list A) :
  (if nonEmpty t then l ++ t else l) = l ++ t.
Proof. destruct t; [rewrite app_nil_r|]; reflexivity. Qed.

Lemma uniqueKeyOrder_no_secondary (tokens : list token) :
  orderedEntries (uniqueKeyOrderFromTokens tokens [])
  = indexEntries (buildKeyIndexWithLeadingComments tokens) /\
  trailingSecondary (uniqueKeyOrderFromTokens tokens []) = [].
Proof. split; reflexivity. Qed.

(** X7: with a single source in which an assignment occurs and no key is
    assigned twice, the lines joined by the builder are the lines of the
    source, in order, with every assignment line replaced by [KEY=]: the
    leading comments are written once, and the lines after the last
    assignment (the empty last piece of a source that ends with a line feed
    among them) are kept. *)
Theorem buildExample_single_source (envContent : str) :
  NoDup (assignmentKeys (tokenizeEnvFile envContent)) ->
  forallb notAssignment (tokenizeEnvFile envContent) = false ->
  buildExampleLines envContent [] = map renderToken (tokenizeEnvFile envContent) /\
  buildExampleFromScratch envContent []
  = join_lines (map renderToken (tokenizeEnvFile envContent)) ++ LF.
Proof.
  intros Hnd Hasg.
  assert (Hlines : buildExampleLines envContent []
                   = map renderToken (tokenizeEnvFile envContent)).
  { unfold buildExampleLines.
    assert (Htok : tokensOfSource envContent = tokenizeEnvFile envContent).
    { destruct envContent; [discriminate Hasg | reflexivity]. }
    rewrite Htok. cbn [tokensOfSource].
    destruct (uniqueKeyOrder_no_secondary (tokenizeEnvFile envContent)) as [-> ->].
    assert (Htp : trailingPrimary (uniqueKeyOrderFromTokens (tokenizeEnvFile envContent) [])
                  = trailing (buildKeyIndexWithLeadingComments (tokenizeEnvFile envContent)))
      by reflexivity.
    rewrite Htp.
    destruct (buildKeyIndex_indexFrom (tokenizeEnvFile envContent)) as [-> ->].
    destruct (first_assignment _ Hasg) as (lead & r & a & rest & E & Hl).
    rewrite E in Hnd |- *.
    rewrite (indexFrom_leading lead (Assignment r a :: rest) Hl [] []).
    rewrite (leadingBlock_leading lead rest r a Hl).
    rewrite assignmentKeys_app in Hnd. apply NoDup_app_remove_l in Hnd.
    simpl in Hnd. inversion Hnd as [|x l Hnotin Hnd']; subst.
    assert (Hs : forall k, In k (assignmentKeys rest) -> has [key a] k = false).
    { intros k Hk. rewrite has_cons. simpl.
      destruct (str_eqb k (key a)) eqn:Ek; [|reflexivity].
      apply str_eqb_eq in Ek; subst. contradiction. }
    pose proof (indexFrom_render rest [key a] [] Hnd' Hs) as Hr.
    simpl indexFrom.
    destruct (indexFrom [key a] [] rest) as [es tr]. cbn [fst snd] in Hr |- *.
    rewrite !nonEmpty_id. cbn [fold_left].
    assert (Hfirst : emitEntry (map raw lead) (map raw lead, false)
                       (mkEntry (key a) (map raw lead))
                     = (map raw lead ++ [key a ++ lit "="], true)).
    { unfold emitEntry. cbn [commentsBefore entryKey negb andb].
      rewrite sameLines_refl. destruct (map raw lead); reflexivity. }
    rewrite Hfirst, fold_emitEntry_processed.
    rewrite app_if_nonEmpty.
    rewrite map_app, (map_render_leading lead Hl). simpl.
    rewrite <- !app_assoc. simpl. rewrite Hr. reflexivity. }
  split; [exact Hlines|].
  unfold buildExampleFromScratch. rewrite Hlines. reflexivity.
Qed.

Lemma buildExample_single_source_witness :
  buildExampleFromScratch
    (lit "# app" ++ LF ++ lit "export HOST=localhost" ++ LF ++ LF ++ lit "PORT=80") []
  = lit "# app" ++ LF ++ lit "HOST=" ++ LF ++ LF ++ lit "PORT=" ++ LF.
Proof.
  refine (eq_trans
    (proj2 (buildExample_single_source
       (lit "# app" ++ LF ++ lit "export HOST=localhost" ++ LF ++ LF ++ lit "PORT=80")
       _ _)) _).
  - vm_compute. repeat constructor; simpl; intuition discriminate.
  - vm_compute; reflexivity.
  - vm_compute; reflexivity.
Defined.

(** X8: when the primary source is not empty and holds no assignment, the
    builder writes its lines twice: once as the leading block, at the start,
    and once as the trailing block, at the end.  In between stand the lines
    for the keys of the secondary, in the order of its index: for each key
    its comment and blank lines and then [KEY=], except that the comment
    lines of the first key are left out when they are, line for line, the
    lines of the primary.  With no secondary content the lines are those of
    the primary, twice. *)
Theorem buildExample_source_without_assignment (envContent envLocalContent : str) :
  envContent <> [] ->
  forallb notAssignment (tokenizeEnvFile envContent) = true ->
  buildExampleLines envContent envLocalContent
  = split_lines envContent
    ++ match indexEntries (buildKeyIndexWithLeadingComments
                             (tokensOfSource envLocalContent)) with
       | [] => []
       | e :: es =>
           (if sameLines (split_lines envContent) (commentsBefore e) then []
            else commentsBefore e)
           ++ (entryKey e ++ lit "=") :: appendedBlock es
       end
    ++ split_lines envContent /\
  (envLocalContent = [] ->
   buildExampleLines envContent envLocalContent
   = split_lines envContent ++ split_lines envContent).
Proof.
  intros Hne Hall.
  assert (Hnon : nonEmpty (split_lines envContent) = true).
  { destruct (split_lines envContent) eqn:E; [|reflexivity].
    exfalso; exact (split_lines_nonempty envContent E). }
  assert (Hlines : buildExampleLines envContent envLocalContent
            = split_lines envContent
              ++ fst (fold_left (emitEntry (split_lines envContent))
                        (indexEntries (buildKeyIndexWithLeadingComments
                                         (tokensOfSource envLocalContent)))
                        ([], false))
              ++ split_lines envContent).
  { unfold buildExampleLines.
    assert (Htok : tokensOfSource envContent = tokenizeEnvFile envContent)
      by (destruct envContent; [congruence | reflexivity]).
    rewrite Htok, (leadingBlock_all _ Hall), raw_tokenizeEnvFile.
    destruct (buildKeyIndex_no_assignment _ Hall) as [Htr Hen].
    rewrite orderedEntries_eq, Hen. cbn [app].
    assert (Htp : trailingPrimary (uniqueKeyOrderFromTokens (tokenizeEnvFile envContent)
                                     (tokensOfSource envLocalContent))
                  = split_lines envContent).
    { change (trailingPrimary (uniqueKeyOrderFromTokens (tokenizeEnvFile envContent)
                                 (tokensOfSource envLocalContent)))
        with (trailing (buildKeyIndexWithLeadingComments (tokenizeEnvFile envContent))).
      rewrite Htr. apply raw_tokenizeEnvFile. }
    rewrite Htp, Hnon.
    assert (Hkeys : assignmentKeys (tokenizeEnvFile envContent) = []).
    { clear - Hall. induction (tokenizeEnvFile envContent) as [|t ts IH]; [reflexivity|].
      destruct t; simpl in Hall; try discriminate; simpl; apply IH; exact Hall. }
    rewrite Hkeys.
    rewrite (filter_all_true _ _ (fun e => eq_refl)).
    rewrite Hnon.
    pose proof (fold_emitEntry_shift (split_lines envContent)
                  (indexEntries (buildKeyIndexWithLeadingComments
                                   (tokensOfSource envLocalContent)))
                  (split_lines envContent) [] false) as Hshift.
    rewrite app_nil_r in Hshift. rewrite Hshift, <- app_assoc. reflexivity. }
  split.
  - rewrite Hlines. do 2 f_equal.
    destruct (indexEntries (buildKeyIndexWithLeadingComments
                              (tokensOfSource envLocalContent))) as [|e es];
      [reflexivity|].
    cbn [fold_left].
    assert (Hfirst : emitEntry (split_lines envContent) ([], false) e
              = ((if sameLines (split_lines envContent) (commentsBefore e) then []
                  else commentsBefore e) ++ [entryKey e ++ lit "="], true)).
    { unfold emitEntry. cbn [negb andb]. rewrite Hnon.
      destruct (commentsBefore e) as [|c cs] eqn:Ec; cbn [nonEmpty].
      - destruct (sameLines (split_lines envContent) []); reflexivity.
      - destruct (sameLines (split_lines envContent) (c :: cs)); reflexivity. }
    rewrite Hfirst, fold_emitEntry_processed, <- app_assoc. reflexivity.
  - intros ->. rewrite Hlines. reflexivity.
Qed.

Lemma buildExample_source_without_assignment_witness :
  buildExampleLines (lit "# config") (lit "# config" ++ LF ++ lit "A=1" ++ LF ++ lit "# b"
                                      ++ LF ++ lit "B=2")
  = [lit "# config"; lit "A="; lit "# b"; lit "B="; lit "# config"] /\
  buildExampleLines (lit "# nothing yet") []
  = [lit "# nothing yet"; lit "# nothing yet"].
Proof.
  split.
  - refine (eq_trans
      (proj1 (buildExample_source_without_assignment (lit "# config")
                (lit "# config" ++ LF ++ lit "A=1" ++ LF ++ lit "# b" ++ LF ++ lit "B=2")
                _ _)) _);
      [discriminate | vm_compute; reflexivity | vm_compute; reflexivity].
  - refine (eq_trans
      (proj2 (buildExample_source_without_assignment (lit "# nothing yet") [] _ _)
         eq_refl) _);
      [discriminate | vm_compute; reflexivity | vm_compute; reflexivity].
Defined.

(** ** Unknown-key annotator *)

Lemma withWarnings_snoc (original output : list str) (l : str) :
  withWarnings original output -> withWarnings (original ++ [l]) (output ++ [l]).
Proof.
  induction 1; simpl; [repeat constructor | constructor | constructor]; assumption.
Qed.

Lemma withWarnings_snoc_warning (original output : list str) :
  withWarnings original output ->
  withWarnings original (output ++ [WARNING_MISSING_IN_SOURCES]).
Proof.
  induction 1; simpl; [repeat constructor | constructor | constructor]; assumption.
Qed.

Lemma withWarnings_length (original output : list str) :
  withWarnings original output -> List.length original <= List.length output.
Proof. induction 1; simpl; lia. Qed.

Lemma withWarnings_same_length (original output : list str) :
  withWarnings original output ->
  List.length output = List.length original -> output = original.
Proof.
  induction 1 as [| l o out H IH | o out H IH]; intros Hlen.
  - reflexivity.
  - simpl in Hlen. rewrite IH by lia. reflexivity.
  - apply withWarnings_length in H. simpl in Hlen. lia.
Qed.

(** The two results of one step of the annotator. *)
Lemma markStep_cases (presentKeys output : list str) (line : str) :
  markStep presentKeys output line
  = if unknownLine presentKeys line && negb (prevIsWarning output)
    then output ++ [WARNING_MISSING_IN_SOURCES; line]
    else output ++ [line].
Proof.
  unfold markStep, unknownLine.
  destruct (parsedWithKey line) as [a|]; [|reflexivity].
  destruct (has presentKeys (key a)); [reflexivity|].
  destruct (prevIsWarning output); simpl; [reflexivity|].
  rewrite <- app_assoc. reflexivity.
Qed.

Lemma fold_markStep_withWarnings (presentKeys : list str) (lines : list str) :
  forall original output,
  withWarnings original output ->
  withWarnings (original ++ lines) (fold_left (markStep presentKeys) lines output).
Proof.
  induction lines as [|l lines IH]; intros original output H.
  - simpl. rewrite app_nil_r. exact H.
  - cbn [fold_left].
    replace (original ++ l :: lines) with ((original ++ [l]) ++ lines)
      by (rewrite <- app_assoc; reflexivity).
    apply IH. rewrite markStep_cases.
    destruct (unknownLine presentKeys l && negb (prevIsWarning output)).
    + replace (output ++ [WARNING_MISSING_IN_SOURCES; l])
        with ((output ++ [WARNING_MISSING_IN_SOURCES]) ++ [l])
        by (rewrite <- app_assoc; reflexivity).
      apply withWarnings_snoc, withWarnings_snoc_warning, H.
    + apply withWarnings_snoc, H.
Qed.

(** X9: the annotator only inserts warning lines.  The lines it joins are
    the lines of the template, all of them, unaltered and in their order,
    with lines equal to the warning put between them; in particular the
    lines other than the warning are the same before and after. *)
Theorem markUnknown_only_inserts_warnings (exampleContent envContent envLocalContent : str) :
  withWarnings (split_lines exampleContent)
               (markUnknownLines exampleContent envContent envLocalContent) /\
  filter (fun l => negb (isWarning l))
         (markUnknownLines exampleContent envContent envLocalContent)
  = filter (fun l => negb (isWarning l)) (split_lines exampleContent).
Proof.
  assert (H : withWarnings (split_lines exampleContent)
                (markUnknownLines exampleContent envContent envLocalContent)).
  { unfold markUnknownLines.
    apply (fold_markStep_withWarnings _ (split_lines exampleContent) [] []).
    constructor. }
  split; [exact H|].
  induction H as [| l o out H IH | o out H IH]; cbn [filter].
  - reflexivity.
  - rewrite IH. reflexivity.
  - replace (isWarning WARNING_MISSING_IN_SOURCES) with true
      by (symmetry; apply str_eqb_refl).
    exact IH.
Qed.

Lemma fold_markStep_known (presentKeys : list str) (lines : list str) :
  forallb (fun l => negb (unknownLine presentKeys l)) lines = true ->
  forall output, fold_left (markStep presentKeys) lines output = output ++ lines.
Proof.
  induction lines as [|l lines IH]; intros H output.
  - simpl. rewrite app_nil_r. reflexivity.
  - simpl in H. apply andb_true_iff in H as [Hl Hr]. cbn [fold_left].
    rewrite markStep_cases. apply negb_true_iff in Hl. rewrite Hl. simpl.
    rewrite (IH Hr), <- app_assoc. reflexivity.
Qed.

(** X10: when every line of the template that yields a key yields a key
    assigned in a source, the annotator inserts nothing: its result is the
    template with line feeds for all line endings and exactly one line feed
    in place of the line feeds that end it. *)
Theorem markUnknown_all_known (exampleContent envContent envLocalContent : str) :
  forallb (fun l => negb (unknownLine (presentKeysOf envContent envLocalContent) l))
          (split_lines exampleContent) = true ->
  markUnknownLines exampleContent envContent envLocalContent
  = split_lines exampleContent /\
  markUnknownKeysInExample exampleContent envContent envLocalContent
  = replace_trailing_newlines (crlf_to_lf exampleContent).
Proof.
  intros H.
  assert (Hl : markUnknownLines exampleContent envContent envLocalContent
               = split_lines exampleContent).
  { unfold markUnknownLines. rewrite (fold_markStep_known _ _ H). reflexivity. }
  split; [exact Hl|].
  unfold markUnknownKeysInExample. rewrite Hl, join_split_lines. reflexivity.
Qed.

Lemma markUnknown_all_known_witness :
  markUnknownKeysInExample
    (lit "# keys" ++ CRLF ++ lit "A=" ++ CRLF ++ lit "B=" ++ LF ++ LF ++ LF)
    (lit "A=1") (lit "B=2")
  = lit "# keys" ++ LF ++ lit "A=" ++ LF ++ lit "B=" ++ LF.
Proof.
  refine (eq_trans
    (proj2 (markUnknown_all_known
       (lit "# keys" ++ CRLF ++ lit "A=" ++ CRLF ++ lit "B=" ++ LF ++ LF ++ LF)
       (lit "A=1") (lit "B=2") _)) _);
    vm_compute; reflexivity.
Defined.

Lemma warning_not_blank : isBlankLine WARNING_MISSING_IN_SOURCES = false.
Proof. reflexivity. Qed.

Lemma warning_not_unknown (presentKeys : list str) :
  unknownLine presentKeys WARNING_MISSING_IN_SOURCES = false.
Proof. reflexivity. Qed.

Lemma prevIsWarning_after_warning (output : list str) :
  prevIsWarning (output ++ [WARNING_MISSING_IN_SOURCES]) = true.
Proof.
  unfold prevIsWarning. rewrite rev_app_distr. simpl rev. cbn [app].
  cbn [skipBlankLines]. rewrite warning_not_blank. apply str_eqb_refl.
Qed.

Lemma firstn_app_exact {A} (l1 l2 : list A) :
  firstn (List.length l1) (l1 ++ l2) = l1.
Proof.
  rewrite firstn_app, Nat.sub_diag, firstn_all. simpl. apply app_nil_r.
Qed.

Lemma allMarked_snoc (presentKeys output : list str) (l : str) :
  allMarked presentKeys output ->
  (unknownLine presentKeys l = true -> prevIsWarning output = true) ->
  allMarked presentKeys (output ++ [l]).
Proof.
  intros Hall Hl n x Hn Hx.
  destruct (Nat.lt_ge_cases n (List.length output)) as [Hlt | Hge].
  - rewrite nth_error_app1 in Hn by assumption.
    rewrite firstn_app. replace (n - List.length output) with 0 by lia.
    simpl. rewrite app_nil_r. apply (Hall n x Hn Hx).
  - rewrite nth_error_app2 in Hn by assumption.
    destruct (n - List.length output) as [|k] eqn:E.
    + injection Hn as <-. replace n with (List.length output) by lia.
      rewrite firstn_app_exact. apply Hl; exact Hx.
    + destruct k; discriminate.
Qed.

Lemma fold_markStep_allMarked (presentKeys : list str) (lines : list str) :
  forall output,
  allMarked presentKeys output ->
  allMarked presentKeys (fold_left (markStep presentKeys) lines output).
Proof.
  induction lines as [|l lines IH]; intros output H; [exact H|].
  cbn [fold_left]. apply IH. rewrite markStep_cases.
  destruct (unknownLine presentKeys l) eqn:Hu; simpl.
  - destruct (prevIsWarning output) eqn:Hp; simpl.
    + apply allMarked_snoc; [exact H | intros _; exact Hp].
    + replace (output ++ [WARNING_MISSING_IN_SOURCES; l])
        with ((output ++ [WARNING_MISSING_IN_SOURCES]) ++ [l])
        by (rewrite <- app_assoc; reflexivity).
      apply allMarked_snoc.
      * apply allMarked_snoc; [exact H|].
        rewrite warning_not_unknown. discriminate.
      * intros _. apply prevIsWarning_after_warning.
  - apply allMarked_snoc; [exact H | congruence].
Qed.

(** X11: in the lines joined by the annotator, every line taken for an
    assignment of a key that is in neither source has the warning as the
    nearest line above it that is not blank. *)
Theorem markUnknown_marks_every_unknown
  (exampleContent envContent envLocalContent : str) (n : nat) (line : str) :
  nth_error (markUnknownLines exampleContent envContent envLocalContent) n = Some line ->
  unknownLine (presentKeysOf envContent envLocalContent) line = true ->
  prevIsWarning (firstn n (markUnknownLines exampleContent envContent envLocalContent))
  = true.
Proof.
  apply (fold_markStep_allMarked (presentKeysOf envContent envLocalContent)
           (split_lines exampleContent) []).
  intros k l Hk. destruct k; discriminate.
Qed.

Lemma markUnknown_marks_every_unknown_witness :
  markUnknownLines (lit "A=" ++ LF ++ lit "OLD=" ++ LF ++ LF ++ lit "GONE=") (lit "A=1") []
  = [lit "A="; WARNING_MISSING_IN_SOURCES; lit "OLD="; [];
     WARNING_MISSING_IN_SOURCES; lit "GONE="] /\
  prevIsWarning
    (firstn 5 (markUnknownLines (lit "A=" ++ LF ++ lit "OLD=" ++ LF ++ LF ++ lit "GONE=")
                 (lit "A=1") []))
  = true.
Proof.
  split; [vm_compute; reflexivity|].
  refine (markUnknown_marks_every_unknown
            (lit "A=" ++ LF ++ lit "OLD=" ++ LF ++ LF ++ lit "GONE=") (lit "A=1") []
            5 (lit "GONE=") _ _); vm_compute; reflexivity.
Defined.

Lemma withWarnings_refl (l : list str) : withWarnings l l.
Proof. induction l; constructor; assumption. Qed.

Lemma withWarnings_Forall (P : str -> Prop) (original output : list str) :
  withWarnings original output -> P WARNING_MISSING_IN_SOURCES ->
  Forall P original -> Forall P output.
Proof.
  induction 1 as [| l o out H IH | o out H IH]; intros Hw Ho.
  - constructor.
  - inversion Ho; subst. constructor; [assumption | apply IH; assumption].
  - constructor; [exact Hw | apply IH; assumption].
Qed.

Lemma fold_markStep_fixed (presentKeys : list str) (lines : list str) :
  let output := fold_left (markStep presentKeys) lines [] in
  fold_left (markStep presentKeys) output [] = output.
Proof.
  cbv zeta. induction lines as [|l lines IH] using rev_ind; [reflexivity|].
  rewrite fold_left_app. cbn [fold_left].
  set (output := fold_left (markStep presentKeys) lines []) in *.
  rewrite (markStep_cases presentKeys output l).
  destruct (unknownLine presentKeys l && negb (prevIsWarning output)) eqn:E.
  - rewrite fold_left_app, IH. cbn [fold_left].
    rewrite (markStep_cases presentKeys output WARNING_MISSING_IN_SOURCES).
    rewrite warning_not_unknown. cbn [andb].
    rewrite markStep_cases, prevIsWarning_after_warning, andb_false_r.
    rewrite <- app_assoc. reflexivity.
  - rewrite fold_left_app, IH. cbn [fold_left].
    rewrite markStep_cases, E. reflexivity.
Qed.

Lemma fold_markStep_prefix_fixed (presentKeys : list str) (a b : list str) :
  fold_left (markStep presentKeys) (a ++ b) [] = a ++ b ->
  fold_left (markStep presentKeys) a [] = a.
Proof.
  intros H. rewrite fold_left_app in H.
  pose proof (fold_markStep_withWarnings presentKeys a [] [] ww_nil) as Ha.
  cbn [app] in Ha.
  pose proof (fold_markStep_withWarnings presentKeys b _ _
                (withWarnings_refl (fold_left (markStep presentKeys) a []))) as Hb.
  rewrite H in Hb. apply withWarnings_length in Hb.
  pose proof (withWarnings_length _ _ Ha) as Hle.
  apply (withWarnings_same_length _ _ Ha).
  rewrite !length_app in Hb. lia.
Qed.

Lemma split_lines_noLF (s : str) : Forall (fun l => noLF l = true) (split_lines s).
Proof.
  induction s as [| c | c d r IHr IHdr] using str_ind2.
  - repeat constructor.
  - simpl. destruct (is_lf c) eqn:E; repeat constructor.
    unfold noLF. simpl. rewrite E. reflexivity.
  - change (split_lines (c :: d :: r)) with
      (if is_lf c then [] :: split_lines (d :: r)
       else if is_cr c && is_lf d then [] :: split_lines r
       else push_front c (split_lines (d :: r))).
    destruct (is_lf c) eqn:Ec; [constructor; [reflexivity | exact IHdr]|].
    destruct (is_cr c && is_lf d); [constructor; [reflexivity | exact IHr]|].
    destruct (split_lines (d :: r)) as [|h t]; [repeat constructor|].
    + unfold noLF. simpl. rewrite Ec. reflexivity.
    + inversion IHdr; subst. constructor; [|assumption].
      unfold noLF in *. simpl. rewrite Ec. assumption.
Qed.

Lemma split_lines_one_line (l : str) : noLF l = true -> split_lines l = [l].
Proof.
  induction l as [|c l IH]; intros H; [reflexivity|].
  unfold noLF in H. simpl in H. apply andb_true_iff in H as [Hc Hl].
  apply negb_true_iff in Hc.
  rewrite split_lines_cons_other; [rewrite (IH Hl); reflexivity | exact Hc |].
  intros d r' ->. simpl in Hl. apply andb_true_iff in Hl as [Hd _].
  apply negb_true_iff in Hd. rewrite Hd. apply andb_false_r.
Qed.

Lemma endsWithCR_cons (c d : char) (l : str) :
  endsWithCR (c :: d :: l) = endsWithCR (d :: l).
Proof.
  unfold endsWithCR. simpl rev.
  destruct (rev l ++ [d]) as [|x xs] eqn:E; [destruct (rev l); discriminate|].
  reflexivity.
Qed.

Lemma split_lines_line_then (l rest : str) :
  cleanLine l = true -> split_lines (l ++ LF ++ rest) = l :: split_lines rest.
Proof.
  induction l as [|c l IH]; intros H; [reflexivity|].
  unfold cleanLine, noLF in H. apply andb_true_iff in H as [Hn He].
  simpl in Hn. apply andb_true_iff in Hn as [Hc Hl]. apply negb_true_iff in Hc.
  change ((c :: l) ++ LF ++ rest) with (c :: (l ++ LF ++ rest)).
  rewrite split_lines_cons_other; [| exact Hc |].
  - rewrite IH; [reflexivity|].
    unfold cleanLine, noLF. rewrite Hl. simpl.
    destruct l as [|d l]; [reflexivity|]. rewrite <- (endsWithCR_cons c). exact He.
  - intros d r' E. destruct l as [|x l].
    + simpl in E. injection E as <- _.
      unfold endsWithCR in He. simpl in He. apply negb_true_iff in He.
      rewrite He. reflexivity.
    + simpl in E. injection E as <- _. simpl in Hl.
      apply andb_true_iff in Hl as [Hx _]. apply negb_true_iff in Hx.
      rewrite Hx. apply andb_false_r.
Qed.

Lemma split_join_lines (ls : list str) :
  ls <> [] -> Forall (fun l => cleanLine l = true) ls ->
  split_lines (join_lines ls) = ls.
Proof.
  induction ls as [|l ls IH]; intros Hne Hc; [congruence|].
  inversion Hc as [|x xs Hl Hls]; subst.
  destruct ls as [|l2 ls].
  - simpl. apply split_lines_one_line.
    unfold cleanLine in Hl. apply andb_true_iff in Hl as [Hl _]. exact Hl.
  - rewrite join_lines_cons by discriminate.
    rewrite (split_lines_line_then l _ Hl). rewrite IH; [reflexivity | discriminate | exact Hls].
Qed.

Lemma replace_trailing_all_lf (b : str) :
  forallb is_lf b = true -> replace_trailing_newlines b = LF.
Proof.
  destruct b as [|c b]; [reflexivity|]. intros H.
  unfold replace_trailing_newlines. rewrite H. reflexivity.
Qed.

Lemma replace_trailing_keep (a : str) (c : char) (b : str) :
  is_lf c = false ->
  replace_trailing_newlines (a ++ c :: b) = a ++ c :: replace_trailing_newlines b.
Proof.
  intros Hc. induction a as [|x a IH].
  - simpl. rewrite Hc. reflexivity.
  - change (replace_trailing_newlines ((x :: a) ++ c :: b)) with
      (if forallb is_lf (x :: a ++ c :: b) then LF
       else x :: replace_trailing_newlines (a ++ c :: b)).
    replace (forallb is_lf (x :: a ++ c :: b)) with false.
    + rewrite IH. reflexivity.
    + simpl. rewrite forallb_app. simpl. rewrite Hc, !andb_false_r. reflexivity.
Qed.

Lemma joinedAfter_empty_lines (n : nat) :
  forallb is_lf (joinedAfter (repeat [] n)) = true.
Proof. induction n as [|n IH]; [reflexivity | exact IH]. Qed.

Lemma join_empty_lines (n : nat) : forallb is_lf (join_lines (repeat [] n)) = true.
Proof.
  destruct n as [|n]; [reflexivity|].
  change (repeat [] (S n)) with (@nil char :: repeat [] n).
  rewrite join_lines_head. apply joinedAfter_empty_lines.
Qed.

Lemma empty_tail_decompose (output : list str) :
  (exists n, output = repeat [] n) \/
  (exists body l n, output = body ++ l :: repeat [] n /\ l <> []).
Proof.
  induction output as [|x output IH]; [left; exists 0; reflexivity|].
  destruct IH as [[n ->] | (body & l & n & -> & Hl)].
  - destruct x as [|c x].
    + left; exists (S n); reflexivity.
    + right; exists [], (c :: x), n. split; [reflexivity | discriminate].
  - right; exists (x :: body), l, n. split; [reflexivity | exact Hl].
Qed.

Lemma last_char_not_lf (l : str) :
  l <> [] -> noLF l = true -> exists l' c, l = l' ++ [c] /\ is_lf c = false.
Proof.
  intros Hne Hn. destruct (exists_last Hne) as (l' & c & ->).
  exists l', c. split; [reflexivity|].
  unfold noLF in Hn. rewrite forallb_app in Hn. simpl in Hn.
  apply andb_true_iff in Hn as [_ Hc]. rewrite andb_true_r in Hc.
  apply negb_true_iff in Hc. exact Hc.
Qed.

(** The annotated text when the joined lines are a non-empty line followed
    by empty lines: the lines up to that line, and one line feed. *)
Lemma replace_trailing_join (body : list str) (l : str) (n : nat) :
  l <> [] -> noLF l = true ->
  replace_trailing_newlines (join_lines (body ++ l :: repeat [] n))
  = join_lines (body ++ [l]) ++ LF.
Proof.
  intros Hne Hn. destruct (last_char_not_lf l Hne Hn) as (l' & c & -> & Hc).
  rewrite !join_lines_around. simpl joinedAfter. rewrite app_nil_r.
  rewrite <- !app_assoc. simpl.
  replace (joinedBefore body ++ l' ++ c :: joinedAfter (repeat [] n))
    with ((joinedBefore body ++ l') ++ c :: joinedAfter (repeat [] n))
    by (rewrite <- app_assoc; reflexivity).
  rewrite (replace_trailing_keep _ c _ Hc).
  rewrite (replace_trailing_all_lf _ (joinedAfter_empty_lines n)).
  rewrite <- app_assoc. reflexivity.
Qed.

Lemma join_lines_snoc_empty (ls : list str) :
  ls <> [] -> join_lines (ls ++ [[]]) = join_lines ls ++ LF.
Proof.
  intros Hne. destruct (exists_last Hne) as (body & l & ->).
  rewrite <- app_assoc. simpl. rewrite !join_lines_around. simpl.
  rewrite !app_nil_r, <- app_assoc. reflexivity.
Qed.

(** X12: the annotator applied to its own result returns it unchanged, for
    every template of which no line ends with a carriage return once the
    content is split at line feeds and at carriage-return line-feed pairs
    (so for every template with line-feed or carriage-return line-feed
    endings and no other carriage return at the end of a line). *)
Theorem markUnknown_idempotent (exampleContent envContent envLocalContent : str) :
  forallb (fun l => negb (endsWithCR l)) (split_lines exampleContent) = true ->
  markUnknownKeysInExample
    (markUnknownKeysInExample exampleContent envContent envLocalContent)
    envContent envLocalContent
  = markUnknownKeysInExample exampleContent envContent envLocalContent.
Proof.
  intros Hcr.
  set (pk := presentKeysOf envContent envLocalContent).
  assert (Hmark : forall ex, markUnknownKeysInExample ex envContent envLocalContent
            = replace_trailing_newlines
                (join_lines (fold_left (markStep pk) (split_lines ex) []))) by reflexivity.
  set (output := fold_left (markStep pk) (split_lines exampleContent) []).
  assert (Hww : withWarnings (split_lines exampleContent) output)
    by (apply (fold_markStep_withWarnings pk (split_lines exampleContent) [] []);
        constructor).
  assert (Hclean : Forall (fun l => cleanLine l = true) output).
  { apply (withWarnings_Forall _ _ _ Hww); [reflexivity|].
    pose proof (split_lines_noLF exampleContent) as Hn.
    rewrite forallb_forall in Hcr. rewrite Forall_forall in Hn |- *.
    intros l Hl. unfold cleanLine. rewrite (Hn l Hl), (Hcr l Hl). reflexivity. }
  assert (Hfix : fold_left (markStep pk) output [] = output)
    by apply (fold_markStep_fixed pk (split_lines exampleContent)).
  assert (Hnil : unknownLine pk [] = false) by reflexivity.
  rewrite (Hmark exampleContent). fold output.
  destruct (empty_tail_decompose output) as [[n Hout] | (body & l & n & Hout & Hl)].
  - rewrite Hout. rewrite_plain (replace_trailing_all_lf _ (join_empty_lines n)).
    rewrite_plain (Hmark LF). reflexivity.
  - assert (Hbl : Forall (fun l => cleanLine l = true) (body ++ [l])).
    { rewrite Hout in Hclean. apply Forall_app in Hclean as [Hb Hr].
      inversion Hr; subst. apply Forall_app. split; [assumption|].
      constructor; [assumption | constructor]. }
    assert (Hn : noLF l = true).
    { apply Forall_app in Hbl as [_ Hr]. inversion Hr as [|x xs Hx _]; subst.
      unfold cleanLine in Hx. apply andb_true_iff in Hx as [Hx _]. exact Hx. }
    assert (Hne : body ++ [l] <> []) by (destruct body; discriminate).
    assert (Hpre : fold_left (markStep pk) (body ++ [l]) [] = body ++ [l]).
    { apply (fold_markStep_prefix_fixed pk (body ++ [l]) (repeat [] n)).
      rewrite <- app_assoc. cbn [app]. rewrite <- Hout. exact Hfix. }
    assert (Hsplit : split_lines (join_lines (body ++ [l]) ++ LF) = (body ++ [l]) ++ [[]]).
    { rewrite <- (join_lines_snoc_empty _ Hne). apply split_join_lines.
      - destruct body; discriminate.
      - apply Forall_app; split; [exact Hbl | repeat constructor]. }
    assert (Hlast : replace_trailing_newlines (join_lines (body ++ [l]) ++ LF)
                    = join_lines (body ++ [l]) ++ LF).
    { destruct (last_char_not_lf l Hl Hn) as (l' & c & -> & Hc).
      rewrite join_lines_around. simpl joinedAfter. rewrite app_nil_r.
      rewrite <- !app_assoc. simpl.
      replace (joinedBefore body ++ l' ++ c :: LF)
        with ((joinedBefore body ++ l') ++ c :: LF)
        by (rewrite <- app_assoc; reflexivity).
      rewrite (replace_trailing_keep _ c LF Hc). reflexivity. }
    rewrite Hout. rewrite_plain (replace_trailing_join body l n Hl Hn).
    rewrite_plain (Hmark (join_lines (body ++ [l]) ++ LF)).
    rewrite_plain Hsplit.
    rewrite fold_left_app. cbn [fold_left].
    rewrite_plain Hpre. rewrite markStep_cases.
    rewrite_plain Hnil. cbn [andb].
    rewrite_plain (join_lines_snoc_empty _ Hne).
    rewrite_plain Hlast. reflexivity.
Qed.

Lemma markUnknown_idempotent_witness :
  let once := markUnknownKeysInExample
    (lit "A=" ++ CRLF ++ lit "OLD=x  " ++ CRLF ++ CRLF) (lit "A=1") [] in
  once = lit "A=" ++ LF ++ WARNING_MISSING_IN_SOURCES ++ LF ++ lit "OLD=x  " ++ LF /\
  markUnknownKeysInExample once (lit "A=1") [] = once.
Proof.
  cbv zeta. split; [vm_compute; reflexivity|].
  refine (markUnknown_idempotent
            (lit "A=" ++ CRLF ++ lit "OLD=x  " ++ CRLF ++ CRLF) (lit "A=1") [] _).
  vm_compute; reflexivity.
Defined.

(** ** The line written for a key *)

Lemma is_space_not_special (c : char) :
  is_space c = true -> N.eqb c 39 = false /\ N.eqb c 34 = false /\ N.eqb c 61 = false.
Proof.
  intros H. repeat split.
  - destruct (N.eqb c 39) eqn:E; [|reflexivity].
    apply N.eqb_eq in E; subst; discriminate.
  - destruct (N.eqb c 34) eqn:E; [|reflexivity].
    apply N.eqb_eq in E; subst; discriminate.
  - destruct (N.eqb c 61) eqn:E; [|reflexivity].
    apply N.eqb_eq in E; subst; discriminate.
Qed.

Lemma scanEquals_skip_space (l : str) :
  forallb is_space l = true ->
  forall inSingle inDouble i w,
  scanEquals inSingle inDouble i (l ++ w)
  = scanEquals inSingle inDouble (i + List.length l) w.
Proof.
  induction l as [|c l IH]; intros Hl s d i w.
  - simpl. rewrite Nat.add_0_r. reflexivity.
  - simpl in Hl. apply andb_true_iff in Hl as [Hc Hl].
    destruct (is_space_not_special c Hc) as (H39 & H34 & H61).
    simpl. rewrite H39, H34, H61. simpl. rewrite (IH Hl).
    f_equal. lia.
Qed.

Lemma scanEquals_at_equals (inSingle inDouble : bool) (i : nat) (v : str) :
  scanEquals inSingle inDouble i (61%N :: v) = Some i ->
  inSingle = false /\ inDouble = false.
Proof.
  simpl. destruct inSingle, inDouble; simpl; intros H; try (split; reflexivity);
    apply scanEquals_ge in H; lia.
Qed.

Lemma scanEquals_without_trailing_space (k r : str) :
  forallb is_space r = true ->
  forall inSingle inDouble i v j,
  scanEquals inSingle inDouble i (k ++ r ++ 61%N :: v)
  = Some (i + List.length k + List.length r) ->
  scanEquals inSingle inDouble j (k ++ [61%N]) = Some (j + List.length k).
Proof.
  intros Hr. induction k as [|c k IH]; intros s d i v j H.
  - simpl in H |- *. rewrite (scanEquals_skip_space r Hr) in H.
    rewrite Nat.add_0_r in H.
    destruct (scanEquals_at_equals _ _ _ _ H) as [-> ->].
    simpl. f_equal. lia.
  - simpl in H |- *.
    replace (i + S (List.length k) + List.length r)
      with (S i + List.length k + List.length r) in H by lia.
    replace (j + S (List.length k)) with (S j + List.length k) by lia.
    destruct (N.eqb c 39 && negb d); [apply (IH _ _ _ _ _ H)|].
    destruct (N.eqb c 34 && negb s); [apply (IH _ _ _ _ _ H)|].
    destruct (N.eqb c 61 && negb s && negb d); [injection H as H; lia|].
    apply (IH _ _ _ _ _ H).
Qed.

Lemma drop_space_no_change (s : str) :
  match s with
  | [] => True
  | c :: _ => is_space c = false
  end -> drop_space s = s.
Proof. destruct s as [|c s]; [reflexivity|]. intros H. simpl. rewrite H. reflexivity. Qed.

Lemma trim_idempotent (s : str) : trim (trim s) = trim s.
Proof.
  unfold trim at 1. rewrite drop_space_no_change.
  - unfold trim. apply rstrip_idempotent.
  - destruct (trim s) as [|c t] eqn:E; [exact I|].
    apply (proj1 (trim_ends s) c t E).
Qed.

(** X13: the line [KEY=] that the builder and the patcher write for the key
    of an assignment token is read back by the tokenizer as an assignment of
    the same key with an empty value, provided that the written line is not
    a comment line (the key does not start with [#]) and has no export
    prefix to strip (the key does not start with [export] and white
    space). *)
Theorem written_key_line_roundtrip (line : str) (a : assignment) :
  classifyLine line = Assignment line a ->
  isCommentLine (key a ++ lit "=") = false ->
  stripExportPrefix (key a ++ lit "=") = key a ++ lit "=" ->
  classifyLine (key a ++ lit "=")
  = Assignment (key a ++ lit "=") (mkAssignment (key a) (key a) []).
Proof.
  intros Hcl Hcomment Hexport.
  unfold classifyLine in Hcl.
  destruct (isBlankLine line); [discriminate|].
  destruct (isCommentLine line); [discriminate|].
  destruct (parsedWithKey line) as [a'|] eqn:Hp; [|discriminate].
  injection Hcl as ->.
  unfold parsedWithKey in Hp.
  destruct (parseAssignment line) as [a'|] eqn:Hpa; [|discriminate].
  destruct (key a') as [|k0 ks] eqn:Hk; [discriminate|]. injection Hp as ->.
  pose proof (parseAssignment_key line a Hpa) as Hkey.
  unfold parseAssignment, findUnquotedEqualsIndex in Hpa.
  destruct (scanEquals false false 0 (stripExportPrefix line)) as [idx|] eqn:Hs;
    [|discriminate].
  destruct (scanEquals_value _ _ _ _ _ Hs) as (rk & rv & Ew & -> & Hv).
  rewrite Ew in Hpa. destruct (firstn_skipn_at_equals rk rv) as [Hf Hsk].
  unfold str, char in *. rewrite Hf, Hsk in Hpa. injection Hpa as <-.
  cbn [key rawKey rawValue] in *.
  destruct (trim_decompose rk) as (l & r & Erk & Hl & Hr).
  specialize (Hv rv). rewrite Erk in Hv.
  unfold str, char in *. rewrite <- !app_assoc in Hv.
  rewrite (scanEquals_skip_space l Hl) in Hv.
  assert (Hscan : scanEquals false false 0 (trim rk ++ [61%N])
                  = Some (0 + List.length (trim rk))).
  { apply (scanEquals_without_trailing_space (trim rk) r Hr false false
             (0 + List.length l) rv 0).
    etransitivity; [exact Hv|]. f_equal. unfold str, char. rewrite !length_app. lia. }
  unfold classifyLine.
  change (lit "=") with [61%N] in *.
  rewrite_plain (isBlankLine_with_equals (trim rk) []).
  unfold str, char in *. rewrite Hcomment.
  unfold parsedWithKey, parseAssignment, findUnquotedEqualsIndex.
  unfold str, char in *. rewrite Hexport, Hscan.
  destruct (firstn_skipn_at_equals (trim rk) []) as [Hf' Hsk'].
  unfold str, char in *. rewrite Hf', Hsk'.
  cbn [key rawKey rawValue]. rewrite_plain (trim_idempotent rk).
  rewrite Hk. reflexivity.
Qed.

Lemma written_key_line_roundtrip_witness :
  classifyLine (lit "DB_URL=") 
  = Assignment (lit "DB_URL=") (mkAssignment (lit "DB_URL") (lit "DB_URL") []) /\
  classifyLine (lit "#FOO=") = Comment (lit "#FOO=").
Proof.
  split; [|vm_compute; reflexivity].
  refine (written_key_line_roundtrip (lit " export DB_URL = postgres://x")
            (mkAssignment (lit "DB_URL") (lit "DB_URL ") (lit " postgres://x")) _ _ _);
    vm_compute; reflexivity.
Defined.

(** ** The time stamp *)

Lemma decimalDigits_step (f : nat) (n : N) (acc : str) :
  decimalDigits (S f) n acc
  = if (n <? 10)%N then digit (n mod 10) :: acc
    else decimalDigits f (n / 10)%N (digit (n mod 10) :: acc).
Proof.
  simpl. unfold digit.
  destruct (n <? 10)%N eqn:E.
  - apply N.ltb_lt in E.
    replace (n / 10 =? 0)%N with true; [reflexivity|].
    symmetry. apply N.eqb_eq. apply N.div_small. exact E.
  - apply N.ltb_ge in E.
    replace (n / 10 =? 0)%N with false; [reflexivity|].
    symmetry. apply N.eqb_neq. intros H.
    apply N.div_small_iff in H; lia.
Qed.

Lemma log2_fuel (n : N) (k : N) :
  (2 ^ k <= n)%N -> N.to_nat k <= N.to_nat (N.log2 n).
Proof.
  intros H. apply N.log2_le_mono in H. rewrite N.log2_pow2 in H by lia. lia.
Qed.

Lemma stringOfNumber_one_digit (n : N) :
  (n < 10)%N -> stringOfNumber n = [digit n].
Proof.
  intros H. unfold stringOfNumber. rewrite decimalDigits_step.
  apply N.ltb_lt in H. rewrite H. apply N.ltb_lt in H.
  rewrite N.mod_small by exact H. reflexivity.
Qed.

Lemma stringOfNumber_two_digits (n : N) :
  (10 <= n < 100)%N -> stringOfNumber n = [digit (n / 10); digit (n mod 10)].
Proof.
  intros H. unfold stringOfNumber.
  pose proof (log2_fuel n 3 ltac:(simpl; lia)) as Hf.
  destruct (N.to_nat (N.log2 n)) as [|f]; [simpl in Hf; lia|].
  rewrite decimalDigits_step.
  replace (n <? 10)%N with false by (symmetry; apply N.ltb_ge; lia).
  rewrite decimalDigits_step.
  assert (Hq : (n / 10 < 10)%N) by (apply N.Div0.div_lt_upper_bound; lia).
  replace (n / 10 <? 10)%N with true by (symmetry; apply N.ltb_lt; exact Hq).
  rewrite (N.mod_small (n / 10)) by exact Hq. reflexivity.
Qed.

Lemma stringOfNumber_four_digits (n : N) :
  (1000 <= n < 10000)%N ->
  stringOfNumber n
  = [digit (n / 1000); digit (n / 100 mod 10); digit (n / 10 mod 10); digit (n mod 10)].
Proof.
  intros H. unfold stringOfNumber.
  pose proof (log2_fuel n 9 ltac:(simpl; lia)) as Hf.
  destruct (N.to_nat (N.log2 n)) as [|[|[|f]]]; try (simpl in Hf; lia).
  assert (H1 : (100 <= n / 10 < 1000)%N).
  { split; [apply N.div_le_lower_bound; lia | apply N.Div0.div_lt_upper_bound; lia]. }
  assert (H2 : (10 <= n / 10 / 10 < 100)%N).
  { split; [apply N.div_le_lower_bound; lia | apply N.Div0.div_lt_upper_bound; lia]. }
  assert (H3 : (n / 10 / 10 / 10 < 10)%N)
    by (apply N.Div0.div_lt_upper_bound; lia).
  rewrite decimalDigits_step.
  replace (n <? 10)%N with false by (symmetry; apply N.ltb_ge; lia).
  rewrite decimalDigits_step.
  replace (n / 10 <? 10)%N with false by (symmetry; apply N.ltb_ge; lia).
  rewrite decimalDigits_step.
  replace (n / 10 / 10 <? 10)%N with false by (symmetry; apply N.ltb_ge; lia).
  rewrite decimalDigits_step.
  replace (n / 10 / 10 / 10 <? 10)%N with true by (symmetry; apply N.ltb_lt; exact H3).
  rewrite (N.mod_small (n / 10 / 10 / 10)) by exact H3.
  rewrite !N.Div0.div_div. reflexivity.
Qed.

Lemma pad_two_digits (n : N) :
  (n < 100)%N -> pad n = [digit (n / 10); digit (n mod 10)].
Proof.
  intros H. unfold pad.
  destruct (N.lt_ge_cases n 10) as [Hlt | Hge].
  - rewrite (stringOfNumber_one_digit n Hlt).
    rewrite (N.div_small n 10 Hlt), (N.mod_small n 10 Hlt). reflexivity.
  - rewrite (stringOfNumber_two_digits n (conj Hge H)). reflexivity.
Qed.

(** X14: for a date with a year of four digits and the ranges of a
    JavaScript date (month from 0 to 11, day up to 31, hour up to 23, minute
    and second up to 59), [nowStamp] gives the nineteen characters
    [YYYY-MM-DD HH:mm:ss], the month counted from 1 and every field but the
    year on two digits, with a zero in front when it is below ten. *)
Theorem nowStamp_format (d : Date) :
  (1000 <= getFullYear d < 10000)%N -> (getMonth d <= 11)%N -> (getDate d <= 31)%N ->
  (getHours d <= 23)%N -> (getMinutes d <= 59)%N -> (getSeconds d <= 59)%N ->
  nowStamp d
  = [digit (getFullYear d / 1000); digit (getFullYear d / 100 mod 10);
     digit (getFullYear d / 10 mod 10); digit (getFullYear d mod 10); 45%N;
     digit ((getMonth d + 1) / 10); digit ((getMonth d + 1) mod 10); 45%N;
     digit (getDate d / 10); digit (getDate d mod 10); 32%N;
     digit (getHours d / 10); digit (getHours d mod 10); 58%N;
     digit (getMinutes d / 10); digit (getMinutes d mod 10); 58%N;
     digit (getSeconds d / 10); digit (getSeconds d mod 10)].
Proof.
  intros Hy Hm Hd Hh Hmi Hs. unfold nowStamp.
  rewrite (stringOfNumber_four_digits _ Hy).
  rewrite !pad_two_digits by lia. reflexivity.
Qed.

Lemma nowStamp_format_witness :
  nowStamp (mkDate 2024 0 5 9 3 7) = lit "2024-01-05 09:03:07".
Proof.
  refine (eq_trans (nowStamp_format (mkDate 2024 0 5 9 3 7) _ _ _ _ _ _) _);
    try (vm_compute; split; [discriminate | reflexivity]);
    try (vm_compute; discriminate).
  vm_compute; reflexivity.
Defined.

(** ** Command line *)

Lemma list_ind2 {A} (P : list A -> Prop) :
  P [] -> (forall a, P [a]) ->
  (forall a b l, P l -> P (b :: l) -> P (a :: b :: l)) ->
  forall l, P l.
Proof.
  intros H0 H1 H2 l.
  assert (H : P l /\ forall a, P (a :: l)).
  { induction l as [|b l [IHa IHb]]; split; auto. }
  apply H.
Qed.

Lemma str_eqb_false_has (argv : list str) (arg k : str) :
  str_eqb arg k = false -> has (arg :: argv) k = has argv k.
Proof.
  intros H. rewrite has_cons.
  replace (str_eqb k arg) with false; [reflexivity|].
  symmetry. destruct (str_eqb k arg) eqn:E; [|reflexivity].
  apply str_eqb_eq in E; subst. rewrite str_eqb_refl in H. discriminate.
Qed.

Lemma starts_with_dash (next k : str) :
  starts_with (lit "-") next = false -> starts_with (lit "-") k = true ->
  str_eqb next k = false.
Proof.
  intros Hn Hk. destruct (str_eqb next k) eqn:E; [|reflexivity].
  apply str_eqb_eq in E; subst. congruence.
Qed.

(** What the loop of [parseCliArgs] has done when it returns. *)
Lemma parseCliLoop_parsed
  (pathJoin : str -> str -> str) (pathIsAbsolute : str -> bool) (cwd : str)
  (argv : list str) :
  forall dryRun0 outputPath0 dryRun outputPath,
  parseCliLoop pathJoin pathIsAbsolute cwd argv dryRun0 outputPath0
  = CliParsed dryRun outputPath ->
  dryRun = dryRun0 || has argv (lit "--dry-run") /\
  has argv (lit "--help") = false /\ has argv (lit "-h") = false /\
  (outputPath = outputPath0 /\
   has argv (lit "--output") = false /\ has argv (lit "-o") = false
   \/ exists next,
        In next argv /\ next <> [] /\ starts_with (lit "-") next = false /\
        outputPath = if pathIsAbsolute next then next else pathJoin cwd next).
Proof.
  induction argv as [| arg | arg next rest IHrest IHnext] using list_ind2;
    intros d0 o0 d o H.
  - simpl in H. injection H as <- <-. rewrite orb_false_r.
    repeat split; try reflexivity. left. repeat split; reflexivity.
  - cbn [parseCliLoop] in H.
    destruct (str_eqb arg (lit "--dry-run")) eqn:E1.
    + injection H as <- <-. apply str_eqb_eq in E1; subst.
      rewrite orb_true_r. repeat split; try reflexivity.
      left. repeat split; reflexivity.
    + destruct (str_eqb arg (lit "--output") || str_eqb arg (lit "-o"));
        [discriminate|].
      destruct (str_eqb arg (lit "--help") || str_eqb arg (lit "-h")); discriminate.
  - change (parseCliLoop pathJoin pathIsAbsolute cwd (arg :: next :: rest) d0 o0)
      with (if str_eqb arg (lit "--dry-run")
            then parseCliLoop pathJoin pathIsAbsolute cwd (next :: rest) true o0
            else if str_eqb arg (lit "--output") || str_eqb arg (lit "-o")
            then if negb (nonEmpty next) || starts_with (lit "-") next
                 then CliExit 1 [lit "Missing <path> after " ++ arg; usageMessage]
                 else parseCliLoop pathJoin pathIsAbsolute cwd rest d0
                        (if pathIsAbsolute next then next else pathJoin cwd next)
            else if str_eqb arg (lit "--help") || str_eqb arg (lit "-h")
            then CliExit 0 [usageMessage]
            else CliExit 1 [lit "Unknown argument: " ++ arg; usageMessage]) in H.
    destruct (str_eqb arg (lit "--dry-run")) eqn:E1.
    + apply str_eqb_eq in E1; subst arg.
      destruct (IHnext _ _ _ _ H) as (Hd & Hh & Hh' & Ho).
      split; [rewrite Hd, orb_true_r; reflexivity|].
      rewrite !(str_eqb_false_has (next :: rest) (lit "--dry-run")) by reflexivity.
      split; [exact Hh|]. split; [exact Hh'|].
      destruct Ho as [(Ho & H1 & H2) | (nx & Hin & Hne & Hst & Ho)].
      * left. repeat split; assumption.
      * right. exists nx. repeat split; try assumption. right; exact Hin.
    + destruct (str_eqb arg (lit "--output") || str_eqb arg (lit "-o")) eqn:E2.
      * destruct (negb (nonEmpty next) || starts_with (lit "-") next) eqn:E3;
          [discriminate|].
        apply orb_false_iff in E3 as [Hne Hst]. apply negb_false_iff in Hne.
        assert (Harg : forall k, str_eqb (lit "--output") k = false ->
                         str_eqb (lit "-o") k = false -> str_eqb arg k = false).
        { intros k Hk1 Hk2. apply orb_true_iff in E2 as [E2 | E2];
            apply str_eqb_eq in E2; subst arg; assumption. }
        destruct (IHrest _ _ _ _ H) as (Hd & Hh & Hh' & Ho).
        rewrite (str_eqb_false_has _ arg (lit "--dry-run") E1).
        rewrite (str_eqb_false_has _ next (lit "--dry-run")
                   (starts_with_dash next (lit "--dry-run") Hst eq_refl)).
        rewrite (str_eqb_false_has _ arg (lit "--help") (Harg (lit "--help") eq_refl eq_refl)).
        rewrite (str_eqb_false_has _ next (lit "--help")
                   (starts_with_dash next (lit "--help") Hst eq_refl)).
        rewrite (str_eqb_false_has _ arg (lit "-h") (Harg (lit "-h") eq_refl eq_refl)).
        rewrite (str_eqb_false_has _ next (lit "-h")
                   (starts_with_dash next (lit "-h") Hst eq_refl)).
        split; [exact Hd|]. split; [exact Hh|]. split; [exact Hh'|].
        right. destruct Ho as [(Ho & _ & _) | (nx & Hin & Hnx & Hsx & Ho)].
        -- exists next. split; [right; left; reflexivity|].
           split; [destruct next; [discriminate Hne | discriminate]|].
           split; [exact Hst | exact Ho].
        -- exists nx. split; [right; right; exact Hin|].
           repeat split; assumption.
      * destruct (str_eqb arg (lit "--help") || str_eqb arg (lit "-h")); discriminate.
Qed.

(** Where the output path of the loop of [parseCliArgs] comes from. *)
Lemma parseCliLoop_output
  (pathJoin : str -> str -> str) (pathIsAbsolute : str -> bool) (cwd : str)
  (argv : list str) :
  forall dryRun0 outputPath0 dryRun outputPath,
  parseCliLoop pathJoin pathIsAbsolute cwd argv dryRun0 outputPath0
  = CliParsed dryRun outputPath ->
  (outputPath = outputPath0 /\
   has argv (lit "--output") = false /\ has argv (lit "-o") = false)
  \/ exists before flag next after,
       argv = before ++ flag :: next :: after /\
       (flag = lit "--output" \/ flag = lit "-o") /\
       next <> [] /\ starts_with (lit "-") next = false /\
       has after (lit "--output") = false /\ has after (lit "-o") = false /\
       outputPath = if pathIsAbsolute next then next else pathJoin cwd next.
Proof.
  induction argv as [| arg | arg next rest IHrest IHnext] using list_ind2;
    intros d0 o0 d o H.
  - simpl in H. injection H as _ <-. left. repeat split; reflexivity.
  - cbn [parseCliLoop] in H.
    destruct (str_eqb arg (lit "--dry-run")) eqn:E1.
    + injection H as _ <-. apply str_eqb_eq in E1; subst.
      left. repeat split; reflexivity.
    + destruct (str_eqb arg (lit "--output") || str_eqb arg (lit "-o"));
        [discriminate|].
      destruct (str_eqb arg (lit "--help") || str_eqb arg (lit "-h")); discriminate.
  - change (parseCliLoop pathJoin pathIsAbsolute cwd (arg :: next :: rest) d0 o0)
      with (if str_eqb arg (lit "--dry-run")
            then parseCliLoop pathJoin pathIsAbsolute cwd (next :: rest) true o0
            else if str_eqb arg (lit "--output") || str_eqb arg (lit "-o")
            then if negb (nonEmpty next) || starts_with (lit "-") next
                 then CliExit 1 [lit "Missing <path> after " ++ arg; usageMessage]
                 else parseCliLoop pathJoin pathIsAbsolute cwd rest d0
                        (if pathIsAbsolute next then next else pathJoin cwd next)
            else if str_eqb arg (lit "--help") || str_eqb arg (lit "-h")
            then CliExit 0 [usageMessage]
            else CliExit 1 [lit "Unknown argument: " ++ arg; usageMessage]) in H.
    destruct (str_eqb arg (lit "--dry-run")) eqn:E1.
    + apply str_eqb_eq in E1; subst arg.
      destruct (IHnext _ _ _ _ H)
        as [(Ho & H1 & H2) | (before & flag & nx & after & E & Hf & Hne & Hst & Ha1 & Ha2 & Ho)].
      * left. split; [exact Ho|].
        rewrite !(str_eqb_false_has (next :: rest) (lit "--dry-run")) by reflexivity.
        split; assumption.
      * right. exists (lit "--dry-run" :: before), flag, nx, after.
        split; [rewrite E; reflexivity|]. repeat split; assumption.
    + destruct (str_eqb arg (lit "--output") || str_eqb arg (lit "-o")) eqn:E2.
      * destruct (negb (nonEmpty next) || starts_with (lit "-") next) eqn:E3;
          [discriminate|].
        apply orb_false_iff in E3 as [Hne Hst]. apply negb_false_iff in Hne.
        assert (Hflag : arg = lit "--output" \/ arg = lit "-o").
        { apply orb_true_iff in E2 as [E2 | E2]; apply str_eqb_eq in E2; auto. }
        destruct (IHrest _ _ _ _ H)
          as [(Ho & H1 & H2)
             | (before & flag & nx & after & E & Hf & Hnx & Hsx & Ha1 & Ha2 & Ho)].
        -- right. exists [], arg, next, rest. split; [reflexivity|].
           split; [exact Hflag|].
           split; [destruct next; [discriminate Hne | discriminate]|].
           repeat split; assumption.
        -- right. exists (arg :: next :: before), flag, nx, after.
           split; [rewrite E; reflexivity|]. repeat split; assumption.
      * destruct (str_eqb arg (lit "--help") || str_eqb arg (lit "-h")); discriminate.
Qed.

(** X15: when [parseCliArgs] returns, its [dryRun] tells whether
    [--dry-run] is among the arguments and no argument is [--help] or [-h].
    When no argument is [--output] or [-o], the output path is the default
    [.env.example] in the working directory.  Otherwise it comes from the
    argument that follows the last [--output] or [-o]: that argument is not
    empty and does not start with a dash, and the path is that argument
    itself when it is absolute, and joined to the working directory when it
    is not. *)
Theorem parseCliArgs_parsed
  (pathJoin : str -> str -> str) (pathIsAbsolute : str -> bool)
  (argv : list str) (cwd : str) (dryRun : bool) (outputPath : str) :
  parseCliArgs pathJoin pathIsAbsolute argv cwd = CliParsed dryRun outputPath ->
  dryRun = has argv (lit "--dry-run") /\
  has argv (lit "--help") = false /\ has argv (lit "-h") = false /\
  (has argv (lit "--output") = false /\ has argv (lit "-o") = false ->
   outputPath = pathJoin cwd (lit ".env.example")) /\
  (outputPath = pathJoin cwd (lit ".env.example") /\
   has argv (lit "--output") = false /\ has argv (lit "-o") = false
   \/ exists before flag next after,
        argv = before ++ flag :: next :: after /\
        (flag = lit "--output" \/ flag = lit "-o") /\
        next <> [] /\ starts_with (lit "-") next = false /\
        has after (lit "--output") = false /\ has after (lit "-o") = false /\
        outputPath = if pathIsAbsolute next then next else pathJoin cwd next).
Proof.
  intros H.
  destruct (parseCliLoop_parsed pathJoin pathIsAbsolute cwd argv false _ _ _ H)
    as (Hd & Hh & Hh' & _).
  pose proof (parseCliLoop_output pathJoin pathIsAbsolute cwd argv false _ _ _ H) as Ho.
  split; [exact Hd|]. split; [exact Hh|]. split; [exact Hh'|].
  split; [|exact Ho].
  intros [Hn1 Hn2].
  destruct Ho as [(Ho & _) | (before & flag & nx & after & E & Hf & _)]; [exact Ho|].
  exfalso. subst argv.
  assert (Hin : In flag (before ++ flag :: nx :: after))
    by (apply in_or_app; right; left; reflexivity).
  destruct Hf as [-> | ->]; apply has_In in Hin; congruence.
Qed.

Lemma parseCliArgs_parsed_witness :
  let pathJoin := fun a b : str => a ++ lit "/" ++ b in
  let pathIsAbsolute := starts_with (lit "/") in
  parseCliArgs pathJoin pathIsAbsolute [lit "--dry-run"] (lit "/app")
  = CliParsed true (lit "/app/.env.example") /\
  lit "/app/.env.example" = pathJoin (lit "/app") (lit ".env.example").
Proof.
  cbv zeta. split; [vm_compute; reflexivity|].
  destruct (parseCliArgs_parsed (fun a b : str => a ++ lit "/" ++ b)
              (starts_with (lit "/")) [lit "--dry-run"] (lit "/app")
              true (lit "/app/.env.example"))
    as (_ & _ & _ & Hdefault & _); [vm_compute; reflexivity|].
  apply Hdefault. split; vm_compute; reflexivity.
Defined.

Lemma parseCliLoop_exit
  (pathJoin : str -> str -> str) (pathIsAbsolute : str -> bool) (cwd : str)
  (argv : list str) :
  forall dryRun0 outputPath0 code errs,
  parseCliLoop pathJoin pathIsAbsolute cwd argv dryRun0 outputPath0
  = CliExit code errs ->
  (code = 0%N /\ errs = [usageMessage] /\
   (has argv (lit "--help") || has argv (lit "-h")) = true)
  \/ (code = 1%N /\ exists arg,
        In arg argv /\
        (errs = [lit "Unknown argument: " ++ arg; usageMessage]
         \/ errs = [lit "Missing <path> after " ++ arg; usageMessage] /\
            (arg = lit "--output" \/ arg = lit "-o"))).
Proof.
  assert (Hhelp : forall arg rest,
            str_eqb arg (lit "--help") || str_eqb arg (lit "-h") = true ->
            has (arg :: rest) (lit "--help") || has (arg :: rest) (lit "-h") = true).
  { intros arg rest E. rewrite !has_cons.
    apply orb_true_iff in E as [E | E]; apply str_eqb_eq in E; subst arg; simpl;
      [reflexivity | apply orb_true_r]. }
  assert (Hout : forall arg, str_eqb arg (lit "--output") || str_eqb arg (lit "-o") = true ->
            arg = lit "--output" \/ arg = lit "-o").
  { intros arg E. apply orb_true_iff in E as [E | E]; apply str_eqb_eq in E; auto. }
  assert (Hmono : forall a rest,
            has rest (lit "--help") || has rest (lit "-h") = true ->
            has (a :: rest) (lit "--help") || has (a :: rest) (lit "-h") = true).
  { intros a rest E. rewrite !has_cons.
    apply orb_true_iff in E as [E | E]; rewrite E, ?orb_true_r; reflexivity. }
  induction argv as [| arg | arg next rest IHrest IHnext] using list_ind2;
    intros d0 o0 code errs H.
  - discriminate.
  - cbn [parseCliLoop] in H.
    destruct (str_eqb arg (lit "--dry-run")); [discriminate|].
    destruct (str_eqb arg (lit "--output") || str_eqb arg (lit "-o")) eqn:E2.
    + injection H as <- <-. right. split; [reflexivity|]. exists arg.
      split; [left; reflexivity|]. right. split; [reflexivity | apply Hout; exact E2].
    + destruct (str_eqb arg (lit "--help") || str_eqb arg (lit "-h")) eqn:E3;
        injection H as <- <-.
      * left. split; [reflexivity|]. split; [reflexivity | apply Hhelp; exact E3].
      * right. split; [reflexivity|]. exists arg. split; [left; reflexivity|].
        left; reflexivity.
  - change (parseCliLoop pathJoin pathIsAbsolute cwd (arg :: next :: rest) d0 o0)
      with (if str_eqb arg (lit "--dry-run")
            then parseCliLoop pathJoin pathIsAbsolute cwd (next :: rest) true o0
            else if str_eqb arg (lit "--output") || str_eqb arg (lit "-o")
            then if negb (nonEmpty next) || starts_with (lit "-") next
                 then CliExit 1 [lit "Missing <path> after " ++ arg; usageMessage]
                 else parseCliLoop pathJoin pathIsAbsolute cwd rest d0
                        (if pathIsAbsolute next then next else pathJoin cwd next)
            else if str_eqb arg (lit "--help") || str_eqb arg (lit "-h")
            then CliExit 0 [usageMessage]
            else CliExit 1 [lit "Unknown argument: " ++ arg; usageMessage]) in H.
    destruct (str_eqb arg (lit "--dry-run")).
    + destruct (IHnext _ _ _ _ H) as [(Hc & He & Hh) | (Hc & a & Hin & Ha)].
      * left. split; [exact Hc|]. split; [exact He | apply Hmono; exact Hh].
      * right. split; [exact Hc|]. exists a. split; [right; exact Hin | exact Ha].
    + destruct (str_eqb arg (lit "--output") || str_eqb arg (lit "-o")) eqn:E2.
      * destruct (negb (nonEmpty next) || starts_with (lit "-") next).
        -- injection H as <- <-. right. split; [reflexivity|]. exists arg.
           split; [left; reflexivity|]. right.
           split; [reflexivity | apply Hout; exact E2].
        -- destruct (IHrest _ _ _ _ H) as [(Hc & He & Hh) | (Hc & a & Hin & Ha)].
           ++ left. split; [exact Hc|]. split; [exact He|].
              apply Hmono, Hmono; exact Hh.
           ++ right. split; [exact Hc|]. exists a.
              split; [right; right; exact Hin | exact Ha].
      * destruct (str_eqb arg (lit "--help") || str_eqb arg (lit "-h")) eqn:E3;
          injection H as <- <-.
        -- left. split; [reflexivity|]. split; [reflexivity | apply Hhelp; exact E3].
        -- right. split; [reflexivity|]. exists arg. split; [left; reflexivity|].
           left; reflexivity.
Qed.

(** Why the loop of [parseCliArgs] ends the process. *)
Lemma parseCliLoop_exit_reason
  (pathJoin : str -> str -> str) (pathIsAbsolute : str -> bool) (cwd : str)
  (argv : list str) :
  forall dryRun0 outputPath0 code errs,
  parseCliLoop pathJoin pathIsAbsolute cwd argv dryRun0 outputPath0
  = CliExit code errs ->
  code = 1%N ->
  exists arg,
    In arg argv /\
    (errs = [lit "Unknown argument: " ++ arg; usageMessage] /\ knownFlag arg = false
     \/ errs = [lit "Missing <path> after " ++ arg; usageMessage] /\
        (arg = lit "--output" \/ arg = lit "-o") /\
        exists before after,
          argv = before ++ arg :: after /\
          match after with
          | [] => True
          | next :: _ => next = [] \/ starts_with (lit "-") next = true
          end).
Proof.
  assert (Hout : forall arg, str_eqb arg (lit "--output") || str_eqb arg (lit "-o") = true ->
            arg = lit "--output" \/ arg = lit "-o").
  { intros arg E. apply orb_true_iff in E as [E | E]; apply str_eqb_eq in E; auto. }
  assert (Hunknown : forall arg,
            str_eqb arg (lit "--dry-run") = false ->
            str_eqb arg (lit "--output") || str_eqb arg (lit "-o") = false ->
            str_eqb arg (lit "--help") || str_eqb arg (lit "-h") = false ->
            knownFlag arg = false).
  { intros arg E1 E2 E3. unfold knownFlag. rewrite E1, E2, E3. reflexivity. }
  induction argv as [| arg | arg next rest IHrest IHnext] using list_ind2;
    intros d0 o0 code errs H Hcode.
  - discriminate.
  - cbn [parseCliLoop] in H.
    destruct (str_eqb arg (lit "--dry-run")) eqn:E1; [discriminate|].
    destruct (str_eqb arg (lit "--output") || str_eqb arg (lit "-o")) eqn:E2.
    + injection H as _ <-. exists arg. split; [left; reflexivity|]. right.
      split; [reflexivity|]. split; [apply Hout; exact E2|].
      exists [], []. split; [reflexivity | exact I].
    + destruct (str_eqb arg (lit "--help") || str_eqb arg (lit "-h")) eqn:E3;
        injection H as <- <-; [discriminate Hcode|].
      exists arg. split; [left; reflexivity|]. left.
      split; [reflexivity | apply Hunknown; assumption].
  - change (parseCliLoop pathJoin pathIsAbsolute cwd (arg :: next :: rest) d0 o0)
      with (if str_eqb arg (lit "--dry-run")
            then parseCliLoop pathJoin pathIsAbsolute cwd (next :: rest) true o0
            else if str_eqb arg (lit "--output") || str_eqb arg (lit "-o")
            then if negb (nonEmpty next) || starts_with (lit "-") next
                 then CliExit 1 [lit "Missing <path> after " ++ arg; usageMessage]
                 else parseCliLoop pathJoin pathIsAbsolute cwd rest d0
                        (if pathIsAbsolute next then next else pathJoin cwd next)
            else if str_eqb arg (lit "--help") || str_eqb arg (lit "-h")
            then CliExit 0 [usageMessage]
            else CliExit 1 [lit "Unknown argument: " ++ arg; usageMessage]) in H.
    destruct (str_eqb arg (lit "--dry-run")) eqn:E1.
    + destruct (IHnext _ _ _ _ H Hcode) as (a & Hin & Ha).
      exists a. split; [right; exact Hin|].
      destruct Ha as [Ha | (He & Hf & before & after & E & Hn)]; [left; exact Ha|].
      right. split; [exact He|]. split; [exact Hf|].
      exists (arg :: before), after. split; [rewrite E; reflexivity | exact Hn].
    + destruct (str_eqb arg (lit "--output") || str_eqb arg (lit "-o")) eqn:E2.
      * destruct (negb (nonEmpty next) || starts_with (lit "-") next) eqn:E3.
        -- injection H as _ <-. exists arg. split; [left; reflexivity|]. right.
           split; [reflexivity|]. split; [apply Hout; exact E2|].
           exists [], (next :: rest). split; [reflexivity|].
           apply orb_true_iff in E3 as [E3 | E3]; [left | right; exact E3].
           destruct next; [reflexivity | discriminate E3].
        -- destruct (IHrest _ _ _ _ H Hcode) as (a & Hin & Ha).
           exists a. split; [right; right; exact Hin|].
           destruct Ha as [Ha | (He & Hf & before & after & E & Hn)]; [left; exact Ha|].
           right. split; [exact He|]. split; [exact Hf|].
           exists (arg :: next :: before), after.
           split; [rewrite E; reflexivity | exact Hn].
      * destruct (str_eqb arg (lit "--help") || str_eqb arg (lit "-h")) eqn:E3;
          injection H as <- <-; [discriminate Hcode|].
        exists arg. split; [left; reflexivity|]. left.
        split; [reflexivity | apply Hunknown; assumption].
Qed.

(** X16: when [parseCliArgs] ends the process, the exit code is 0 or 1.  It
    is 0 only with [--help] or [-h] among the arguments, and then the usage
    text alone is printed; with 1, one message naming an argument is printed
    before the usage text: the argument is unknown (it is none of
    [--dry-run], [--output], [-o], [--help], [-h]), or it is [--output] or
    [-o] without a path after it (it is the last argument, or the argument
    after it is empty or starts with a dash). *)
Theorem parseCliArgs_exit
  (pathJoin : str -> str -> str) (pathIsAbsolute : str -> bool)
  (argv : list str) (cwd : str) (code : N) (errs : list str) :
  parseCliArgs pathJoin pathIsAbsolute argv cwd = CliExit code errs ->
  ((code = 0%N /\ errs = [usageMessage] /\
    (has argv (lit "--help") || has argv (lit "-h")) = true)
   \/ (code = 1%N /\ exists arg,
         In arg argv /\
         (errs = [lit "Unknown argument: " ++ arg; usageMessage]
          \/ errs = [lit "Missing <path> after " ++ arg; usageMessage] /\
             (arg = lit "--output" \/ arg = lit "-o")))) /\
  (code = 1%N ->
   exists arg,
     In arg argv /\
     (errs = [lit "Unknown argument: " ++ arg; usageMessage] /\ knownFlag arg = false
      \/ errs = [lit "Missing <path> after " ++ arg; usageMessage] /\
         (arg = lit "--output" \/ arg = lit "-o") /\
         exists before after,
           argv = before ++ arg :: after /\
           match after with
           | [] => True
           | next :: _ => next = [] \/ starts_with (lit "-") next = true
           end)).
Proof.
  intros H. split.
  - apply (parseCliLoop_exit pathJoin pathIsAbsolute cwd argv false _ _ _ H).
  - apply (parseCliLoop_exit_reason pathJoin pathIsAbsolute cwd argv false _ _ _ H).
Qed.

Lemma parseCliArgs_exit_witness :
  let pathJoin := fun a b : str => a ++ lit "/" ++ b in
  let pathIsAbsolute := starts_with (lit "/") in
  parseCliArgs pathJoin pathIsAbsolute [lit "--dry-run"; lit "-o"; lit "-x"] (lit "/app")
  = CliExit 1 [lit "Missing <path> after -o"; usageMessage].
Proof.
  cbv zeta.
  destruct (proj1 (parseCliArgs_exit (fun a b : str => a ++ lit "/" ++ b)
              (starts_with (lit "/")) [lit "--dry-run"; lit "-o"; lit "-x"] (lit "/app")
              1 [lit "Missing <path> after -o"; usageMessage] ltac:(vm_compute; reflexivity)))
    as [(Hc & _) | _]; [discriminate Hc|].
  vm_compute; reflexivity.
Defined.

(** ** [main] *)

Lemma replace_trailing_ends_lf (s : str) :
  exists body, replace_trailing_newlines s = body ++ LF.
Proof.
  induction s as [|c s [body IH]]; [exists []; reflexivity|].
  unfold replace_trailing_newlines; fold replace_trailing_newlines.
  destruct (forallb is_lf (c :: s)); [exists []; reflexivity|].
  exists (c :: body). rewrite IH. reflexivity.
Qed.

Lemma updateExisting_ends_lf (now : Date) (exampleContent envContent envLocalContent : str) :
  exists body,
    appendMissingKeysToExample now
      (markUnknownKeysInExample exampleContent envContent envLocalContent)
      envContent envLocalContent
    = body ++ LF.
Proof.
  unfold appendMissingKeysToExample.
  destruct (missingEntries _ envContent envLocalContent).
  - apply replace_trailing_ends_lf.
  - eexists; reflexivity.
Qed.

Lemma parseCliLoop_dry
  (pathJoin : str -> str -> str) (pathIsAbsolute : str -> bool) (cwd : str)
  (argv : list str) :
  forall dryRun0 outputPath0 dryRun outputPath,
  parseCliLoop pathJoin pathIsAbsolute cwd argv dryRun0 outputPath0
  = CliParsed dryRun outputPath ->
  parseCliLoop pathJoin pathIsAbsolute cwd argv true outputPath0
  = CliParsed true outputPath.
Proof.
  induction argv as [| arg | arg next rest IHrest IHnext] using list_ind2;
    intros d0 o0 d o H.
  - simpl in H |- *. injection H as _ <-. reflexivity.
  - cbn [parseCliLoop] in H |- *.
    destruct (str_eqb arg (lit "--dry-run")).
    + injection H as _ <-. reflexivity.
    + destruct (str_eqb arg (lit "--output") || str_eqb arg (lit "-o"));
        [discriminate|].
      destruct (str_eqb arg (lit "--help") || str_eqb arg (lit "-h")); discriminate.
  - change (parseCliLoop pathJoin pathIsAbsolute cwd (arg :: next :: rest) d0 o0)
      with (if str_eqb arg (lit "--dry-run")
            then parseCliLoop pathJoin pathIsAbsolute cwd (next :: rest) true o0
            else if str_eqb arg (lit "--output") || str_eqb arg (lit "-o")
            then if negb (nonEmpty next) || starts_with (lit "-") next
                 then CliExit 1 [lit "Missing <path> after " ++ arg; usageMessage]
                 else parseCliLoop pathJoin pathIsAbsolute cwd rest d0
                        (if pathIsAbsolute next then next else pathJoin cwd next)
            else if str_eqb arg (lit "--help") || str_eqb arg (lit "-h")
            then CliExit 0 [usageMessage]
            else CliExit 1 [lit "Unknown argument: " ++ arg; usageMessage]) in H.
    change (parseCliLoop pathJoin pathIsAbsolute cwd (arg :: next :: rest) true o0)
      with (if str_eqb arg (lit "--dry-run")
            then parseCliLoop pathJoin pathIsAbsolute cwd (next :: rest) true o0
            else if str_eqb arg (lit "--output") || str_eqb arg (lit "-o")
            then if negb (nonEmpty next) || starts_with (lit "-") next
                 then CliExit 1 [lit "Missing <path> after " ++ arg; usageMessage]
                 else parseCliLoop pathJoin pathIsAbsolute cwd rest true
                        (if pathIsAbsolute next then next else pathJoin cwd next)
            else if str_eqb arg (lit "--help") || str_eqb arg (lit "-h")
            then CliExit 0 [usageMessage]
            else CliExit 1 [lit "Unknown argument: " ++ arg; usageMessage]).
    destruct (str_eqb arg (lit "--dry-run")); [apply (IHnext _ _ _ _ H)|].
    destruct (str_eqb arg (lit "--output") || str_eqb arg (lit "-o")).
    + destruct (negb (nonEmpty next) || starts_with (lit "-") next); [discriminate|].
      apply (IHrest _ _ _ _ H).
    + destruct (str_eqb arg (lit "--help") || str_eqb arg (lit "-h")); discriminate.
Qed.

Lemma parseCliArgs_parsed_loop_dry
  (pathJoin : str -> str -> str) (pathIsAbsolute : str -> bool)
  (argv : list str) (cwd : str) (dryRun : bool) (outputPath : str) :
  parseCliArgs pathJoin pathIsAbsolute argv cwd = CliParsed dryRun outputPath ->
  dryRun = has argv (lit "--dry-run") /\ True.
Proof.
  intros H.
  destruct (parseCliLoop_parsed pathJoin pathIsAbsolute cwd argv false _ _ _ H) as [Hd _].
  split; [exact Hd | exact I].
Qed.

(** X17: whatever the file system and the arguments, [main] calls
    [fs.writeFileSync] at most once; when it does, [--dry-run] is not among
    the arguments, the path is the output path that [parseCliArgs] returned,
    the content ends with a line feed, and the content is not what was read
    from that path at the start of the run. *)
Theorem main_writes
  (pathJoin : str -> str -> str) (pathIsAbsolute : str -> bool)
  (pathRelative : str -> str -> str)
  (readFileSync : str -> result str) (writeFileSync : str -> str -> option fsError)
  (inspectError : fsError -> str)
  (argv : list str) (cwd : str) (now : Date) (path content : str) :
  In (path, content)
     (writes (main pathJoin pathIsAbsolute pathRelative readFileSync writeFileSync
                inspectError argv cwd now)) ->
  writes (main pathJoin pathIsAbsolute pathRelative readFileSync writeFileSync
            inspectError argv cwd now) = [(path, content)] /\
  parseCliArgs pathJoin pathIsAbsolute argv cwd = CliParsed false path /\
  has argv (lit "--dry-run") = false /\
  (exists body, content = body ++ LF) /\
  readFileIfExists readFileSync path <> Return (Some content).
Proof.
  unfold main.
  destruct (parseCliArgs pathJoin pathIsAbsolute argv cwd) as [code errs | d o] eqn:Hp;
    [intros []|].
  pose proof (proj1 (parseCliArgs_parsed_loop_dry pathJoin pathIsAbsolute argv cwd d o Hp))
    as Hd.
  destruct (readFileIfExists readFileSync (pathJoin cwd (lit ".env")))
    as [envContent | e]; [|intros []].
  destruct (readFileIfExists readFileSync (pathJoin cwd (lit ".env.local")))
    as [envLocalContent | e]; [|intros []].
  destruct (falsy envContent && falsy envLocalContent); [intros []|].
  destruct (readFileIfExists readFileSync o) as [[exampleContent|] | e] eqn:Hr;
    [| |intros []].
  - cbv zeta. destruct d; [intros []|].
    destruct (str_eqb _ exampleContent) eqn:Heq; [intros []|].
    assert (Hne : forall c, c <> exampleContent ->
              @Return (option str) (Some exampleContent) <> Return (Some c)).
    { intros c Hc E. injection E as E. congruence. }
    destruct (updateExisting_ends_lf now exampleContent (orEmpty envContent)
                (orEmpty envLocalContent)) as [body Hb].
    assert (Hdiff : appendMissingKeysToExample now
                      (markUnknownKeysInExample exampleContent (orEmpty envContent)
                         (orEmpty envLocalContent))
                      (orEmpty envContent) (orEmpty envLocalContent) <> exampleContent).
    { intros E. rewrite E, str_eqb_refl in Heq. discriminate. }
    destruct (writeFileSync o _); cbn [writes crashed];
      intros [E | []]; injection E as <- <-;
      (split; [reflexivity|]); (split; [reflexivity|]); (split; [symmetry; exact Hd|]);
      (split; [exists body; exact Hb | rewrite Hr; apply Hne; exact Hdiff]).
  - cbv zeta. destruct d; [intros []|].
    destruct (writeFileSync o _); cbn [writes crashed];
      intros [E | []]; injection E as <- <-;
      (split; [reflexivity|]); (split; [reflexivity|]); (split; [symmetry; exact Hd|]);
      (split; [eexists; reflexivity | rewrite Hr; discriminate]).
Qed.

Lemma main_writes_witness :
  let run := main examplePathJoin (starts_with (lit "/")) (fun _ p => p)
               exampleReadFileSync (fun _ _ => None) (fun _ => [])
               [lit "-o"; lit "out.env"] (lit "/app") (mkDate 2024 0 5 9 3 7) in
  writes run = [(lit "/app/out.env", lit "A=" ++ LF ++ LF)] /\
  readFileIfExists exampleReadFileSync (lit "/app/out.env")
  <> Return (Some (lit "A=" ++ LF ++ LF)).
Proof.
  cbv zeta.
  destruct (main_writes examplePathJoin (starts_with (lit "/")) (fun _ p => p)
              exampleReadFileSync (fun _ _ => None) (fun _ => [])
              [lit "-o"; lit "out.env"] (lit "/app") (mkDate 2024 0 5 9 3 7)
              (lit "/app/out.env") (lit "A=" ++ LF ++ LF))
    as (Hw & _ & _ & _ & Hr); [vm_compute; left; reflexivity|].
  split; [exact Hw | exact Hr].
Defined.

(** X18: [main] gives up with the message [No .env or .env.local found.
    Nothing to do.] exactly when the arguments are accepted, both sources
    are read without another error than a missing file, and each source is
    missing or empty: a source file that exists and is empty counts as
    missing.  The process then exits with code 1 and has printed and written
    nothing else. *)
Theorem main_without_sources
  (pathJoin : str -> str -> str) (pathIsAbsolute : str -> bool)
  (pathRelative : str -> str -> str)
  (readFileSync : str -> result str) (writeFileSync : str -> str -> option fsError)
  (inspectError : fsError -> str)
  (argv : list str) (cwd : str) (now : Date) :
  let run := main pathJoin pathIsAbsolute pathRelative readFileSync writeFileSync
               inspectError argv cwd now in
  let message := lit "No .env or .env.local found. Nothing to do." in
  (errors run = [message] <->
   exists dryRun outputPath envContent envLocalContent,
     parseCliArgs pathJoin pathIsAbsolute argv cwd = CliParsed dryRun outputPath /\
     readFileIfExists readFileSync (pathJoin cwd (lit ".env")) = Return envContent /\
     readFileIfExists readFileSync (pathJoin cwd (lit ".env.local"))
     = Return envLocalContent /\
     falsy envContent = true /\ falsy envLocalContent = true) /\
  (errors run = [message] -> run = mkRun 1 [message] [] []).
Proof.
  cbv zeta. unfold main.
  destruct (parseCliArgs pathJoin pathIsAbsolute argv cwd) as [code errs | d o] eqn:Hp.
  - cbn [errors]. split.
    + split.
      * intros ->.
        destruct (parseCliLoop_exit pathJoin pathIsAbsolute cwd argv false _ _ _ Hp)
          as [(_ & He & _) | (_ & a & _ & [He | [He _]])]; discriminate He.
      * intros (d & o & e1 & e2 & Hd & _). discriminate Hd.
    + intros ->.
      destruct (parseCliLoop_exit pathJoin pathIsAbsolute cwd argv false _ _ _ Hp)
        as [(_ & He & _) | (_ & a & _ & [He | [He _]])]; discriminate He.
  - destruct (readFileIfExists readFileSync (pathJoin cwd (lit ".env")))
      as [envContent | e].
    2:{ split; [split|]; [intros H; discriminate H
                         | intros (? & ? & ? & ? & _ & H & _); discriminate H
                         | intros H; discriminate H]. }
    destruct (readFileIfExists readFileSync (pathJoin cwd (lit ".env.local")))
      as [envLocalContent | e].
    2:{ split; [split|]; [intros H; discriminate H
                         | intros (? & ? & ? & ? & _ & _ & H & _); discriminate H
                         | intros H; discriminate H]. }
    destruct (falsy envContent && falsy envLocalContent) eqn:Hf.
    + apply andb_true_iff in Hf as [Hf1 Hf2]. split; [split|]; [| |reflexivity].
      * intros _. exists d, o, envContent, envLocalContent. repeat split; assumption.
      * reflexivity.
    + assert (Hno : ~ exists (dryRun : bool) (outputPath : str) (e1 e2 : option str),
                CliParsed d o = CliParsed dryRun outputPath /\
                @Return (option str) envContent = Return e1 /\
                @Return (option str) envLocalContent = Return e2 /\
                falsy e1 = true /\ falsy e2 = true).
      { intros (? & ? & e1 & e2 & _ & H1 & H2 & Hf1 & Hf2).
        injection H1 as <-. injection H2 as <-. rewrite Hf1, Hf2 in Hf. discriminate. }
      destruct (readFileIfExists readFileSync o) as [[exampleContent|] | e];
        cbv zeta.
      * destruct d; [|destruct (str_eqb _ exampleContent); [|destruct (writeFileSync o _)]];
          (split; [split|]; [intros H; discriminate H
                            | intros H; exfalso; exact (Hno H)
                            | intros H; discriminate H]).
      * destruct d; [|destruct (writeFileSync o _)];
          (split; [split|]; [intros H; discriminate H
                            | intros H; exfalso; exact (Hno H)
                            | intros H; discriminate H]).
      * split; [split|]; [intros H; discriminate H
                         | intros H; exfalso; exact (Hno H)
                         | intros H; discriminate H].
Qed.

Lemma main_without_sources_witness :
  main examplePathJoin (starts_with (lit "/")) (fun _ p => p)
    emptyEnvReadFileSync (fun _ _ => None) (fun _ => [])
    [] (lit "/app") (mkDate 2024 0 5 9 3 7)
  = mkRun 1 [lit "No .env or .env.local found. Nothing to do."] [] [].
Proof.
  refine (proj2 (main_without_sources examplePathJoin (starts_with (lit "/"))
                   (fun _ p => p) emptyEnvReadFileSync (fun _ _ => None) (fun _ => [])
                   [] (lit "/app") (mkDate 2024 0 5 9 3 7)) _).
  vm_compute; reflexivity.
Defined.

(** X19: what [--dry-run] prints is what would be written.  If a run calls
    [fs.writeFileSync] with some content, the run on the same file system,
    at the same time, with [--dry-run] put before the same arguments writes
    nothing, prints that content and nothing else on the standard output,
    and exits with code 0. *)
Theorem main_dry_run_prints_what_is_written
  (pathJoin : str -> str -> str) (pathIsAbsolute : str -> bool)
  (pathRelative : str -> str -> str)
  (readFileSync : str -> result str) (writeFileSync : str -> str -> option fsError)
  (inspectError : fsError -> str)
  (argv : list str) (cwd : str) (now : Date) (path content : str) :
  In (path, content)
     (writes (main pathJoin pathIsAbsolute pathRelative readFileSync writeFileSync
                inspectError argv cwd now)) ->
  main pathJoin pathIsAbsolute pathRelative readFileSync writeFileSync inspectError
       (lit "--dry-run" :: argv) cwd now
  = mkRun 0 [] content [].
Proof.
  unfold main.
  change (parseCliArgs pathJoin pathIsAbsolute (lit "--dry-run" :: argv) cwd)
    with (parseCliLoop pathJoin pathIsAbsolute cwd argv true
            (pathJoin cwd (lit ".env.example"))).
  destruct (parseCliArgs pathJoin pathIsAbsolute argv cwd) as [code errs | d o] eqn:Hp;
    [intros []|].
  rewrite (parseCliLoop_dry pathJoin pathIsAbsolute cwd argv false _ d o Hp).
  destruct (readFileIfExists readFileSync (pathJoin cwd (lit ".env")))
    as [envContent | e]; [|intros []].
  destruct (readFileIfExists readFileSync (pathJoin cwd (lit ".env.local")))
    as [envLocalContent | e]; [|intros []].
  destruct (falsy envContent && falsy envLocalContent); [intros []|].
  destruct (readFileIfExists readFileSync o) as [[exampleContent|] | e];
    [| |intros []]; cbv zeta.
  - destruct d; [intros []|].
    destruct (str_eqb _ exampleContent); [intros []|].
    destruct (writeFileSync o _); cbn [writes crashed];
      intros [E | []]; injection E as _ <-; reflexivity.
  - destruct d; [intros []|].
    destruct (writeFileSync o _); cbn [writes crashed];
      intros [E | []]; injection E as _ <-; reflexivity.
Qed.

Lemma main_dry_run_prints_what_is_written_witness :
  main examplePathJoin (starts_with (lit "/")) (fun _ p => p)
    exampleReadFileSync (fun _ _ => None) (fun _ => [])
    [lit "--dry-run"; lit "-o"; lit "out.env"] (lit "/app") (mkDate 2024 0 5 9 3 7)
  = mkRun 0 [] (lit "A=" ++ LF ++ LF) [].
Proof.
  refine (main_dry_run_prints_what_is_written examplePathJoin (starts_with (lit "/"))
            (fun _ p => p) exampleReadFileSync (fun _ _ => None) (fun _ => [])
            [lit "-o"; lit "out.env"] (lit "/app") (mkDate 2024 0 5 9 3 7)
            (lit "/app/out.env") (lit "A=" ++ LF ++ LF) _).
  vm_compute; left; reflexivity.
Defined.

(** ** Template patcher *)

Lemma orderedEntries_In_keys (primaryTokens secondaryTokens : list token) (k : str) :
  In k (map entryKey (orderedEntries (uniqueKeyOrderFromTokens primaryTokens secondaryTokens)))
  <-> In k (assignmentKeys primaryTokens) \/ In k (assignmentKeys secondaryTokens).
Proof.
  rewrite orderedEntries_keys, in_app_iff, filter_In, !firstOccurrences_In. split.
  - intros [H | [H _]]; auto.
  - intros [H | H]; [left; assumption|].
    destruct (has (assignmentKeys primaryTokens) k) eqn:E.
    + left; apply has_In; assumption.
    + right; split; [assumption | reflexivity].
Qed.

Lemma filter_nil_iff {A} (f : A -> bool) (l : list A) :
  filter f l = [] <-> forall x, In x l -> f x = false.
Proof.
  induction l as [|x l IH]; simpl.
  - split; [intros _ x [] | reflexivity].
  - destruct (f x) eqn:E.
    + split; [discriminate|]. intros H. rewrite (H x (or_introl eq_refl)) in E.
      discriminate.
    + rewrite IH. split.
      * intros H y [<- | Hy]; [exact E | apply H; exact Hy].
      * intros H y Hy. apply H. right; exact Hy.
Qed.

(** X20: the patcher has nothing to append exactly when every key assigned
    in a source is the key of an assignment line of the template; it then
    returns the template as it is, whatever the clock. *)
Theorem patcher_nothing_missing
  (now : Date) (exampleContent envContent envLocalContent : str) :
  (missingEntries exampleContent envContent envLocalContent = [] <->
   forall k,
     In k (assignmentKeys (tokensOfSource envContent)) \/
     In k (assignmentKeys (tokensOfSource envLocalContent)) ->
     In k (assignmentKeys (tokenizeEnvFile exampleContent))) /\
  ((forall k,
      In k (assignmentKeys (tokensOfSource envContent)) \/
      In k (assignmentKeys (tokensOfSource envLocalContent)) ->
      In k (assignmentKeys (tokenizeEnvFile exampleContent))) ->
   appendMissingKeysToExample now exampleContent envContent envLocalContent
   = exampleContent).
Proof.
  assert (Hiff : missingEntries exampleContent envContent envLocalContent = [] <->
            forall k,
              In k (assignmentKeys (tokensOfSource envContent)) \/
              In k (assignmentKeys (tokensOfSource envLocalContent)) ->
              In k (assignmentKeys (tokenizeEnvFile exampleContent))).
  { unfold missingEntries. rewrite filter_nil_iff. split.
    - intros H k Hk. apply orderedEntries_In_keys in Hk.
      apply in_map_iff in Hk as (e & <- & He).
      specialize (H e He). apply negb_false_iff in H. apply has_In. exact H.
    - intros H e He. apply negb_false_iff, has_In, H.
      apply orderedEntries_In_keys. apply in_map. exact He. }
  split; [exact Hiff|].
  intros H. apply Hiff in H. unfold appendMissingKeysToExample. rewrite H. reflexivity.
Qed.

Lemma patcher_nothing_missing_witness :
  appendMissingKeysToExample (mkDate 2024 0 5 9 3 7)
    (lit "# mine" ++ CRLF ++ lit "B=x" ++ CRLF ++ lit "A=") (lit "A=1") (lit "B=2")
  = lit "# mine" ++ CRLF ++ lit "B=x" ++ CRLF ++ lit "A=".
Proof.
  refine (proj2 (patcher_nothing_missing (mkDate 2024 0 5 9 3 7)
                   (lit "# mine" ++ CRLF ++ lit "B=x" ++ CRLF ++ lit "A=")
                   (lit "A=1") (lit "B=2")) _).
  vm_compute. intros k [[H | []] | [H | []]]; subst k; [right; left | left]; reflexivity.
Defined.

(** ** A duplicate key in the key indexer *)

Lemma fold_indexStep_run (run : list token) :
  forallb notAssignment run = true ->
  forall st,
  fold_left indexStep run st
  = mkIndexState (seen st) (entries st) (pending st ++ map raw run).
Proof.
  induction run as [|t run IH]; intros Hr st.
  - simpl. rewrite app_nil_r. destruct st; reflexivity.
  - destruct t as [r | r | r a]; simpl in Hr; try discriminate;
      cbn [fold_left indexStep]; rewrite (IH Hr); cbn [seen entries pending];
      rewrite <- app_assoc; reflexivity.
Qed.

Lemma fold_indexStep_seen (tokens : list token) (k : str) :
  forall st,
  has (seen (fold_left indexStep tokens st)) k
  = has (seen st) k || has (assignmentKeys tokens) k.
Proof.
  induction tokens as [|t ts IH]; intros st.
  - simpl. rewrite orb_false_r. reflexivity.
  - destruct t as [r | r | r a]; cbn [fold_left]; rewrite IH; try reflexivity.
    cbn [assignmentKeys]. rewrite (has_cons (assignmentKeys ts)).
    unfold indexStep. destruct (has (seen st) (key a)) eqn:Hs; cbn [negb seen].
    + destruct (str_eqb k (key a)) eqn:E; [|reflexivity].
      apply str_eqb_eq in E; subst k. rewrite Hs. reflexivity.
    + rewrite has_cons.
      destruct (str_eqb k (key a)), (has (seen st) k); reflexivity.
Qed.

Lemma fold_indexStep_after_assignment (body : list token) (r : str) (a : assignment) :
  pending (fold_left indexStep (body ++ [Assignment r a]) initialIndexState) = [].
Proof.
  rewrite fold_left_app. cbn [fold_left].
  generalize (fold_left indexStep body initialIndexState) as s. intros s.
  simpl. destruct (has (seen s) (key a)); reflexivity.
Qed.

Lemma indexState_eta (st : indexState) :
  pending st = [] -> mkIndexState (seen st) (entries st) [] = st.
Proof. destruct st; simpl; intros ->; reflexivity. Qed.

Lemma attachedRun_after_assignment (pre : list token) (r : str) (a : assignment)
  (mid : list token) :
  forallb notAssignment mid = true ->
  attachedRun (pre ++ Assignment r a :: mid) = map raw mid.
Proof.
  intros Hmid. induction pre as [|t pre IH].
  - simpl. rewrite (attachedRun_all mid Hmid). reflexivity.
  - change (attachedRun ((t :: pre) ++ Assignment r a :: mid)) with
      (if forallb notAssignment (t :: pre ++ Assignment r a :: mid)
       then map raw (t :: pre ++ Assignment r a :: mid)
       else attachedRun (pre ++ Assignment r a :: mid)).
    replace (forallb notAssignment (t :: pre ++ Assignment r a :: mid)) with false.
    + exact IH.
    + simpl. rewrite forallb_app. simpl. rewrite !andb_false_r. reflexivity.
Qed.

(** The state of the loop of the indexer just after a duplicate: the state
    it had after the last assignment above the duplicate. *)
Lemma fold_indexStep_duplicate
  (body : list token) (r0 : str) (a0 : assignment) (run : list token)
  (r : str) (a : assignment) :
  forallb notAssignment run = true ->
  In (key a) (assignmentKeys (body ++ [Assignment r0 a0])) ->
  fold_left indexStep (body ++ Assignment r0 a0 :: run ++ [Assignment r a])
            initialIndexState
  = fold_left indexStep (body ++ [Assignment r0 a0]) initialIndexState.
Proof.
  intros Hrun Hin.
  replace (body ++ Assignment r0 a0 :: run ++ [Assignment r a])
    with ((body ++ [Assignment r0 a0]) ++ run ++ [Assignment r a])
    by (rewrite <- app_assoc; reflexivity).
  rewrite !(fold_left_app indexStep (body ++ [Assignment r0 a0])).
  rewrite (fold_left_app indexStep run).
  set (s0 := fold_left indexStep (body ++ [Assignment r0 a0]) initialIndexState).
  assert (Hp : pending s0 = []) by apply fold_indexStep_after_assignment.
  assert (Hs : has (seen s0) (key a) = true).
  { unfold s0. rewrite fold_indexStep_seen. apply has_In in Hin. rewrite Hin.
    apply orb_true_r. }
  rewrite (fold_indexStep_run run Hrun). cbn [fold_left].
  rewrite indexStep_seen_key by exact Hs. cbn [seen entries].
  apply indexState_eta; exact Hp.
Qed.

(** C8, as the code has it, for every token list in which an assignment
    [dup] of a key already assigned above it comes after a run of comment
    and blank tokens that follows the assignment [first].  Up to [dup] the
    index has the same entries as without it and, where the run was pending
    before [dup], nothing is pending after it.  The whole index is the one of
    the token list without [dup] and without the run above it: the duplicate
    is discarded and the comments above it are dropped.  The next assignment
    after [dup], when its key is new, is indexed with the comment and blank
    lines between [dup] and itself and no others. *)
Theorem buildKeyIndex_duplicate_drops_pending
  (body : list token) (r0 : str) (first : assignment) (run : list token)
  (r : str) (dup : assignment) (post : list token) :
  let pre := body ++ Assignment r0 first :: run in
  forallb notAssignment run = true ->
  In (key dup) (assignmentKeys pre) ->
  trailing (buildKeyIndexWithLeadingComments pre) = map raw run /\
  buildKeyIndexWithLeadingComments (pre ++ [Assignment r dup])
  = mkKeyIndex (indexEntries (buildKeyIndexWithLeadingComments pre)) [] /\
  buildKeyIndexWithLeadingComments (pre ++ Assignment r dup :: post)
  = buildKeyIndexWithLeadingComments (body ++ Assignment r0 first :: post) /\
  (forall mid r' next post',
     post = mid ++ Assignment r' next :: post' ->
     forallb notAssignment mid = true ->
     ~ In (key next) (assignmentKeys pre) ->
     In (mkEntry (key next) (map raw mid))
        (indexEntries (buildKeyIndexWithLeadingComments
                         (pre ++ Assignment r dup :: post)))).
Proof.
  cbv zeta. intros Hrun Hin.
  assert (Hin' : In (key dup) (assignmentKeys (body ++ [Assignment r0 first]))).
  { replace (body ++ Assignment r0 first :: run)
      with ((body ++ [Assignment r0 first]) ++ run) in Hin
      by (rewrite <- app_assoc; reflexivity).
    rewrite assignmentKeys_app in Hin. apply in_app_or in Hin as [H | H]; [exact H|].
    exfalso. clear - Hrun H. induction run as [|t run IH]; [exact H|].
    destruct t; simpl in Hrun; try discriminate; apply IH; assumption. }
  pose proof (fold_indexStep_duplicate body r0 first run r dup Hrun Hin') as Hdup.
  assert (Hpre : fold_left indexStep (body ++ Assignment r0 first :: run)
                   initialIndexState
                 = let s0 := fold_left indexStep (body ++ [Assignment r0 first])
                               initialIndexState in
                   mkIndexState (seen s0) (entries s0) (map raw run)).
  { replace (body ++ Assignment r0 first :: run)
      with ((body ++ [Assignment r0 first]) ++ run)
      by (rewrite <- app_assoc; reflexivity).
    rewrite fold_left_app, (fold_indexStep_run run Hrun).
    rewrite fold_indexStep_after_assignment. reflexivity. }
  split; [|split; [|split]].
  - unfold buildKeyIndexWithLeadingComments. rewrite Hpre. reflexivity.
  - unfold buildKeyIndexWithLeadingComments.
    replace ((body ++ Assignment r0 first :: run) ++ [Assignment r dup])
      with (body ++ Assignment r0 first :: run ++ [Assignment r dup])
      by (rewrite <- app_assoc; reflexivity).
    rewrite Hdup, Hpre. cbn [entries].
    rewrite fold_indexStep_after_assignment. reflexivity.
  - unfold buildKeyIndexWithLeadingComments.
    replace ((body ++ Assignment r0 first :: run) ++ Assignment r dup :: post)
      with ((body ++ Assignment r0 first :: run ++ [Assignment r dup]) ++ post)
      by (rewrite <- !app_assoc; cbn [app]; rewrite <- app_assoc; reflexivity).
    replace (body ++ Assignment r0 first :: post)
      with ((body ++ [Assignment r0 first]) ++ post)
      by (rewrite <- app_assoc; reflexivity).
    rewrite !(fold_left_app indexStep _ post), Hdup. reflexivity.
  - intros mid r' next post' -> Hmid Hnew.
    replace ((body ++ Assignment r0 first :: run)
             ++ Assignment r dup :: mid ++ Assignment r' next :: post')
      with (((body ++ Assignment r0 first :: run) ++ Assignment r dup :: mid)
            ++ Assignment r' next :: post')
      by (rewrite <- !app_assoc; reflexivity).
    rewrite <- (attachedRun_after_assignment
                  (body ++ Assignment r0 first :: run) r dup mid Hmid).
    apply buildKeyIndex_attached.
    rewrite assignmentKeys_app. intros H. apply in_app_or in H as [H | H];
      [exact (Hnew H)|].
    simpl in H. destruct H as [H | H].
    + apply Hnew. rewrite <- H. exact Hin.
    + clear - Hmid H. induction mid as [|t mid IH]; [exact H|].
      destruct t; simpl in Hmid; try discriminate; apply IH; assumption.
Qed.

Lemma buildKeyIndex_duplicate_drops_pending_witness :
  let tokens := tokenizeEnvFile
    (lit "A=1" ++ LF ++ lit "# above" ++ LF ++ lit "A=2" ++ LF ++ lit "# below" ++ LF
     ++ lit "B=3") in
  buildKeyIndexWithLeadingComments tokens
  = buildKeyIndexWithLeadingComments
      (tokenizeEnvFile (lit "A=1" ++ LF ++ lit "# below" ++ LF ++ lit "B=3")) /\
  In (mkEntry (lit "B") [lit "# below"])
     (indexEntries (buildKeyIndexWithLeadingComments tokens)).
Proof.
  cbv zeta.
  destruct (buildKeyIndex_duplicate_drops_pending
              [] (lit "A=1") (mkAssignment (lit "A") (lit "A") (lit "1"))
              [Comment (lit "# above")]
              (lit "A=2") (mkAssignment (lit "A") (lit "A") (lit "2"))
              [Comment (lit "# below");
               Assignment (lit "B=3") (mkAssignment (lit "B") (lit "B") (lit "3"))])
    as (_ & _ & Hsame & Hnext); [vm_compute; reflexivity | vm_compute; left; reflexivity |].
  split.
  - exact Hsame.
  - refine (Hnext [Comment (lit "# below")] (lit "B=3")
              (mkAssignment (lit "B") (lit "B") (lit "3")) [] _ _ _).
    + vm_compute; reflexivity.
    + vm_compute; reflexivity.
    + vm_compute. intros [H | H]; [discriminate H | exact H].
Defined.
